(** * Appomata: the automaton / state / view engine, embedded in Rocq

    The development follows [Appomata.js]: the factory object [Appomata]
    (with its closure variables [allTomata], [connectedApps], [names]), the
    class [Automata] (with its closure variables [states] and
    [automataEventBus]), the class [State], the class [View] created inside
    [createView], and the part of the class [App] that talks to the engine.

    JavaScript objects that the program mutates and shares (states, views,
    automata, apps) live in a store and are named by their index there, so
    that identity and aliasing are those of the program.  The closure
    variables are fields of one record, [World]; a method becomes a function
    that takes the world and returns the new one together with what the
    method returns or throws.

    Conventions.
    - The code is an ES module (it has [import]/[export]) and the methods are
      class bodies, hence strict code: reading a property of [undefined] or
      [null], calling a value that is no function, and assigning a property
      on a primitive all raise [TypeError].
    - An [async] function never throws to its caller: whatever its body throws
      becomes a rejected promise.  A call of [transit] runs up to
      [await this.now.transit(loadedDelta)] and is suspended there; the rest
      runs later, when the promise has settled.  [Automata_transit] is the
      whole transition as a caller that awaits it sees it when nothing else
      runs in between; [transit_begin] and [transit_resume] are its two
      halves, and the world keeps the suspended calls.
    - Handlers, render functions and listeners are caller-supplied code.  A
      handler is taken to be a function of the value it receives whose body
      runs when it is called: it returns a fresh omega, and it can change the
      automaton's buffer and context only through the references the delta
      carries.  Listeners observe: they are recorded when called, they return
      normally and they do not call back into the engine.
    - Buffers, contexts and outputs are kept by their contents.  A buffer
      object shared by two automata, and a handler whose omega or output is
      the very buffer or context object of the delta, are not represented;
      the statements below do not turn on such sharing.
    - [object-observer] and [virtual-dom] are external: the [stateChanged]
      notifications raised by the observed context and the rendering done by
      [App.render] (the calls of the render functions, [cachedNodes],
      [rootTree], [rootNode]) are not part of the embedding. *)

From Stdlib Require Import ZArith String Ascii List Bool Lia.
From stdpp Require Import base strings list gmap pretty.

Open Scope string_scope.
Open Scope list_scope.

Set Warnings "-register-all".

(** ** JavaScript values *)

(** Data that flows through deltas, omegas, buffers and contexts.  [VWrapper]
    is the arrow function [(delta) => f(delta)] that [defineAction] stores on
    a state: it shows up as a value when the program reads a state property
    that an action of the same name has overwritten. *)
Inductive value : Type :=
| VUndef
| VNull
| VBool (b : bool)
| VNum (n : Z)
| VStr (s : string)
| VObj (fields : list (string * value))
| VWrapper.

(** A plain object literal: own properties in property order. *)
Definition obj : Type := list (string * value).

(** ToBoolean. *)
Definition truthy (v : value) : bool :=
  match v with
  | VUndef | VNull => false
  | VBool b => b
  | VNum n => negb (n =? 0)%Z
  | VStr s => negb (s =? "")
  | VObj _ | VWrapper => true
  end.

(** The native errors the engine can run into.  Only the constructor's name
    is kept; messages differ between hosts. *)
Definition TypeError : value := VObj [("name", VStr "TypeError")].
Definition ReferenceError : value := VObj [("name", VStr "ReferenceError")].
Definition RangeError : value := VObj [("name", VStr "RangeError")].

(** Own properties of an object literal, first match. *)
Fixpoint own {A : Type} (o : list (string * A)) (k : string) : option A :=
  match o with
  | [] => None
  | (k', a) :: r => if k' =? k then Some a else own r k
  end.

Definition get_field (fs : obj) (k : string) : value :=
  match own fs k with
  | Some v => v
  | None => VUndef
  end.

(** [v.k] for the property names the engine reads off caller data ([next],
    [output], [message], [from]); none of them is defined by a built-in
    prototype, so primitives and functions answer [undefined].  [None] is the
    [TypeError] raised on [undefined] and [null]. *)
Definition prop (v : value) (k : string) : option value :=
  match v with
  | VUndef | VNull => None
  | VObj fs => Some (get_field fs k)
  | VBool _ | VNum _ | VStr _ | VWrapper => Some VUndef
  end.

(** Source text of the wrapper, which is what a function turns into when it
    is used as a property key. *)
Definition wrapper_source : string := "(delta) => f(delta)".

(** ToPropertyKey.  A plain object answers ["[object Object]"] through the
    inherited [toString]; an own data field of that name shadows the method,
    and the conversion then fails with a [TypeError] ([None]).  A number is
    written out in decimal, as the program writes the integers below
    [10^21]; state names are strings, and no larger number is used as a
    key here. *)
Definition to_key (v : value) : option string :=
  match v with
  | VUndef => Some "undefined"
  | VNull => Some "null"
  | VBool true => Some "true"
  | VBool false => Some "false"
  | VNum n => Some (pretty n)
  | VStr s => Some s
  | VObj fs =>
      match own fs "toString" with
      | Some _ => None
      | None => Some "[object Object]"
      end
  | VWrapper => Some wrapper_source
  end.

(** [JSON.parse(JSON.stringify(v))] on data: properties holding [undefined]
    or a function are dropped, nested objects are copied. *)
Fixpoint json_copy (v : value) : value :=
  match v with
  | VObj fs =>
      VObj ((fix go (l : list (string * value)) : list (string * value) :=
               match l with
               | [] => []
               | (k, x) :: r =>
                   match x with
                   | VUndef | VWrapper => go r
                   | _ => (k, json_copy x) :: go r
                   end
               end) fs)
  | _ => v
  end.

(** ** Objects used as tables *)

(** [allTomata], [connectedApps], [states] and every [state.views] are
    created as [{}]: string-keyed tables that inherit from
    [Object.prototype].  The list holds the own properties in the order
    [Object.keys] enumerates them. *)
Definition JSObj (A : Type) : Type := list (string * A).

Definition Object_prototype : list string :=
  [ "constructor"; "__defineGetter__"; "__defineSetter__"; "hasOwnProperty";
    "__lookupGetter__"; "__lookupSetter__"; "isPrototypeOf";
    "propertyIsEnumerable"; "toString"; "valueOf"; "__proto__";
    "toLocaleString" ].

Definition in_names (k : string) (l : list string) : bool :=
  existsb (String.eqb k) l.

(** Result of [o[k]]: an own entry, a member inherited from
    [Object.prototype] (a truthy host value), or [undefined]. *)
Inductive lookup (A : Type) : Type :=
| Own (a : A)
| Inherited (k : string)
| Missing.
Arguments Own {A} a.
Arguments Inherited {A} k.
Arguments Missing {A}.

Definition obj_get {A : Type} (o : JSObj A) (k : string) : lookup A :=
  match own o k with
  | Some a => Own a
  | None => if in_names k Object_prototype then Inherited k else Missing
  end.

Definition found {A : Type} (r : lookup A) : bool :=
  match r with
  | Own _ | Inherited _ => true
  | Missing => false
  end.

(** Keys that are array indices ("0", "7", "42", below 2^32 - 1) are
    enumerated first, in ascending numeric order; the other keys follow in
    insertion order. *)
Definition digit_of (c : ascii) : option N :=
  let n := N_of_ascii c in
  if ((48 <=? n) && (n <=? 57))%N then Some (n - 48)%N else None.

Fixpoint digits (s : string) (acc : N) : option N :=
  match s with
  | EmptyString => Some acc
  | String c r =>
      match digit_of c with
      | Some d => digits r (acc * 10 + d)%N
      | None => None
      end
  end.

Definition array_index (s : string) : option N :=
  match s with
  | EmptyString => None
  | String c r =>
      if (N_of_ascii c =? 48)%N && negb (r =? "") then None
      else match digits s 0%N with
           | Some n => if (n <? 4294967295)%N then Some n else None
           | None => None
           end
  end.

Fixpoint replace_own {A : Type} (k : string) (a : A) (o : JSObj A) : JSObj A :=
  match o with
  | [] => []
  | (k', a') :: r =>
      if k' =? k then (k', a) :: r else (k', a') :: replace_own k a r
  end.

Fixpoint insert_index {A : Type} (n : N) (k : string) (a : A) (o : JSObj A)
  : JSObj A :=
  match o with
  | [] => [(k, a)]
  | (k', a') :: r =>
      match array_index k' with
      | Some m => if (m <? n)%N then (k', a') :: insert_index n k a r
                  else (k, a) :: o
      | None => (k, a) :: o
      end
  end.

(** [o[k] = a].  An existing property keeps its place.  Assigning
    ["__proto__"] runs the inherited setter and creates no own property; the
    change of prototype it causes is outside this model. *)
Definition obj_set {A : Type} (k : string) (a : A) (o : JSObj A) : JSObj A :=
  if k =? "__proto__" then o
  else match own o k with
       | Some _ => replace_own k a o
       | None =>
           match array_index k with
           | Some n => insert_index n k a o
           | None => o ++ [(k, a)]
           end
       end.

(** [Object.values(o)] and [Object.keys(o)]. *)
Definition obj_values {A : Type} (o : JSObj A) : list A := map snd o.
Definition obj_keys {A : Type} (o : JSObj A) : list string := map fst o.

(** A [Set] of object references: insertion order, no duplicates. *)
Definition set_add (x : nat) (s : list nat) : list nat :=
  if existsb (Nat.eqb x) s then s else s ++ [x].

(** ** Deltas, omegas and handlers *)

(** [Appomata.createDelta(action, input, from = "")]. *)
Record Delta : Type := mkDelta {
  d_action : string;
  d_input : value;
  d_from : value
}.

Definition createDelta (action : string) (input : value) : Delta :=
  mkDelta action input (VStr "").

(** [{...delta, context: this.context, buffer: this.buffer}]: the delta
    handed to a state.  The two last fields are references to the
    automaton's own objects; the record holds what they contain when the
    callee receives them. *)
Record LoadedDelta : Type := mkLoaded {
  ld_action : string;
  ld_input : value;
  ld_from : value;
  ld_context : obj;
  ld_buffer : obj
}.

(** What a caller-supplied function may be applied to: a loaded delta, or
    some other value (the engine also calls states with the string
    ["failed"] and with no argument at all). *)
Inductive harg : Type :=
| ADelta (d : LoadedDelta)
| AValue (v : value).

(** How a call of caller-supplied code ends: it returns [v] (or a promise
    that resolves to [v]), it returns a promise that rejects with [e], or it
    throws [e] on the spot.  Awaited, the two last are the same. *)
Inductive outcome : Type :=
| Resolve (v : value)
| Reject (e : value)
| Throw (e : value).

(** A handler's run: its outcome and the contents of the delta's buffer and
    context when it is done (they matter only for an [ADelta] argument;
    nothing else hands the handler a reference to them). *)
Record hresult : Type := mkHresult {
  h_out : outcome;
  h_buffer : obj;
  h_context : obj
}.

Definition handler : Type := harg -> hresult.

(** [Appomata.createOmega(next, output, views = [], context = {})] as the
    object a handler returns; the empty [views] array is written [VObj []]
    (the engine overwrites the field before it reads it). *)
Definition omega_literal (next output : value) : value :=
  VObj [("next", next); ("output", output); ("views", VObj []);
        ("context", VObj [])].

(** The omega [Automata.transit] hands back, its [views] the attached View
    objects. *)
Record Omega : Type := mkOmega {
  o_next : value;
  o_output : value;
  o_views : list nat;
  o_context : value
}.

Definition createOmega (next output : value) (views : list nat) : Omega :=
  mkOmega next output views (VObj []).

(** A synchronous call either returns or throws. *)
Inductive completion (A : Type) : Type :=
| Normal (a : A)
| Thrown (e : value).
Arguments Normal {A} a.
Arguments Thrown {A} e.

(** ** class State *)

(** The own properties of a State object.  [st_actions] are the properties
    written by [defineAction]; they live in the same namespace as the data
    fields and the methods, and [State_get] below resolves a name the way the
    object does.  [st_automata] is absent until [addState] writes it. *)
Record State : Type := mkState {
  st_name : string;
  st_local : value;
  st_views : JSObj nat;
  st_automata : option string;
  st_actions : JSObj handler
}.

(** The methods of [State.prototype]. *)
Inductive method : Type :=
| m_constructor
| m_addView
| m_transit
| m_failed
| m_defineAction
| m_cleanUp.

Definition State_prototype (k : string) : option method :=
  if k =? "constructor" then Some m_constructor
  else if k =? "addView" then Some m_addView
  else if k =? "transit" then Some m_transit
  else if k =? "failed" then Some m_failed
  else if k =? "defineAction" then Some m_defineAction
  else if k =? "cleanUp" then Some m_cleanUp
  else None.

(** What [this[k]] finds on a state. *)
Inductive member : Type :=
| MAction (h : handler)
| MData (v : value)
| MViews (vs : JSObj nat)
| MMethod (m : method)
| MObject (k : string)
| MUndefined.

Definition State_get (st : State) (k : string) : member :=
  match own (st_actions st) k with
  | Some h => MAction h
  | None =>
      if k =? "name" then MData (VStr (st_name st))
      else if k =? "local" then MData (st_local st)
      else if k =? "views" then MViews (st_views st)
      else match (if k =? "automata" then st_automata st else None) with
           | Some a => MData (VStr a)
           | None =>
               match State_prototype k with
               | Some m => MMethod m
               | None =>
                   if in_names k Object_prototype then MObject k
                   else MUndefined
               end
           end
  end.

Definition truthy_member (m : member) : bool :=
  match m with
  | MUndefined => false
  | MData v => truthy v
  | MAction _ | MViews _ | MMethod _ | MObject _ => true
  end.

(** [this.name] and [this.views] as the program reads them. *)
Definition State_name (st : State) : value :=
  match own (st_actions st) "name" with
  | Some _ => VWrapper
  | None => VStr (st_name st)
  end.

(** [Object.values(this.views)] / [Object.entries(this.views)]: a function
    has no enumerable own property. *)
Definition State_views (st : State) : JSObj nat :=
  match own (st_actions st) "views" with
  | Some _ => []
  | None => st_views st
  end.

(** [defineAction({name, f})]: [this[name] = (delta) => f(delta)]. *)
Definition State_defineAction (name : string) (f : handler) (st : State)
  : State :=
  mkState (st_name st) (st_local st) (st_views st) (st_automata st)
          (obj_set name f (st_actions st)).

(** The constructor's loop
    [Object.entries(actions).forEach(e => this.defineAction({name: e[0], f: e[1]}))].
    [this.defineAction] is looked up at each round: once an action of that
    name is defined, the rounds that follow call its wrapper instead. *)
Fixpoint define_all (acts : list (string * handler)) (st : State)
  : completion State :=
  match acts with
  | [] => Normal st
  | (n, f) :: r =>
      match own (st_actions st) "defineAction" with
      | Some h =>
          match h_out (h (AValue (VObj [("name", VStr n); ("f", VWrapper)]))) with
          | Throw e => Thrown e
          | Resolve _ | Reject _ => define_all r st
          end
      | None => define_all r (State_defineAction n f st)
      end
  end.

(** [new State({name, local = {}, actions = {}, views = {}})]. *)
Definition State_new (name : string) (local : value)
    (actions : JSObj handler) (views : JSObj nat) : completion State :=
  define_all actions (mkState name local views None []).

(** The payload of the default omega, [{name: this.name, ...delta}]. *)
Definition unmatched_payload (st : State) (d : LoadedDelta) : value :=
  VObj [("name", State_name st); ("action", VStr (ld_action d));
        ("input", ld_input d); ("from", ld_from d);
        ("context", VObj (ld_context d)); ("buffer", VObj (ld_buffer d))].

(** [State.prototype.failed(delta)]. *)
Definition State_failed (st : State) (d : LoadedDelta) : value :=
  omega_literal (VStr "failed") (unmatched_payload st d).

(** The result of a state's [transit]: the promise's outcome ([Resolve] or
    [Reject]), the state itself (a dispatch to [defineAction] changes it) and
    the buffer and context as the handlers left them. *)
Record tresult : Type := mkTresult {
  t_out : outcome;
  t_state : State;
  t_buffer : obj;
  t_context : obj
}.

Definition relocate (d : LoadedDelta) (buffer context : obj) : LoadedDelta :=
  mkLoaded (ld_action d) (ld_input d) (ld_from d) context buffer.

(** A state seen as data, for the one inherited member that answers with the
    receiver ([valueOf]). *)
Definition State_as_value (st : State) : value :=
  VObj (("name", State_name st)
        :: ("local", match own (st_actions st) "local" with
                     | Some _ => VWrapper
                     | None => st_local st
                     end)
        :: map (fun p => (fst p, VWrapper))
               (List.filter (fun p => negb (in_names (fst p) ["name"; "local"]))
                            (st_actions st))).

(** Calling a member inherited from [Object.prototype] with the delta as its
    argument. *)
Definition Object_prototype_call (k : string) (st : State) : outcome :=
  if in_names k ["hasOwnProperty"; "propertyIsEnumerable"]
  then (* the delta, as a key, reads "[object Object]" *)
    Resolve (VBool (match own (st_actions st) "[object Object]" with
                    | Some _ => true
                    | None => false
                    end))
  else if k =? "isPrototypeOf" then Resolve (VBool false)
  else if in_names k ["__lookupGetter__"; "__lookupSetter__"]
  then Resolve VUndef
  else if in_names k ["toString"; "toLocaleString"]
  then Resolve (VStr "[object Object]")
  else if k =? "valueOf" then Resolve (State_as_value st)
  else Throw TypeError.

(** [this[delta.action](delta)] once the member is known to be truthy. *)
Definition call_member (st : State) (m : member) (d : LoadedDelta) : tresult :=
  let same (o : outcome) := mkTresult o st (ld_buffer d) (ld_context d) in
  match m with
  | MAction h =>
      let r := h (ADelta d) in
      mkTresult (h_out r) st (h_buffer r) (h_context r)
  | MData _ | MViews _ | MUndefined => same (Throw TypeError)
  | MMethod m_failed => same (Resolve (State_failed st d))
  | MMethod m_cleanUp => same (Resolve VUndef)
  | MMethod m_transit => same (Reject RangeError)
  | MMethod m_constructor => same (Throw TypeError)
  | MMethod m_addView =>
      (* [this.views[delta.name]] with [delta.name] undefined; a miss goes on
         to [delta.states.add], a [TypeError] *)
      match own (State_views st) "undefined" with
      | Some _ => same (Resolve VUndef)
      | None => same (Throw TypeError)
      end
  | MMethod m_defineAction =>
      (* [{name, f} = delta] leaves both undefined:
         [this[undefined] = (delta) => undefined(delta)] *)
      mkTresult (Resolve VUndef)
        (State_defineAction "undefined"
           (fun x => match x with
                     | ADelta d' =>
                         mkHresult (Throw TypeError) (ld_buffer d') (ld_context d')
                     | AValue _ => mkHresult (Throw TypeError) [] []
                     end) st)
        (ld_buffer d) (ld_context d)
  | MObject k => same (Object_prototype_call k st)
  end.

(** [this.failed(delta)] as [transit] calls it: the method, unless an action
    named [failed] has replaced it. *)
Definition call_failed (st : State) (d : LoadedDelta) : tresult :=
  match own (st_actions st) "failed" with
  | Some h =>
      let r := h (ADelta d) in
      mkTresult (match h_out r with
                 | Resolve v => Resolve v
                 | Reject e | Throw e => Reject e
                 end) st (h_buffer r) (h_context r)
  | None => mkTresult (Resolve (State_failed st d)) st (ld_buffer d) (ld_context d)
  end.

(** [State.prototype.transit(delta)]:
    [(this[delta.action] && await this[delta.action](delta)) || this.failed(delta)]. *)
Definition State_transit (st : State) (d : LoadedDelta) : tresult :=
  let m := State_get st (ld_action d) in
  if truthy_member m then
    let r := call_member st m d in
    match t_out r with
    | Resolve v =>
        if truthy v then r
        else call_failed (t_state r) (relocate d (t_buffer r) (t_context r))
    | Reject e | Throw e => mkTresult (Reject e) (t_state r) (t_buffer r) (t_context r)
    end
  else call_failed st d.

(** ** The event bus *)

(** A subscriber of the automata's bus: the closure that [createAutomata]
    registers for the automaton of the given name, or a callback of the
    caller, known by a label. *)
Inductive listener : Type :=
| LApps (name : string)
| LUser (id : string).

(** Modelled from the spec: [EventBus] comes from the module [./helpers],
    which is not part of the sources at hand.  The specification uses it as a
    publish/subscribe bus: [on(event, handler)] subscribes the handler to the
    event, [emit(event, payload)] notifies the subscribers of that event, and
    the model calls them in the order they subscribed.  [on] is taken off the
    bus object and called as a method of other objects
    ([this.on = automataEventBus.on]), so it is modelled as working on the
    bus it was taken from, whatever its receiver. *)
Definition EventBus (L : Type) : Type := list (string * L).

(** Modelled from the spec: [EventBus()] makes a bus with no subscriber. *)
Definition EventBus_new {L : Type} : EventBus L := [].

(** Modelled from the spec: [bus.on(event, handler)] of the absent
    [./helpers] module subscribes [handler] to [event]. *)
Definition EventBus_on {L : Type} (ev : string) (l : L) (b : EventBus L)
  : EventBus L :=
  b ++ [(ev, l)].

(** Modelled from the spec: the subscribers [bus.emit(event, ...)] of the
    absent [./helpers] module notifies, in subscription order. *)
Fixpoint EventBus_listeners {L : Type} (ev : string) (b : EventBus L) : list L :=
  match b with
  | [] => []
  | (ev', l) :: r =>
      if ev' =? ev then l :: EventBus_listeners ev r
      else EventBus_listeners ev r
  end.

(** ** The objects in the store *)

(** The value of [this.now]: a State, or a member the [states] table
    inherits from [Object.prototype]. *)
Inductive nowref : Type :=
| NState (l : nat)
| NHost (k : string).

(** An instance of [Automata]; [a_now = None] is [null] or [undefined].
    [a_buffer] and [a_context] are the contents of [this.buffer] and
    [this.context]: the constructor keeps the caller's buffer object itself,
    and a buffer object handed to two automata is not represented. *)
Record Automata : Type := mkAutomata {
  a_name : string;
  a_buffer : obj;
  a_context : obj;
  a_now : option nowref;
  a_initialState : option string
}.

(** An instance of the class [View] that [createView] declares. *)
Record View : Type := mkView {
  v_name : string;
  v_states : list value;
  v_automatas : list string;
  v_automata : option string;
  v_render : value
}.

(** An object handed to [connect]: an instance of [App] has the method
    [onTransition]; any other object may lack it. *)
Record AppObj : Type := mkApp {
  app_name : string;
  app_onTransition : bool;
  app_ugly : option (JSObj nat)
}.

(** What an emission carries. *)
Inductive payload : Type :=
| PDelta (d : LoadedDelta)
| PTransition (automata : string) (delta : Delta) (omega : Omega).

Inductive bus_id : Type := automata_bus | app_bus.

(** What the engine is seen doing: emissions, calls of subscribers, calls of
    an app's [onTransition], calls of a state's [cleanUp]. *)
Inductive event : Type :=
| Emitted (b : bus_id) (ev : string) (p : payload)
| Called (id : string) (ev : string) (p : payload)
| OnTransition (app : nat) (p : payload)
| CleanedUp (st : nat).

(** A call of [transit] that is suspended at
    [await this.now.transit(loadedDelta)]: the automaton, the delta of the
    call (with [from]), the loaded delta, and how the awaited promise
    settles. *)
Record Pending : Type := mkPending {
  p_automaton : nat;
  p_delta : Delta;
  p_loaded : LoadedDelta;
  p_out : outcome
}.

(** ** The world *)

Record World : Type := mkWorld {
  (* closure of the Appomata factory *)
  allTomata : JSObj nat;
  connectedApps : JSObj (list nat);
  names : gset string;
  (* closure of the class Automata *)
  states : JSObj nat;
  automataEventBus : EventBus listener;
  (* closure of the class App *)
  appEventBus : EventBus string;
  (* the store *)
  state_store : list State;
  view_store : list View;
  automata_store : list Automata;
  app_store : list AppObj;
  (* what has been observed so far *)
  trace : list event;
  (* the calls of [transit] that wait for their promise, oldest first *)
  suspended : list Pending
}.

Definition World_new : World :=
  mkWorld [] [] ∅ [] EventBus_new EventBus_new [] [] [] [] [] [].

Definition with_allTomata (x : JSObj nat) (w : World) : World :=
  mkWorld x (connectedApps w) (names w) (states w) (automataEventBus w)
    (appEventBus w) (state_store w) (view_store w) (automata_store w)
    (app_store w) (trace w) (suspended w).
Definition with_connectedApps (x : JSObj (list nat)) (w : World) : World :=
  mkWorld (allTomata w) x (names w) (states w) (automataEventBus w)
    (appEventBus w) (state_store w) (view_store w) (automata_store w)
    (app_store w) (trace w) (suspended w).
Definition with_states (x : JSObj nat) (w : World) : World :=
  mkWorld (allTomata w) (connectedApps w) (names w) x (automataEventBus w)
    (appEventBus w) (state_store w) (view_store w) (automata_store w)
    (app_store w) (trace w) (suspended w).
Definition with_automataEventBus (x : EventBus listener) (w : World) : World :=
  mkWorld (allTomata w) (connectedApps w) (names w) (states w) x
    (appEventBus w) (state_store w) (view_store w) (automata_store w)
    (app_store w) (trace w) (suspended w).
Definition with_appEventBus (x : EventBus string) (w : World) : World :=
  mkWorld (allTomata w) (connectedApps w) (names w) (states w)
    (automataEventBus w) x (state_store w) (view_store w) (automata_store w)
    (app_store w) (trace w) (suspended w).
Definition with_state_store (x : list State) (w : World) : World :=
  mkWorld (allTomata w) (connectedApps w) (names w) (states w)
    (automataEventBus w) (appEventBus w) x (view_store w) (automata_store w)
    (app_store w) (trace w) (suspended w).
Definition with_view_store (x : list View) (w : World) : World :=
  mkWorld (allTomata w) (connectedApps w) (names w) (states w)
    (automataEventBus w) (appEventBus w) (state_store w) x (automata_store w)
    (app_store w) (trace w) (suspended w).
Definition with_automata_store (x : list Automata) (w : World) : World :=
  mkWorld (allTomata w) (connectedApps w) (names w) (states w)
    (automataEventBus w) (appEventBus w) (state_store w) (view_store w) x
    (app_store w) (trace w) (suspended w).
Definition with_app_store (x : list AppObj) (w : World) : World :=
  mkWorld (allTomata w) (connectedApps w) (names w) (states w)
    (automataEventBus w) (appEventBus w) (state_store w) (view_store w)
    (automata_store w) x (trace w) (suspended w).
Definition with_trace (x : list event) (w : World) : World :=
  mkWorld (allTomata w) (connectedApps w) (names w) (states w)
    (automataEventBus w) (appEventBus w) (state_store w) (view_store w)
    (automata_store w) (app_store w) x (suspended w).

Definition with_suspended (x : list Pending) (w : World) : World :=
  mkWorld (allTomata w) (connectedApps w) (names w) (states w)
    (automataEventBus w) (appEventBus w) (state_store w) (view_store w)
    (automata_store w) (app_store w) (trace w) x.

Definition log (e : event) (w : World) : World :=
  with_trace (trace w ++ [e]) w.

(** ** Emitting *)

(** [App.prototype.onTransition(transitionEvent)]: two emissions on the
    apps' bus around [this.render(transitionEvent)].  The rendering calls the
    views' render functions and [virtual-dom]; it is not embedded: the model
    goes on as if it had returned, and shows nothing of what it writes
    ([cachedNodes] of the views, [rootTree] and [rootNode] of the app are not
    fields of the model's views and apps). *)
Definition app_emit (ev : string) (p : payload) (w : World) : World :=
  fold_left (fun w id => log (Called id ev p) w)
            (EventBus_listeners ev (appEventBus w))
            (log (Emitted app_bus ev p) w).

Definition App_onTransition (app : nat) (p : payload) (w : World) : World :=
  app_emit "afterAppRender" p (app_emit "beforAppRender" p (log (OnTransition app p) w)).

(** One subscriber of the automata's bus is called.  The closure of
    [createAutomata] runs
    [connectedApps[name].forEach(app => { if (app.onTransition) app.onTransition(e) })];
    the entry is written by [createAutomata] before it subscribes. *)
Definition notify (ev : string) (p : payload) (w : World) (l : listener) : World :=
  match l with
  | LUser id => log (Called id ev p) w
  | LApps name =>
      match obj_get (connectedApps w) name with
      | Own apps =>
          fold_left
            (fun w app =>
               match app_store w !! app with
               | Some a => if app_onTransition a then App_onTransition app p w else w
               | None => w
               end)
            apps w
      | Inherited _ | Missing => w
      end
  end.

(** [automataEventBus.emit(ev, p)]. *)
Definition emit (ev : string) (p : payload) (w : World) : World :=
  fold_left (notify ev p)
            (EventBus_listeners ev (automataEventBus w))
            (log (Emitted automata_bus ev p) w).

(** ** class Automata *)

(** A promise, once settled. *)
Inductive promise (A : Type) : Type :=
| Resolved (a : A)
| Rejected (e : value).
Arguments Resolved {A} a.
Arguments Rejected {A} e.

Definition set_automaton (a : nat) (au : Automata) (w : World) : World :=
  with_automata_store (<[a:=au]> (automata_store w)) w.

Definition set_state (s : nat) (st : State) (w : World) : World :=
  with_state_store (<[s:=st]> (state_store w)) w.

(** The key [state.name] turns into when it indexes the [states] table. *)
Definition State_key (st : State) : string :=
  match own (st_actions st) "name" with
  | Some _ => wrapper_source
  | None => st_name st
  end.

(** [states[k]] as a value for [this.now]. *)
Definition state_at (w : World) (k : string) : option nowref :=
  match obj_get (states w) k with
  | Own l => Some (NState l)
  | Inherited h => Some (NHost h)
  | Missing => None
  end.

(** [new Automata({name, states = [], context = {}, buffer = {}})].  The
    constructor runs [states.forEach(this.addState)]: [addState] is passed
    detached from its receiver, so inside it [this] is [undefined].  A state
    whose name is taken is skipped as usual; for any other state
    [state.automata = this.name] raises a [TypeError]. *)
Definition Automata_new (name : string) (sts : list nat) (context buffer : obj)
    (w : World) : completion (nat * World) :=
  if forallb (fun s => match state_store w !! s with
                       | Some st => found (obj_get (states w) (State_key st))
                       | None => false
                       end) sts
  then Normal (length (automata_store w),
               with_automata_store
                 (automata_store w ++ [mkAutomata name buffer context None None]) w)
  else Thrown TypeError.

(** [this.on = automataEventBus.on; this.off = automataEventBus.on]. *)
Definition Automata_on (a : nat) (ev : string) (l : listener) (w : World) : World :=
  with_automataEventBus (EventBus_on ev l (automataEventBus w)) w.

Definition Automata_off : nat -> string -> listener -> World -> World :=
  Automata_on.

(** [init(initState)]. *)
Definition Automata_init (a : nat) (initState : string) (w : World)
  : completion World :=
  match automata_store w !! a with
  | None => Thrown TypeError
  | Some au =>
      match state_at w initState with
      | Some n =>
          Normal (set_automaton a
                    (mkAutomata (a_name au) (a_buffer au) (a_context au)
                                (Some n) (Some initState)) w)
      | None => Thrown (VStr "given state doesn't exists")
      end
  end.

Fixpoint remove_own {A : Type} (k : string) (o : JSObj A) : JSObj A :=
  match o with
  | [] => []
  | (k', a) :: r => if k' =? k then r else (k', a) :: remove_own k r
  end.

(** [state.views[key].automata = this.name] for one view. *)
Definition bind_view (name : string) (w : World) (v : nat) : World :=
  match view_store w !! v with
  | Some vw =>
      with_view_store
        (<[v := mkView (v_name vw) (v_states vw) (v_automatas vw)
                       (Some name) (v_render vw)]> (view_store w)) w
  | None => w
  end.

(** [addState(state)], called as a method of the automaton [a]. *)
Definition Automata_addState (a s : nat) (w : World) : World :=
  match automata_store w !! a, state_store w !! s with
  | Some au, Some st =>
      if found (obj_get (states w) (State_key st)) then w
      else
        let st' := mkState (st_name st) (st_local st) (st_views st)
                           (Some (a_name au))
                           (remove_own "automata" (st_actions st)) in
        let w1 := set_state s st' w in
        let w2 := fold_left (bind_view (a_name au))
                            (obj_values (State_views st')) w1 in
        with_states (obj_set (State_key st') s (states w2)) w2
  | _, _ => w
  end.

(** [this.now.name]; a host function has a name of its own. *)
Definition now_name (w : World) (n : nowref) : value :=
  match n with
  | NState l =>
      match state_store w !! l with
      | Some st => State_name st
      | None => VUndef
      end
  | NHost k =>
      if k =? "__proto__" then VUndef
      else if k =? "constructor" then VStr "Object"
      else VStr k
  end.

(** The state of one run of [transit] between its statements: the variable
    [omega] ([VUndef] until assigned) and the world. *)
Definition set_buffers (a : nat) (buffer context : obj) (w : World) : World :=
  match automata_store w !! a with
  | Some au =>
      set_automaton a (mkAutomata (a_name au) buffer context (a_now au)
                                  (a_initialState au)) w
  | None => w
  end.

Definition set_now (a : nat) (n : option nowref) (w : World) : World :=
  match automata_store w !! a with
  | Some au =>
      set_automaton a (mkAutomata (a_name au) (a_buffer au) (a_context au) n
                                  (a_initialState au)) w
  | None => w
  end.

(** [await this.now.transit(loadedDelta)]: the method of the class, unless
    the state has an action named [transit].  Anything thrown on the way is
    a rejection for the awaiting caller. *)
Definition now_transit (w : World) (n : nowref) (d : LoadedDelta)
  : option (nat * tresult) :=
  match n with
  | NHost _ => None
  | NState l =>
      match state_store w !! l with
      | None => None
      | Some st =>
          match own (st_actions st) "transit" with
          | Some h =>
              let r := h (ADelta d) in
              Some (l, mkTresult (h_out r) st (h_buffer r) (h_context r))
          | None => Some (l, State_transit st d)
          end
      end
  end.

(** [this.now.cleanUp()]: the method of the class, whose body is empty,
    unless the state has an action named [cleanUp], whose wrapper is then
    called without argument.  Only a synchronous throw is felt by the
    caller. *)
Definition now_cleanUp (w : World) (l : nat) : completion World :=
  match state_store w !! l with
  | None => Thrown TypeError
  | Some st =>
      match own (st_actions st) "cleanUp" with
      | Some h =>
          match h_out (h (AValue VUndef)) with
          | Throw e => Thrown e
          | Resolve _ | Reject _ => Normal (log (CleanedUp l) w)
          end
      | None => Normal (log (CleanedUp l) w)
      end
  end.

(** [states[omega.next] || states.init || states.failed]. *)
Definition next_state (w : World) (k : string) : option nowref :=
  match state_at w k with
  | Some n => Some n
  | None =>
      match state_at w "init" with
      | Some n => Some n
      | None => state_at w "failed"
      end
  end.

(** The [try] block.  It ends normally with [omega] assigned and [this.now]
    replaced, or it raises with [omega] as far as it got. *)
Inductive tried : Type :=
| Passed (omega : value) (w : World)
| Caught (omega : value) (e : value) (w : World).

Definition transit_try (a : nat) (n : nowref) (d : LoadedDelta) (w : World)
  : tried :=
  match now_transit w n d with
  | None => Caught VUndef TypeError w
  | Some (l, r) =>
      let w1 := set_buffers a (t_buffer r) (t_context r)
                  (set_state l (t_state r) w) in
      match t_out r with
      | Reject e | Throw e => Caught VUndef e w1
      | Resolve omega =>
          match now_cleanUp w1 l with
          | Thrown e => Caught omega e w1
          | Normal w2 =>
              match prop omega "next" with
              | None => Caught omega TypeError w2
              | Some nx =>
                  match to_key nx with
                  | None => Caught omega TypeError w2
                  | Some k => Passed omega (set_now a (next_state w2 k) w2)
                  end
              end
          end
      end
  end.

(** The delta as the later statements see it: its [context] and [buffer]
    are the automaton's own objects, so it shows their present contents. *)
Definition reload (a : nat) (d : LoadedDelta) (w : World) : LoadedDelta :=
  match automata_store w !! a with
  | Some au => relocate d (a_buffer au) (a_context au)
  | None => d
  end.

(** The [catch] block after its emission of [failedTransition].
    [this.now.transit("failed", {...loadedDelta, e})]
    calls the state that was current with the string ["failed"] as its
    delta and drops the promise: the callee gets no reference to the buffer,
    and only a synchronous throw, possible when an action named [transit]
    stands in for the method, is felt here.  The block then leaves
    [this.now = states.failed]. *)
Definition transit_catch (a : nat) (n : nowref) (d : LoadedDelta) (w : World)
  : completion World :=
  match n with
  | NHost _ => Thrown TypeError
  | NState l =>
      match state_store w !! l with
      | None => Thrown TypeError
      | Some st =>
          match
            match own (st_actions st) "transit" with
            | Some h => h_out (h (AValue (VStr "failed")))
            | None => Resolve VUndef
            end
          with
          | Throw e => Thrown e
          | Resolve _ | Reject _ =>
              match now_cleanUp w l with
              | Thrown e => Thrown e
              | Normal w2 =>
                  Normal (set_now a
                            (match obj_get (states w2) "failed" with
                             | Own f => Some (NState f)
                             | Inherited _ | Missing => None
                             end) w2)
              end
          end
      end
  end.

Definition set_field (k : string) (v : value) (fs : obj) : obj :=
  match own fs k with
  | Some _ => replace_own k v fs
  | None => fs ++ [(k, v)]
  end.

(** The statements after the [try]: [omega.views = ...], the rebuilt omega,
    its [output] completed with the context's copy and the buffer, the two
    emissions.  The code writes [context] and [buffer] into the output
    object the handler returned; the model shows the completed output and
    takes that object to be the handler's own, distinct from the automaton's
    buffer and context. *)
Definition transit_finish (a : nat) (d0 : Delta) (d : LoadedDelta)
    (omega : value) (w : World) : promise Omega * World :=
  match automata_store w !! a with
  | None => (Rejected TypeError, w)
  | Some au =>
      match a_now au with
      | None | Some (NHost _) => (Rejected TypeError, w)
      | Some (NState l) =>
          match state_store w !! l with
          | None => (Rejected TypeError, w)
          | Some st =>
              match omega with
              | VObj _ | VWrapper =>
                  let nx := match prop omega "next" with
                            | Some v => v | None => VUndef end in
                  let out := match prop omega "output" with
                             | Some v => v | None => VUndef end in
                  let out := if truthy out then out else VObj [] in
                  let context := json_copy (VObj (a_context au)) in
                  match
                    match out with
                    | VObj fs =>
                        Some (VObj (set_field "buffer" (VObj (a_buffer au))
                                      (set_field "context" context fs)))
                    | VWrapper => Some VWrapper
                    | _ => None
                    end
                  with
                  | None => (Rejected TypeError, w)
                  | Some out' =>
                      let om := mkOmega nx out' (obj_values (State_views st))
                                        (VObj []) in
                      let p := PTransition (a_name au) d0 om in
                      (Resolved om,
                       emit "afterTransition" p (emit "dataTransition" p w))
                  end
              | _ => (Rejected TypeError, w)
              end
          end
      end
  end.

(** [async transit(delta)]. *)
Definition Automata_transit (a : nat) (delta : Delta) (w : World)
  : promise Omega * World :=
  match automata_store w !! a with
  | None => (Rejected TypeError, w)
  | Some au =>
      match a_now au with
      | None => (Rejected (VStr "Current state is not initialized"), w)
      | Some n =>
          let d0 := mkDelta (d_action delta) (d_input delta) (now_name w n) in
          let d := mkLoaded (d_action d0) (d_input d0) (d_from d0)
                            (a_context au) (a_buffer au) in
          let w1 := emit "beforeTransition" (PDelta d) w in
          match transit_try a n d w1 with
          | Passed omega w2 => transit_finish a d0 d omega w2
          | Caught omega e w2 =>
              let w3 := emit "failedTransition" (PDelta (reload a d w2)) w2 in
              match transit_catch a n d w3 with
              | Thrown e' => (Rejected e', w3)
              | Normal w4 => transit_finish a d0 d omega w4
              end
          end
      end
  end.

(** ** The two halves of a transition *)

(** The [try] block from the point where the awaited promise has settled
    with [out].  [this.now] is read again: the automaton may have moved
    while the call was suspended. *)
Definition transit_try_rest (a : nat) (out : outcome) (w : World) : tried :=
  match out with
  | Reject e | Throw e => Caught VUndef e w
  | Resolve omega =>
      match automata_store w !! a with
      | None => Caught omega TypeError w
      | Some au =>
          match a_now au with
          | Some (NState l) =>
              match now_cleanUp w l with
              | Thrown e => Caught omega e w
              | Normal w2 =>
                  match prop omega "next" with
                  | None => Caught omega TypeError w2
                  | Some nx =>
                      match to_key nx with
                      | None => Caught omega TypeError w2
                      | Some k => Passed omega (set_now a (next_state w2 k) w2)
                      end
                  end
              end
          | Some (NHost _) | None =>
              (* [this.now.cleanUp] is no function *)
              Caught omega TypeError w
          end
      end
  end.

(** What follows the [try] block: the [catch] block if something was
    raised, then the statements after it. *)
Definition transit_rest (a : nat) (d0 : Delta) (d : LoadedDelta) (t : tried)
  : promise Omega * World :=
  match t with
  | Passed omega w2 => transit_finish a d0 d omega w2
  | Caught omega e w2 =>
      let w3 := emit "failedTransition" (PDelta (reload a d w2)) w2 in
      match automata_store w3 !! a with
      | None => (Rejected TypeError, w3)
      | Some au =>
          match a_now au with
          | None => (Rejected TypeError, w3)
          | Some n =>
              match transit_catch a n d w3 with
              | Thrown e' => (Rejected e', w3)
              | Normal w4 => transit_finish a d0 d omega w4
              end
          end
      end
  end.

(** A suspended call goes on: the second half of [transit]. *)
Definition transit_resume (p : Pending) (w : World) : promise Omega * World :=
  transit_rest (p_automaton p) (p_delta p) (p_loaded p)
               (transit_try_rest (p_automaton p) (p_out p) w).

(** How a call of [transit] stands when it hands its promise to the caller:
    the body ran to its end without waiting (the promise is settled), or it
    is suspended at the [await]. *)
Inductive started : Type :=
| Settled (r : promise Omega) (w : World)
| Suspended (p : Pending) (w : World).

(** The first half of [transit]: the check of [this.now], the delta,
    [beforeTransition], and the call [this.now.transit(loadedDelta)], which
    runs the state's handler.  The call is suspended at the [await] unless
    [this.now.transit] is no function or throws on the spot (an action named
    [transit] can); in that case the [catch] block and the rest run at once.
    What the state's [transit] does to the state, the buffer and the context
    is shown here, where the handler is called; of that, only the call of
    [this.failed] after a handler that resolved to a falsy value happens one
    step later in the program. *)
Definition transit_begin (a : nat) (delta : Delta) (w : World) : started :=
  match automata_store w !! a with
  | None => Settled (Rejected TypeError) w
  | Some au =>
      match a_now au with
      | None => Settled (Rejected (VStr "Current state is not initialized")) w
      | Some n =>
          let d0 := mkDelta (d_action delta) (d_input delta) (now_name w n) in
          let d := mkLoaded (d_action d0) (d_input d0) (d_from d0)
                            (a_context au) (a_buffer au) in
          let w1 := emit "beforeTransition" (PDelta d) w in
          match now_transit w1 n d with
          | None =>
              let r := transit_rest a d0 d (Caught VUndef TypeError w1) in
              Settled (fst r) (snd r)
          | Some (l, r) =>
              let w2 := set_buffers a (t_buffer r) (t_context r)
                          (set_state l (t_state r) w1) in
              match t_out r with
              | Throw e =>
                  let r' := transit_rest a d0 d (Caught VUndef e w2) in
                  Settled (fst r') (snd r')
              | Resolve _ | Reject _ =>
                  Suspended (mkPending a d0 d (t_out r)) w2
              end
          end
      end
  end.

(** [this.transit(delta)] called and its promise dropped: the world when the
    call returns, the suspended call queued. *)
Definition transit_call (a : nat) (delta : Delta) (w : World) : World :=
  match transit_begin a delta w with
  | Settled _ w' => w'
  | Suspended p w' => with_suspended (suspended w' ++ [p]) w'
  end.

(** The event loop takes up the suspended call number [k]; which one is
    ready first depends on when the handlers' promises settle. *)
Definition resume (k : nat) (w : World) : World :=
  match suspended w !! k with
  | Some p => snd (transit_resume p (with_suspended (delete k (suspended w)) w))
  | None => w
  end.

(** ** What a host value answers *)

(** [this.now] can be a member that the [states] table inherits from
    [Object.prototype]: the object [Object.prototype] itself (under
    "__proto__"), the function [Object] (under "constructor") or one of the
    built-in methods.  The tables below follow the ECMAScript
    specification. *)
Definition Function_prototype : list string :=
  [ "apply"; "bind"; "call"; "constructor"; "toString" ].

(** The accessors of [Function.prototype] that throw a [TypeError] when
    read on a built-in function. *)
Definition Function_restricted : list string := [ "caller"; "arguments" ].

Definition Object_statics : list string :=
  [ "assign"; "create"; "defineProperties"; "defineProperty"; "entries";
    "freeze"; "fromEntries"; "getOwnPropertyDescriptor";
    "getOwnPropertyDescriptors"; "getOwnPropertyNames";
    "getOwnPropertySymbols"; "getPrototypeOf"; "groupBy"; "hasOwn"; "is";
    "isExtensible"; "isFrozen"; "isSealed"; "keys"; "preventExtensions";
    "seal"; "setPrototypeOf"; "values"; "prototype" ].

(** The built-in methods whose [length] is 0. *)
Definition no_parameter : list string :=
  [ "toString"; "toLocaleString"; "valueOf" ].

(** [host[action]], truthy or not, for the host value found under [k]. *)
Definition host_has (k action : string) : completion bool :=
  if k =? "__proto__" then
    (* [Object.prototype]: its own members; its [__proto__] is [null] *)
    Normal (in_names action Object_prototype && negb (action =? "__proto__"))
  else if in_names action Function_restricted then Thrown TypeError
  else
    Normal (in_names action Object_prototype
            || in_names action Function_prototype
            || (action =? "name")
            || ((action =? "length") && negb (in_names k no_parameter))
            || ((k =? "constructor") && in_names action Object_statics)).

(** [this.now[action]], truthy or not. *)
Definition now_has (w : World) (n : nowref) (action : string) : completion bool :=
  match n with
  | NState l =>
      match state_store w !! l with
      | Some st => Normal (truthy_member (State_get st action))
      | None => Normal false
      end
  | NHost k => host_has k action
  end.

(** [tryTransit({input, action})]: [this.transit(...)] is called and its
    promise dropped; the answer is [true] as soon as the call has returned
    it. *)
Definition Automata_tryTransit (a : nat) (input : value) (action : string)
    (w : World) : completion bool * World :=
  match automata_store w !! a with
  | None => (Thrown TypeError, w)
  | Some au =>
      match a_now au with
      | None => (Thrown TypeError, w)
      | Some n =>
          match now_has w n action with
          | Thrown e => (Thrown e, w)
          | Normal true => (Normal true, transit_call a (createDelta action input) w)
          | Normal false => (Normal false, w)
          end
      end
  end.

(** ** The factory, Appomata *)

(** Modelled from the spec: [assert] comes from the module [./helpers],
    which is not part of the sources at hand.  The specification has
    [createView] fail when a condition it checks does not hold;
    [assert(condition, message)] is modelled as raising the message when the
    condition is false and as doing nothing otherwise. *)
Definition assert (condition : bool) (message : string) : option value :=
  if condition then None else Some (VStr message).

Definition is_undefined (v : value) : bool :=
  match v with
  | VUndef => true
  | _ => false
  end.

(** [createView({name, render, automata})].  The two assertions read
    [names] and [render]; nothing in the program ever adds to [names]. *)
Definition Appomata_createView (name : string) (render : value)
    (automata : option string) (w : World) : completion nat * World :=
  match assert (negb (bool_decide (name ∈ names w)))
               "Given name already assigned to another view" with
  | Some e => (Thrown e, w)
  | None =>
      match assert (negb (is_undefined render)) "No render function is passed" with
      | Some e => (Thrown e, w)
      | None =>
          (Normal (length (view_store w)),
           with_view_store
             (view_store w ++
                [mkView name [] []
                        (match automata with
                         | Some s => if s =? "" then None else Some s
                         | None => None
                         end)
                        render]) w)
      end
  end.

(** [createState({name, local = {}, actions = {}})]. *)
Definition Appomata_createState (name : string) (local : value)
    (actions : JSObj handler) (w : World) : completion nat * World :=
  match State_new name local actions [] with
  | Normal st =>
      (Normal (length (state_store w)),
       with_state_store (state_store w ++ [st]) w)
  | Thrown e => (Thrown e, w)
  end.

(** The two actions of the built-in ["failed"] state.  Both end in a call
    [omega(...)]; no declaration named [omega] is in scope of the factory
    (the name is only a parameter of [View.render] and a local of
    [Automata.transit]), so evaluating the callee raises a
    [ReferenceError] before any argument is looked at.

    [failed: async (delta) => {
       let {input, buffer} = delta;
       buffer.failedOutput = {message: input.message, from: input.from}
       return omega("failed", buffer.failedOutput) }] *)
Definition failed_action : handler := fun x =>
  match x with
  | ADelta d =>
      match prop (ld_input d) "message", prop (ld_input d) "from" with
      | Some m, Some f =>
          mkHresult (Reject ReferenceError)
            (set_field "failedOutput" (VObj [("message", m); ("from", f)])
                       (ld_buffer d))
            (ld_context d)
      | _, _ => mkHresult (Reject TypeError) (ld_buffer d) (ld_context d)
      end
  | AValue v =>
      mkHresult
        (match prop v "input", prop v "buffer" with
         | Some (VObj _ | VWrapper | VBool _ | VNum _ | VStr _),
           Some (VObj _ | VWrapper) => Reject ReferenceError
         | _, _ => Reject TypeError
         end) [] []
  end.

(** [back: async (delta) => {
       let {buffer} = delta;
       return omega(buffer.failedOutput.from, {}) }] *)
Definition back_action : handler := fun x =>
  match x with
  | ADelta d => mkHresult (Reject ReferenceError) (ld_buffer d) (ld_context d)
  | AValue v =>
      mkHresult (match prop v "buffer" with
                 | Some _ => Reject ReferenceError
                 | None => Reject TypeError
                 end) [] []
  end.

(** [new State({name: "failed", actions: {failed: ..., back: ...}})], the
    state [createAutomata] builds for every automaton. *)
Definition failed_state : completion State :=
  State_new "failed" (VObj [])
    [("failed", failed_action); ("back", back_action)] [].

(** [createAutomata({name, states = [], context = {}, buffer = {}})]. *)
Definition Appomata_createAutomata (name : string) (sts : list nat)
    (context buffer : obj) (w : World) : completion nat * World :=
  match Automata_new name sts context buffer w with
  | Thrown e => (Thrown e, w)
  | Normal (a, w1) =>
      let w2 := with_allTomata (obj_set name a (allTomata w1)) w1 in
      let w3 := with_connectedApps (obj_set name [] (connectedApps w2)) w2 in
      let w4 := Automata_on a "afterTransition" (LApps name) w3 in
      match failed_state with
      | Thrown e => (Thrown e, w4)
      | Normal st =>
          let s := length (state_store w4) in
          (Normal a,
           Automata_addState a s
             (with_state_store (state_store w4 ++ [st]) w4))
      end
  end.

(** [connect({app, automatas})], one name of the list:
    [if (allTomata[f]) { connectedApps[f].add(app); app.ugly = ...;
    app.ugly.automata[f] = allTomata[f] }]. *)
Definition connect_one (app : nat) (f : string) (w : World) : completion World :=
  match obj_get (allTomata w) f with
  | Missing => Normal w
  | Inherited _ => Thrown TypeError
  | Own a =>
      match obj_get (connectedApps w) f, app_store w !! app with
      | Own apps, Some ap =>
          let w1 := with_connectedApps
                      (obj_set f (set_add app apps) (connectedApps w)) w in
          Normal (with_app_store
                    (<[app := mkApp (app_name ap) (app_onTransition ap)
                                (Some (obj_set f a
                                         (match app_ugly ap with
                                          | Some t => t
                                          | None => []
                                          end)))]> (app_store w1)) w1)
      | _, _ => Thrown TypeError
      end
  end.

Fixpoint Appomata_connect (app : nat) (automatas : list string) (w : World)
  : completion unit * World :=
  match automatas with
  | [] => (Normal tt, w)
  | f :: r =>
      match connect_one app f w with
      | Normal w' => Appomata_connect app r w'
      | Thrown e => (Thrown e, w)
      end
  end.

(** ** class View *)

(** The string [View.transit] throws. *)
Definition no_transition (automata : option string) (action : string) : value :=
  VStr ("for given automata (" +:+
        (match automata with Some s => s | None => "undefined" end) +:+
        "), action (" +:+ action +:+ ") there is no any defined transition").

(** [targetAutomata.forEach(a => { if (a) { transited = a.tryTransit({...}) } })]. *)
Fixpoint ask_all (targets : list (lookup nat)) (input : value)
    (action : string) (transited : bool) (w : World) : completion bool * World :=
  match targets with
  | [] => (Normal transited, w)
  | Missing :: r => ask_all r input action transited w
  | Inherited _ :: r => (Thrown TypeError, w)
  | Own a :: r =>
      match Automata_tryTransit a input action w with
      | (Thrown e, w') => (Thrown e, w')
      | (Normal b, w') => ask_all r input action b w'
      end
  end.

(** [transit({input, action, name = "", automata = ""})] of a view. *)
Definition View_transit (v : nat) (input : value) (action : string)
    (automata : string) (w : World) : completion unit * World :=
  match view_store w !! v with
  | None => (Thrown TypeError, w)
  | Some vw =>
      (* automata = automata || this.automata *)
      let automata' := if automata =? "" then v_automata vw else Some automata in
      let targetAutomata :=
        match automata' with
        | Some s => if s =? "" then map Own (obj_values (allTomata w))
                    else [obj_get (allTomata w) s]
        | None => map Own (obj_values (allTomata w))
        end in
      match ask_all targetAutomata input action false w with
      | (Thrown e, w') => (Thrown e, w')
      | (Normal true, w') => (Normal tt, w')
      | (Normal false, w') => (Thrown (no_transition automata' action), w')
      end
  end.

(** ** class App, as far as the engine is concerned *)

(** [new App(name)]. *)
Definition App_new (name : string) (w : World) : nat * World :=
  (length (app_store w), with_app_store (app_store w ++ [mkApp name true None]) w).

(** [this.on = appEventBus.on; this.off = appEventBus.on]. *)
Definition App_on (app : nat) (ev : string) (id : string) (w : World) : World :=
  with_appEventBus (EventBus_on ev id (appEventBus w)) w.

Definition App_off : nat -> string -> string -> World -> World := App_on.

(** * Vocabulary of the properties *)

(** ** What an operation leaves alone *)

(** [quiet w w']: the two worlds differ in the trace at most, and the trace
    only grew. *)
Definition quiet (w w' : World) : Prop :=
  allTomata w' = allTomata w /\ connectedApps w' = connectedApps w /\
  names w' = names w /\ states w' = states w /\
  automataEventBus w' = automataEventBus w /\ appEventBus w' = appEventBus w /\
  state_store w' = state_store w /\ view_store w' = view_store w /\
  automata_store w' = automata_store w /\ app_store w' = app_store w /\
  trace w `prefix_of` trace w'.

(** [frame w w']: the registries, the buses, the views and the apps are the
    same, and so are the automata's names; states, the rest of the automata
    and the trace may have moved on. *)
Definition frame (w w' : World) : Prop :=
  allTomata w' = allTomata w /\ connectedApps w' = connectedApps w /\
  names w' = names w /\ states w' = states w /\
  automataEventBus w' = automataEventBus w /\ appEventBus w' = appEventBus w /\
  view_store w' = view_store w /\ app_store w' = app_store w /\
  trace w `prefix_of` trace w' /\
  a_name <$> automata_store w' = a_name <$> automata_store w.

(** The world a [try] block leaves, however it ended. *)
Definition tried_world (t : tried) : World :=
  match t with
  | Passed _ w | Caught _ _ w => w
  end.

(** The world a call of [transit] leaves when it returns its promise. *)
Definition started_world (s : started) : World :=
  match s with
  | Settled _ w | Suspended _ w => w
  end.

(** ** The calls a program can make *)

(** The entry points of the engine, as data, so that "whatever the program
    does" can be said: a program is a list of calls.  [c_transit] is a
    transition that is awaited with nothing in between; [c_tryTransit] and
    [c_view_transit] leave the transitions they begin suspended, and
    [c_resume] is the event loop taking one of them up. *)
Inductive call : Type :=
| c_createView (name : string) (render : value) (automata : option string)
| c_createState (name : string) (local : value) (actions : JSObj handler)
| c_createAutomata (name : string) (sts : list nat) (context buffer : obj)
| c_connect (app : nat) (automatas : list string)
| c_init (a : nat) (initState : string)
| c_addState (a s : nat)
| c_transit (a : nat) (delta : Delta)
| c_tryTransit (a : nat) (input : value) (action : string)
| c_view_transit (v : nat) (input : value) (action automata : string)
| c_resume (k : nat)
| c_on (a : nat) (ev : string) (l : listener)
| c_off (a : nat) (ev : string) (l : listener)
| c_App (name : string)
| c_app_on (app : nat) (ev id : string)
| c_app_off (app : nat) (ev id : string).

Definition perform (w : World) (c : call) : World :=
  match c with
  | c_createView name render automata =>
      snd (Appomata_createView name render automata w)
  | c_createState name local actions =>
      snd (Appomata_createState name local actions w)
  | c_createAutomata name sts context buffer =>
      snd (Appomata_createAutomata name sts context buffer w)
  | c_connect app automatas => snd (Appomata_connect app automatas w)
  | c_init a initState =>
      match Automata_init a initState w with
      | Normal w' => w'
      | Thrown _ => w
      end
  | c_addState a s => Automata_addState a s w
  | c_transit a delta => snd (Automata_transit a delta w)
  | c_tryTransit a input action => snd (Automata_tryTransit a input action w)
  | c_view_transit v input action automata =>
      snd (View_transit v input action automata w)
  | c_resume k => resume k w
  | c_on a ev l => Automata_on a ev l w
  | c_off a ev l => Automata_off a ev l w
  | c_App name => snd (App_new name w)
  | c_app_on app ev id => App_on app ev id w
  | c_app_off app ev id => App_off app ev id w
  end.

Definition run (w : World) (program : list call) : World :=
  fold_left perform program w.

(** The worlds a program can bring about, starting from the module's
    initial closures. *)
Inductive reachable : World -> Prop :=
| reachable_new : reachable World_new
| reachable_perform w c : reachable w -> reachable (perform w c).

(** [steady w w']: [names] is as it was and every subscription is still
    there, in its place. *)
Definition steady (w w' : World) : Prop :=
  names w' = names w /\
  automataEventBus w `prefix_of` automataEventBus w' /\
  appEventBus w `prefix_of` appEventBus w'.

(** ** Scenarios *)

(** A handler [async delta => Appomata.createOmega(next, {})]. *)
Definition goes_to (next : string) : handler := fun x =>
  match x with
  | ADelta d =>
      mkHresult (Resolve (omega_literal (VStr next) (VObj [])))
                (ld_buffer d) (ld_context d)
  | AValue _ => mkHresult (Resolve (omega_literal (VStr next) (VObj []))) [] []
  end.

(** A handler [async delta => { throw message }]. *)
Definition raises (message : string) : handler := fun x =>
  match x with
  | ADelta d => mkHresult (Reject (VStr message)) (ld_buffer d) (ld_context d)
  | AValue _ => mkHresult (Reject (VStr message)) [] []
  end.

(** The automaton "login" of the specification's scenario: states [idle],
    [authenticating] and [authenticated], started in [idle].  In the store
    the automaton is object 0; the built-in failed state is state 0, the
    three others are states 1, 2 and 3. *)
Definition login : World :=
  run World_new
    [ c_createAutomata "login" [] [] [];
      c_createState "idle" (VObj []) [("submit", goes_to "authenticating")];
      c_createState "authenticating" (VObj [])
        [("verify", raises "network error");
         ("accept", goes_to "authenticated");
         ("wander", goes_to "nowhere")];
      c_createState "authenticated" (VObj []) [("logout", goes_to "idle")];
      c_addState 0 1; c_addState 0 2; c_addState 0 3;
      c_init 0 "idle" ].

(** ... after [transit({action: "submit", input: {user: "a"}})]. *)
Definition login_authenticating : World :=
  perform login (c_transit 0 (createDelta "submit" (VObj [("user", VStr "a")]))).

(** ... after the handler of [verify] has thrown "network error". *)
Definition login_failed : World :=
  perform login_authenticating (c_transit 0 (createDelta "verify" VUndef)).

(** [this.now] of an automaton, and the name of a state of the store. *)
Definition now_of (w : World) (a : nat) : option nowref :=
  match automata_store w !! a with
  | Some au => a_now au
  | None => None
  end.

Definition name_of (w : World) (s : nat) : option value :=
  State_name <$> state_store w !! s.

Definition buffer_of (w : World) (a : nat) : obj :=
  match automata_store w !! a with
  | Some au => a_buffer au
  | None => []
  end.

(** ** One transition, statement by statement *)

(** For an automaton [au] whose current state is [st]: the delta once
    [delta.from] is filled in, the loaded delta, the outcome of the state's
    [transit], the world after [beforeTransition] was emitted, and the world
    when the transit_awaited promise has settled. *)
Definition transit_stamped (st : State) (delta : Delta) : Delta :=
  mkDelta (d_action delta) (d_input delta) (State_name st).

Definition transit_loaded (au : Automata) (st : State) (delta : Delta) : LoadedDelta :=
  mkLoaded (d_action delta) (d_input delta) (State_name st)
           (a_context au) (a_buffer au).

Definition transit_settled (au : Automata) (st : State) (delta : Delta) : tresult :=
  State_transit st (transit_loaded au st delta).

Definition transit_begun (w : World) (au : Automata) (st : State) (delta : Delta) : World :=
  emit "beforeTransition" (PDelta (transit_loaded au st delta)) w.

Definition transit_awaited (w : World) (a l : nat) (au : Automata) (st : State)
    (delta : Delta) : World :=
  set_buffers a (t_buffer (transit_settled au st delta)) (t_context (transit_settled au st delta))
    (set_state l (t_state (transit_settled au st delta)) (transit_begun w au st delta)).

(** The value [await this.now.transit(loadedDelta)] yields when
    [transit(delta)] is called on automaton [a] in world [w], if the promise
    resolves. *)
Definition awaited_omega (w : World) (a : nat) (delta : Delta) : option value :=
  match automata_store w !! a with
  | None => None
  | Some au =>
      match a_now au with
      | None => None
      | Some n =>
          let d := mkLoaded (d_action delta) (d_input delta) (now_name w n)
                            (a_context au) (a_buffer au) in
          match now_transit (emit "beforeTransition" (PDelta d) w) n d with
          | Some (_, r) =>
              match t_out r with
              | Resolve omega => Some omega
              | Reject _ | Throw _ => None
              end
          | None => None
          end
      end
  end.

(** [states.failed], as the [catch] block stores it in [this.now]. *)
Definition failed_entry (w : World) : option nowref :=
  match obj_get (states w) "failed" with
  | Own f => Some (NState f)
  | Inherited _ | Missing => None
  end.

(** ** Two automata, one app, one view *)

(** Two automata made by the factory, "A" (object 0) and "B" (object 1).
    State 0 is the built-in failed state, registered by the first
    [createAutomata]; state 1 is the one the second [createAutomata] built
    and found the name taken for.  "A" has the states [a_idle] (2) and
    [a_out] (3), "B" the states [b_idle] (4), [b_busy] (5) and [b_out] (6).
    One app (object 0) is connected to "A" only; one view (object 0) is
    bound to no automaton. *)
Definition two_automata : World :=
  run World_new
    [ c_createAutomata "A" [] [] [];
      c_createAutomata "B" [] [] [];
      c_createState "a_idle" (VObj []) [("logout", goes_to "a_out");
                                        ("quit", goes_to "a_out")];
      c_createState "a_out" (VObj []) [];
      c_createState "b_idle" (VObj []) [("work", goes_to "b_busy");
                                        ("logout", goes_to "b_out")];
      c_createState "b_busy" (VObj []) [("rest", goes_to "b_idle")];
      c_createState "b_out" (VObj []) [];
      c_addState 0 2; c_addState 0 3;
      c_addState 1 4; c_addState 1 5; c_addState 1 6;
      c_init 0 "a_idle"; c_init 1 "b_idle";
      c_App "shell";
      c_connect 0 ["A"];
      c_createView "menu" VWrapper None ].

(** ** View.transit, read as a broadcast *)

(** Does automaton [a] take the action, [this.now[action]] being truthy? *)
Definition accepts (w : World) (a : nat) (action : string) : bool :=
  match now_of w a with
  | Some n =>
      match now_has w n action with
      | Normal b => b
      | Thrown _ => false
      end
  | None => false
  end.

(** The automata of a list that take the action, in the order of the
    list. *)
Definition acceptors (w : World) (targets : list nat) (action : string)
  : list nat :=
  List.filter (fun a => accepts w a action) targets.

(** An automaton that is in a State object which has kept the [transit] of
    its class. *)
Definition attentive (w : World) (a : nat) : Prop :=
  exists l st, now_of w a = Some (NState l) /\
               state_store w !! l = Some st /\
               own (st_actions st) "transit" = None.

(** The call [transit({action, input})] of automaton [a] has begun and is
    suspended in [w]. *)
Definition has_begun (w : World) (a : nat) (action : string) (input : value) : Prop :=
  exists p, In p (suspended w) /\ p_automaton p = a /\
            d_action (p_delta p) = action /\ d_input (p_delta p) = input.

(** ** Two states of one name *)

(** An automaton (object 0, with the built-in failed state 0) and two State
    objects that are both named "idle" (states 1 and 2). *)
Definition two_idles : World :=
  run World_new
    [ c_createAutomata "login" [] [] [];
      c_createState "idle" (VObj []) [("submit", goes_to "authenticating")];
      c_createState "idle" (VObj []) [] ].

(** ** Results of the scenarios, evaluated *)

(** [login.transit({action: "submit"})], from the start. *)
Definition login_submit : promise Omega * World :=
  Eval vm_compute in Automata_transit 0 (createDelta "submit" VUndef) login.

(** [B.transit({action: "work"})] in the world of the two automata. *)
Definition two_automata_work : promise Omega * World :=
  Eval vm_compute in Automata_transit 1 (createDelta "work" VUndef) two_automata.

(** * More of the engine *)

(** ** What a transition is seen to do *)

(** The settled promise of [await this.now.transit(loadedDelta)] when
    [transit(delta)] is called on automaton [a] in world [w], with what the
    handlers did to the state, the buffer and the context. *)
Definition awaited_result (w : World) (a : nat) (delta : Delta) : option tresult :=
  match automata_store w !! a with
  | None => None
  | Some au =>
      match a_now au with
      | None => None
      | Some n =>
          let d := mkLoaded (d_action delta) (d_input delta) (now_name w n)
                            (a_context au) (a_buffer au) in
          snd <$> now_transit (emit "beforeTransition" (PDelta d) w) n d
      end
  end.

(** The events that stem from subscribers being called, as opposed to the
    engine's own emissions and calls of [cleanUp]. *)
Definition callback (e : event) : bool :=
  match e with
  | Called _ _ _ | OnTransition _ _ | Emitted app_bus _ _ => true
  | Emitted automata_bus _ _ | CleanedUp _ => false
  end.

(** The two emissions that close a transition. *)
Definition completion_event (e : event) : bool :=
  match e with
  | Emitted automata_bus ev _ =>
      (ev =? "dataTransition") || (ev =? "afterTransition")
  | _ => false
  end.

(** [adds P w w']: the world [w'] has the trace of [w] followed by events
    that all satisfy [P]. *)
Definition adds (P : event -> bool) (w w' : World) : Prop :=
  exists t, trace w' = trace w ++ t /\ forallb P t = true.

(** Everything but the two closing emissions. *)
Definition not_completion (e : event) : bool := negb (completion_event e).

(** The registries of the factory and of the class [Automata], and the
    names of the automata, are in [w'] what they are in [w]. *)
Definition registries (w w' : World) : Prop :=
  allTomata w' = allTomata w /\ connectedApps w' = connectedApps w /\
  names w' = names w /\ states w' = states w /\
  automataEventBus w' = automataEventBus w /\ appEventBus w' = appEventBus w /\
  a_name <$> automata_store w' = a_name <$> automata_store w.

(** ** A second automaton *)

(** The world after [createAutomata({name: "A"})]. *)
Definition one_automaton : World :=
  run World_new [c_createAutomata "A" [] [] []].

(** [createAutomata({name: "B"})] in that world. *)
Definition second_automaton : completion nat * World :=
  Eval vm_compute in Appomata_createAutomata "B" [] [] [] one_automaton.

(** A state "lobby" that was created and not registered (state 1). *)
Definition with_lobby : World :=
  run World_new
    [ c_createAutomata "A" [] [] [];
      c_createState "lobby" (VObj []) [("enter", goes_to "lobby")] ].

(** The automaton a view's [transit] addresses: the [automata] argument, or
    the view's own [automata] when the argument is empty. *)
Definition addressed (vw : View) (automata : string) : option string :=
  if automata =? "" then v_automata vw else Some automata.

(** ** Where an automaton can be *)

(** The State object [l] is filed in the shared table [states]. *)
Definition registered (w : World) (l : nat) : Prop :=
  exists k, own (states w) k = Some l.

(** [moves w w']: the table [states] is the same, and an automaton that is
    in a state in [w'] was in it in [w] already or has moved to a
    registered one. *)
Definition moves (w w' : World) : Prop :=
  states w' = states w /\
  forall b l, now_of w' b = Some (NState l) ->
              now_of w b = Some (NState l) \/ registered w l.

(** [advances w w']: as [moves], with a table that may have new entries. *)
Definition advances (w w' : World) : Prop :=
  (forall l, registered w l -> registered w' l) /\
  forall b l, now_of w' b = Some (NState l) ->
              now_of w b = Some (NState l) \/ registered w' l.

(** Every automaton that is in a state is in a registered one. *)
Definition current_registered (w : World) : Prop :=
  forall a l, now_of w a = Some (NState l) -> registered w l.

(** ** Attaching views to states *)

(** [Set.prototype.add] for the set [view.automatas] of automaton names. *)
Definition names_add (x : string) (s : list string) : list string :=
  if existsb (String.eqb x) s then s else s ++ [x].

(** The same for the set [view.states], to which a state adds its name. *)
Definition values_add (x : string) (s : list value) : list value :=
  if existsb (fun v => match v with VStr y => y =? x | _ => false end) s
  then s else s ++ [VStr x].

(** A state whose [name], [views] and [addView] are the ones the class
    gives it: none of its actions has taken one of these three names. *)
Definition plain (st : State) : bool :=
  match own (st_actions st) "name", own (st_actions st) "views",
        own (st_actions st) "addView" with
  | None, None, None => true
  | _, _, _ => false
  end.

(** [addView(view)] of the state [l]:
    [if (!this.views[view.name]) { view.states.add(this.name);
    this.views[view.name] = view }].  The result is [None] for a state that
    is not [plain]: what such a state does with a view (it calls an action
    with it, or reads and writes properties of a function) is outside this
    model. *)
Definition State_addView (l v : nat) (w : World) : option (completion World) :=
  match state_store w !! l, view_store w !! v with
  | Some st, Some vw =>
      if plain st then
        match obj_get (st_views st) (v_name vw) with
        | Missing =>
            let w1 := with_view_store
                        (<[v := mkView (v_name vw)
                                       (values_add (st_name st) (v_states vw))
                                       (v_automatas vw) (v_automata vw)
                                       (v_render vw)]> (view_store w)) w in
            Some (Normal
                    (set_state l
                       (mkState (st_name st) (st_local st)
                                (obj_set (v_name vw) v (st_views st))
                                (st_automata st) (st_actions st)) w1))
        | Own _ | Inherited _ => Some (Normal w)
        end
      else None
  | _, _ => Some (Thrown TypeError)
  end.

(** The loop of [Automata.addView],
    [forEach(s => { view.automatas.add(this.name); states[s].addView(view) })]. *)
Fixpoint attach (name : string) (v : nat) (keys : list string) (w : World)
  : option (completion unit * World) :=
  match keys with
  | [] => Some (Normal tt, w)
  | s :: r =>
      match view_store w !! v with
      | None => Some (Thrown TypeError, w)
      | Some vw =>
          let w1 := with_view_store
                      (<[v := mkView (v_name vw) (v_states vw)
                                     (names_add name (v_automatas vw))
                                     (v_automata vw) (v_render vw)]>
                         (view_store w)) w in
          match obj_get (states w1) s with
          | Own l =>
              match State_addView l v w1 with
              | Some (Normal w2) => attach name v r w2
              | Some (Thrown e) => Some (Thrown e, w1)
              | None => None
              end
          | Inherited _ | Missing => Some (Thrown TypeError, w1)
          end
      end
  end.

(** [addView(view, state = "")] of the automaton [a]:
    [let attachedStates = state ? [state] : Object.keys(states)], then the
    loop over [attachedStates.filter(s => states[s])]. *)
Definition Automata_addView (a v : nat) (state : string) (w : World)
  : option (completion unit * World) :=
  match automata_store w !! a with
  | None => Some (Thrown TypeError, w)
  | Some au =>
      let attachedStates :=
        if state =? "" then obj_keys (states w) else [state] in
      attach (a_name au) v
             (List.filter (fun s => found (obj_get (states w) s)) attachedStates)
             w
  end.

(** The State object [l] has something under the view name [n] in its
    [views]. *)
Definition has_view (w : World) (l : nat) (n : string) : Prop :=
  exists st, state_store w !! l = Some st /\
             found (obj_get (st_views st) n) = true.

(** What [addState] makes of a view of the state it registers. *)
Definition rebind (name : string) (vw : View) : View :=
  mkView (v_name vw) (v_states vw) (v_automatas vw) (Some name) (v_render vw).

(** An automaton "A" (object 0), a view "menu" (object 0) created for an
    automaton "B", and a State object (1) built with [new State] that holds
    the view and is not registered yet. *)
Definition with_menu : World :=
  let w := run World_new [ c_createAutomata "A" [] [] [];
                           c_createView "menu" VWrapper (Some "B") ] in
  with_state_store
    (state_store w ++ [mkState "lobby" (VObj []) [("menu", 0)] None []]) w.

(** An automaton "A" (object 0) with a registered state "lobby" (1) besides
    the failed state (0), and a view "menu" (object 0). *)
Definition lobby_and_menu : World :=
  run World_new
    [ c_createAutomata "A" [] [] [];
      c_createState "lobby" (VObj []) [("enter", goes_to "lobby")];
      c_addState 0 1;
      c_createView "menu" VWrapper None ].

(** [attachable w v n]: the view [v] exists and is named [n], and every
    entry of [states] is a [plain] State object of the store. *)
Definition attachable (w : World) (v : nat) (n : string) : Prop :=
  (exists vw, view_store w !! v = Some vw /\ v_name vw = n) /\
  forall k l, own (states w) k = Some l ->
              exists st, state_store w !! l = Some st /\ plain st = true.

(** [keeps_views n w w']: the table [states] is the same, every State
    object is still there with the actions it had, and one that had a view
    under the name [n] still has one. *)
Definition keeps_views (n : string) (w w' : World) : Prop :=
  states w' = states w /\
  forall l st, state_store w !! l = Some st ->
               exists st', state_store w' !! l = Some st' /\
                           st_actions st' = st_actions st /\
                           (found (obj_get (st_views st) n) = true ->
                            found (obj_get (st_views st') n) = true).

(** ** class App: the state paths of layouts and components *)

(** [s.split(c)] for a separator of one character. *)
Fixpoint split_on (c : ascii) (s : string) : list string :=
  match s with
  | EmptyString => [""]
  | String x r =>
      if Ascii.eqb x c then "" :: split_on c r
      else match split_on c r with
           | h :: t => String x h :: t
           | [] => [String x ""]
           end
  end.

(** [m.split('.')[0]] and [m.split('.')[1]]; the second is [undefined]
    when [m] has no dot. *)
Definition entry_of (m : string) : string * option string :=
  let parts := split_on "." m in
  (hd "" parts, nth_error parts 1).

(** The object [s] of [_extractStatePath]: arrays of actions under
    automaton names. *)
Definition paths : Type := JSObj (list (option string)).

(** One round of the loop:
    [s[automata] = s[automata] || []; s[automata].push(action)].  Under a
    name that [s] inherits from [Object.prototype] the value found has no
    [push]. *)
Definition path_entry (s : paths) (m : string) : completion paths :=
  let (automata, action) := entry_of m in
  match obj_get s automata with
  | Own l => Normal (obj_set automata (l ++ [action]) s)
  | Missing => Normal (obj_set automata [action] s)
  | Inherited _ => Thrown TypeError
  end.

Fixpoint path_entries (s : paths) (ms : list string) : completion paths :=
  match ms with
  | [] => Normal s
  | m :: r =>
      match path_entry s m with
      | Normal s' => path_entries s' r
      | Thrown e => Thrown e
      end
  end.

(** [_extractStatePath(stateMapString)]. *)
Definition App__extractStatePath (stateMapString : string) : completion paths :=
  path_entries [] (split_on "," stateMapString).

(** The variable [s] of [addLayout] and [addComponent]: the empty array it
    starts as, or the object of the last call of [_extractStatePath]. *)
Inductive statePath : Type :=
| EmptyArray
| Paths (s : paths).

(** [automataActionMap.forEach(m => { s = this._extractStatePath(m) })]. *)
Fixpoint last_path (maps : list string) (s : statePath) : completion statePath :=
  match maps with
  | [] => Normal s
  | m :: r =>
      match App__extractStatePath m with
      | Normal t => last_path r (Paths t)
      | Thrown e => Thrown e
      end
  end.

(** [addLayout(layout, automataActionMap = [])], on the table
    [this.layouts], the one field it touches; [name] is [layout.name].  The
    entry is [{layout, statePath: s}]. *)
Definition App_addLayout {C : Type} (name : string) (layout : C)
    (automataActionMap : list string) (layouts : JSObj (C * statePath))
  : completion (JSObj (C * statePath)) :=
  match last_path automataActionMap EmptyArray with
  | Normal s => Normal (obj_set name (layout, s) layouts)
  | Thrown e => Thrown e
  end.

(** [addComponent(component, automataStateMap = [])], on the table
    [this.components]: the same statements. *)
Definition App_addComponent {C : Type} (name : string) (component : C)
    (automataStateMap : list string) (components : JSObj (C * statePath))
  : completion (JSObj (C * statePath)) :=
  match last_path automataStateMap EmptyArray with
  | Normal s => Normal (obj_set name (component, s) components)
  | Thrown e => Thrown e
  end.

(** The actions listed for the automaton [k] among parsed entries, in
    their order. *)
Definition actions_of (k : string) (es : list (string * option string))
  : list (option string) :=
  map snd (List.filter (fun e => fst e =? k) es).

(** The own entries of [s] under names every object inherits. *)
Definition no_inherited_key (s : paths) : Prop :=
  forall k, in_names k Object_prototype = true -> own s k = None.
(** * Properties *)

(** ** Tables *)

Section Tables.
Context {A : Type}.
Implicit Types (o : JSObj A) (k : string) (a : A).

Lemma own_app_fresh o k a : own o k = None -> own (o ++ [(k, a)]) k = Some a.
Proof.
  induction o as [|[k' a'] r IH]; simpl.
  - now rewrite String.eqb_refl.
  - destruct (k' =? k); [discriminate | exact IH].
Qed.

Lemma own_insert_index_fresh n o k a :
  own o k = None -> own (insert_index n k a o) k = Some a.
Proof.
  induction o as [|[k' a'] r IH]; simpl; intros H.
  - now rewrite String.eqb_refl.
  - destruct (k' =? k) eqn:E; [discriminate|].
    destruct (array_index k') as [m|]; [destruct (m <? n)%N|]; simpl;
      rewrite ?E, ?String.eqb_refl; auto.
Qed.

Lemma own_replace_own o k a x : own o k = Some x -> own (replace_own k a o) k = Some a.
Proof.
  induction o as [|[k' a'] r IH]; simpl; [discriminate|].
  destruct (k' =? k) eqn:E; simpl; rewrite E; auto.
Qed.

(** After [o[k] = a] on a table that answered [undefined], [o[k]] is [a]. *)
Lemma obj_get_set_fresh o k a :
  obj_get o k = Missing -> obj_get (obj_set k a o) k = Own a.
Proof.
  unfold obj_get, obj_set. intros H.
  destruct (own o k) eqn:E; [discriminate|].
  destruct (in_names k Object_prototype) eqn:P; [discriminate|].
  destruct (k =? "__proto__") eqn:Q.
  { apply String.eqb_eq in Q. subst k. discriminate. }
  destruct (array_index k).
  - now rewrite own_insert_index_fresh.
  - now rewrite own_app_fresh.
Qed.

Lemma found_own o k a : obj_get o k = Own a -> found (obj_get o k) = true.
Proof. now intros ->. Qed.

Lemma own_remove_own_ne o k k' : k <> k' -> own (remove_own k o) k' = own o k'.
Proof.
  intros Hne. induction o as [|[k0 a0] r IH]; simpl; [reflexivity|].
  destruct (k0 =? k) eqn:E.
  - apply String.eqb_eq in E. subst k0.
    destruct (k =? k') eqn:E'; [apply String.eqb_eq in E'; contradiction | reflexivity].
  - simpl. now rewrite IH.
Qed.
End Tables.

(** ** What an operation leaves alone *)

Lemma quiet_refl w : quiet w w.
Proof. unfold quiet; intuition. Qed.

Lemma quiet_trans w1 w2 w3 : quiet w1 w2 -> quiet w2 w3 -> quiet w1 w3.
Proof.
  unfold quiet. intros (?&?&?&?&?&?&?&?&?&?&?) (?&?&?&?&?&?&?&?&?&?&?).
  repeat split; try congruence. etransitivity; eassumption.
Qed.

Lemma quiet_frame w w' : quiet w w' -> frame w w'.
Proof. unfold quiet, frame. intuition congruence. Qed.

Lemma frame_refl w : frame w w.
Proof. apply quiet_frame, quiet_refl. Qed.

Lemma frame_trans w1 w2 w3 : frame w1 w2 -> frame w2 w3 -> frame w1 w3.
Proof.
  unfold frame. intros (?&?&?&?&?&?&?&?&?&?) (?&?&?&?&?&?&?&?&?&?).
  repeat split; try congruence. etransitivity; eassumption.
Qed.

Lemma quiet_log e w : quiet w (log e w).
Proof. unfold quiet, log; simpl. repeat split. now apply prefix_app_r. Qed.

Lemma quiet_fold {X : Type} (f : World -> X -> World) (l : list X) :
  (forall w x, quiet w (f w x)) -> forall w, quiet w (fold_left f l w).
Proof.
  intros Hf. induction l as [|x l IH]; simpl; intros w.
  - apply quiet_refl.
  - eapply quiet_trans; [apply Hf | apply IH].
Qed.

Lemma quiet_app_emit ev p w : quiet w (app_emit ev p w).
Proof.
  unfold app_emit.
  eapply quiet_trans; [apply quiet_log|].
  generalize (EventBus_listeners ev (appEventBus w)). intros l.
  apply quiet_fold. intros; apply quiet_log.
Qed.

Lemma quiet_App_onTransition app p w : quiet w (App_onTransition app p w).
Proof.
  unfold App_onTransition.
  eapply quiet_trans; [apply quiet_log|].
  eapply quiet_trans; apply quiet_app_emit.
Qed.

Lemma quiet_notify ev p w l : quiet w (notify ev p w l).
Proof.
  destruct l as [name|id]; simpl; [|apply quiet_log].
  destruct (obj_get (connectedApps w) name); try apply quiet_refl.
  apply quiet_fold. intros w0 x.
  destruct (app_store w0 !! x) as [ap|]; [|apply quiet_refl].
  destruct (app_onTransition ap); [apply quiet_App_onTransition | apply quiet_refl].
Qed.

Lemma quiet_emit ev p w : quiet w (emit ev p w).
Proof.
  unfold emit.
  eapply quiet_trans; [apply quiet_log|].
  generalize (EventBus_listeners ev (automataEventBus w)). intros l.
  apply quiet_fold. intros; apply quiet_notify.
Qed.

Lemma frame_set_state s st w : frame w (set_state s st w).
Proof. unfold frame, set_state; simpl. repeat split; reflexivity. Qed.

Lemma frame_set_automaton a au au0 w :
  automata_store w !! a = Some au0 -> a_name au = a_name au0 ->
  frame w (set_automaton a au w).
Proof.
  intros H E. unfold frame, set_automaton; simpl. repeat split; try reflexivity.
  rewrite list_fmap_insert, E. apply list_insert_id.
  now rewrite list_lookup_fmap, H.
Qed.

Lemma frame_set_buffers a b c w : frame w (set_buffers a b c w).
Proof.
  unfold set_buffers. destruct (automata_store w !! a) eqn:E;
    [eapply frame_set_automaton; [exact E | reflexivity] | apply frame_refl].
Qed.

Lemma frame_set_now a n w : frame w (set_now a n w).
Proof.
  unfold set_now. destruct (automata_store w !! a) eqn:E;
    [eapply frame_set_automaton; [exact E | reflexivity] | apply frame_refl].
Qed.

Lemma frame_now_cleanUp w l w' : now_cleanUp w l = Normal w' -> frame w w'.
Proof.
  unfold now_cleanUp. intros H.
  destruct (state_store w !! l) as [st|]; [|discriminate].
  destruct (own (st_actions st) "cleanUp") as [h|].
  - destruct (h_out (h (AValue VUndef))); inversion H; subst;
      apply quiet_frame, quiet_log.
  - inversion H; subst. apply quiet_frame, quiet_log.
Qed.

Lemma frame_transit_try a n d w : frame w (tried_world (transit_try a n d w)).
Proof.
  unfold transit_try.
  destruct (now_transit w n d) as [[l r]|]; [|apply frame_refl].
  set (w1 := set_buffers a (t_buffer r) (t_context r) (set_state l (t_state r) w)).
  assert (F1 : frame w w1).
  { eapply frame_trans; [apply frame_set_state | apply frame_set_buffers]. }
  destruct (t_out r) as [omega|e|e]; simpl; try exact F1.
  destruct (now_cleanUp w1 l) as [w2|e'] eqn:C; simpl; [|exact F1].
  assert (F2 : frame w w2).
  { eapply frame_trans; [exact F1 | eapply frame_now_cleanUp; exact C]. }
  destruct (prop omega "next") as [nx|]; simpl; [|exact F2].
  destruct (to_key nx) as [k|]; simpl; [|exact F2].
  eapply frame_trans; [exact F2 | apply frame_set_now].
Qed.

Lemma frame_transit_catch a n d w w' : transit_catch a n d w = Normal w' -> frame w w'.
Proof.
  unfold transit_catch. intros H.
  destruct n as [l|k]; [|discriminate].
  destruct (state_store w !! l) as [st|]; [|discriminate].
  destruct (match own (st_actions st) "transit" with
            | Some h => h_out (h (AValue (VStr "failed")))
            | None => Resolve VUndef
            end); try discriminate;
    (destruct (now_cleanUp w l) as [w2|e'] eqn:C; [|discriminate];
     inversion H; subst;
     eapply frame_trans; [eapply frame_now_cleanUp; exact C | apply frame_set_now]).
Qed.

Lemma frame_transit_finish a d0 d omega w :
  frame w (snd (transit_finish a d0 d omega w)).
Proof.
  unfold transit_finish.
  destruct (automata_store w !! a) as [au|]; [|apply frame_refl].
  destruct (a_now au) as [[l|k]|]; try apply frame_refl.
  destruct (state_store w !! l) as [st|]; [|apply frame_refl].
  destruct omega; try apply frame_refl;
    match goal with
    | |- context [match ?x with Some _ => _ | None => _ end] =>
        destruct x; simpl; try apply frame_refl
    end;
    apply quiet_frame; (eapply quiet_trans; apply quiet_emit).
Qed.

Lemma frame_Automata_transit a delta w : frame w (snd (Automata_transit a delta w)).
Proof.
  unfold Automata_transit.
  destruct (automata_store w !! a) as [au|]; [|apply frame_refl].
  destruct (a_now au) as [n|]; [|apply frame_refl].
  match goal with |- context [transit_try a n ?d ?w1] =>
    pose proof (frame_transit_try a n d w1) as FT;
    pose proof (quiet_frame _ _ (quiet_emit "beforeTransition" (PDelta d) w)) as FB;
    destruct (transit_try a n d w1) as [omega w2|omega e w2] eqn:T
  end; simpl in FT.
  - eapply frame_trans; [eapply frame_trans; [exact FB | exact FT]|].
    apply frame_transit_finish.
  - match goal with |- context [transit_catch a n ?d ?w3] =>
      pose proof (frame_transit_catch a n d w3) as FC;
      assert (F3 : frame w w3) by
        (eapply frame_trans; [eapply frame_trans; [exact FB | exact FT]|];
         apply quiet_frame, quiet_emit);
      destruct (transit_catch a n d w3) as [w4|e'] eqn:C
    end; simpl.
    + eapply frame_trans; [eapply frame_trans; [exact F3 | now apply FC]|].
      apply frame_transit_finish.
    + exact F3.
Qed.

Lemma frame_transit_try_rest a out w :
  frame w (tried_world (transit_try_rest a out w)).
Proof.
  unfold transit_try_rest.
  destruct out as [omega|e|e]; simpl; try apply frame_refl.
  destruct (automata_store w !! a) as [au|]; [|apply frame_refl].
  destruct (a_now au) as [[l|k]|]; try apply frame_refl.
  destruct (now_cleanUp w l) as [w2|e'] eqn:C; simpl; [|apply frame_refl].
  assert (F2 : frame w w2) by (eapply frame_now_cleanUp; exact C).
  destruct (prop omega "next") as [nx|]; simpl; [|exact F2].
  destruct (to_key nx) as [k|]; simpl; [|exact F2].
  eapply frame_trans; [exact F2 | apply frame_set_now].
Qed.

Lemma frame_transit_rest a d0 d t :
  frame (tried_world t) (snd (transit_rest a d0 d t)).
Proof.
  destruct t as [omega w2|omega e w2]; simpl.
  - apply frame_transit_finish.
  - set (w3 := emit "failedTransition" _ w2).
    assert (F3 : frame w2 w3) by apply quiet_frame, quiet_emit.
    destruct (automata_store w3 !! a) as [au|]; [|exact F3].
    destruct (a_now au) as [n|]; [|exact F3].
    destruct (transit_catch a n d w3) as [w4|e'] eqn:C; simpl; [|exact F3].
    eapply frame_trans; [exact F3|].
    eapply frame_trans; [eapply frame_transit_catch; exact C|].
    apply frame_transit_finish.
Qed.

Lemma frame_transit_resume p w : frame w (snd (transit_resume p w)).
Proof.
  unfold transit_resume.
  eapply frame_trans; [apply frame_transit_try_rest | apply frame_transit_rest].
Qed.

Lemma frame_with_suspended x w : frame w (with_suspended x w).
Proof. unfold frame; simpl. repeat split; reflexivity. Qed.

Lemma frame_transit_begin a delta w :
  frame w (started_world (transit_begin a delta w)).
Proof.
  unfold transit_begin.
  destruct (automata_store w !! a) as [au|]; [|apply frame_refl].
  destruct (a_now au) as [n|]; [|apply frame_refl].
  cbv zeta. cbn [d_action d_input d_from].
  set (d0 := mkDelta _ _ _). set (d := mkLoaded _ _ _ _ _).
  set (w1 := emit "beforeTransition" (PDelta d) w).
  assert (F1 : frame w w1) by apply quiet_frame, quiet_emit.
  destruct (now_transit w1 n d) as [[l r]|]; simpl.
  - set (w2 := set_buffers a _ _ _).
    assert (F2 : frame w w2).
    { eapply frame_trans; [exact F1|].
      eapply frame_trans; [apply frame_set_state | apply frame_set_buffers]. }
    destruct (t_out r) as [omega|e|e]; simpl; try exact F2.
    eapply frame_trans; [exact F2|].
    apply (frame_transit_rest a d0 d (Caught VUndef e w2)).
  - eapply frame_trans; [exact F1|].
    apply (frame_transit_rest a d0 d (Caught VUndef TypeError w1)).
Qed.

Lemma frame_transit_call a delta w : frame w (transit_call a delta w).
Proof.
  unfold transit_call. pose proof (frame_transit_begin a delta w) as F.
  destruct (transit_begin a delta w) as [r w'|p w']; simpl in F; [exact F|].
  eapply frame_trans; [exact F | apply frame_with_suspended].
Qed.

Lemma frame_resume k w : frame w (resume k w).
Proof.
  unfold resume. destruct (suspended w !! k) as [p|]; [|apply frame_refl].
  eapply frame_trans; [apply frame_with_suspended | apply frame_transit_resume].
Qed.

Lemma frame_Automata_tryTransit a input action w :
  frame w (snd (Automata_tryTransit a input action w)).
Proof.
  unfold Automata_tryTransit.
  destruct (automata_store w !! a) as [au|]; [|apply frame_refl].
  destruct (a_now au) as [n|]; [|apply frame_refl].
  destruct (now_has w n action) as [[|]|e]; simpl;
    [apply frame_transit_call | apply frame_refl | apply frame_refl].
Qed.

Lemma frame_ask_all targets input action : forall transited w,
  frame w (snd (ask_all targets input action transited w)).
Proof.
  induction targets as [|t r IH]; simpl; intros transited w; [apply frame_refl|].
  destruct t as [a|k|]; simpl; [|apply frame_refl|apply IH].
  pose proof (frame_Automata_tryTransit a input action w) as F.
  destruct (Automata_tryTransit a input action w) as [[b|e] w']; simpl in *.
  - eapply frame_trans; [exact F | apply IH].
  - exact F.
Qed.

Lemma frame_View_transit v input action automata w :
  frame w (snd (View_transit v input action automata w)).
Proof.
  unfold View_transit.
  destruct (view_store w !! v) as [vw|]; [|apply frame_refl].
  match goal with |- context [ask_all ?t input action false w] =>
    pose proof (frame_ask_all t input action false w) as F;
    destruct (ask_all t input action false w) as [[[|]|e] w']
  end; exact F.
Qed.

(** ** Names and subscriptions stay *)

Lemma steady_refl w : steady w w.
Proof. unfold steady; repeat split; reflexivity. Qed.

Lemma steady_trans w1 w2 w3 : steady w1 w2 -> steady w2 w3 -> steady w1 w3.
Proof.
  unfold steady. intros (?&?&?) (?&?&?).
  repeat split; [congruence | etransitivity; eassumption ..].
Qed.

Lemma frame_steady w w' : frame w w' -> steady w w'.
Proof.
  unfold frame, steady. intros (?&?&Hn&?&Ha&Hb&?). rewrite Hn, Ha, Hb.
  repeat split; reflexivity.
Qed.

Lemma steady_bind_views name vs : forall w,
  steady w (fold_left (bind_view name) vs w) /\
  states (fold_left (bind_view name) vs w) = states w /\
  state_store (fold_left (bind_view name) vs w) = state_store w /\
  automata_store (fold_left (bind_view name) vs w) = automata_store w.
Proof.
  induction vs as [|v vs IH]; simpl; intros w.
  - split; [apply steady_refl | auto].
  - destruct (IH (bind_view name w v)) as (S & E1 & E2 & E3).
    assert (Q : steady w (bind_view name w v) /\
                states (bind_view name w v) = states w /\
                state_store (bind_view name w v) = state_store w /\
                automata_store (bind_view name w v) = automata_store w).
    { unfold bind_view. destruct (view_store w !! v);
        (split; [unfold steady; simpl; repeat split; reflexivity | auto]). }
    destruct Q as (S' & E1' & E2' & E3').
    split; [eapply steady_trans; eassumption|].
    repeat split; congruence.
Qed.

Lemma steady_addState a s w : steady w (Automata_addState a s w).
Proof.
  unfold Automata_addState.
  destruct (automata_store w !! a) as [au|]; [|apply steady_refl].
  destruct (state_store w !! s) as [st|]; [|apply steady_refl].
  destruct (found _); [apply steady_refl|].
  match goal with |- steady w (with_states _ (fold_left _ ?vs ?w1)) =>
    destruct (steady_bind_views (a_name au) vs w1) as (S & _);
    eapply steady_trans; [|eapply steady_trans; [exact S|]]
  end.
  - apply frame_steady, frame_set_state.
  - unfold steady; simpl. repeat split; reflexivity.
Qed.

Lemma steady_connect app automatas : forall w,
  steady w (snd (Appomata_connect app automatas w)).
Proof.
  induction automatas as [|f r IH]; simpl; intros w; [apply steady_refl|].
  destruct (connect_one app f w) as [w'|e] eqn:C; simpl; [|apply steady_refl].
  eapply steady_trans; [|apply IH].
  unfold connect_one in C.
  destruct (obj_get (allTomata w) f); try discriminate.
  - destruct (obj_get (connectedApps w) f); try discriminate.
    destruct (app_store w !! app); [|discriminate].
    inversion C; subst. unfold steady; simpl. repeat split; reflexivity.
  - inversion C; subst. apply steady_refl.
Qed.

Lemma steady_createAutomata name sts context buffer w :
  steady w (snd (Appomata_createAutomata name sts context buffer w)).
Proof.
  unfold Appomata_createAutomata, Automata_new.
  destruct (forallb _ sts); simpl; [|apply steady_refl].
  eapply steady_trans; [|apply steady_addState].
  unfold steady; simpl. repeat split; try reflexivity.
  now apply prefix_app_r.
Qed.

(** No call takes a name into [names] or a subscriber off a bus. *)
Lemma steady_perform w c : steady w (perform w c).
Proof.
  destruct c; simpl.
  - unfold Appomata_createView.
    destruct (assert _ _); [apply steady_refl|].
    destruct (assert _ _); [apply steady_refl|].
    unfold steady; simpl; repeat split; reflexivity.
  - unfold Appomata_createState.
    destruct (State_new _ _ _ _); [|apply steady_refl].
    unfold steady; simpl; repeat split; reflexivity.
  - apply steady_createAutomata.
  - apply steady_connect.
  - unfold Automata_init.
    destruct (automata_store w !! a) eqn:E; [|apply steady_refl].
    destruct (state_at w initState); [|apply steady_refl].
    apply frame_steady. eapply frame_set_automaton; [exact E | reflexivity].
  - apply steady_addState.
  - apply frame_steady, frame_Automata_transit.
  - apply frame_steady, frame_Automata_tryTransit.
  - apply frame_steady, frame_View_transit.
  - apply frame_steady, frame_resume.
  - unfold steady; simpl; repeat split; try reflexivity. now apply prefix_app_r.
  - unfold steady; simpl; repeat split; try reflexivity. now apply prefix_app_r.
  - unfold steady; simpl; repeat split; reflexivity.
  - unfold steady; simpl; repeat split; try reflexivity. now apply prefix_app_r.
  - unfold steady; simpl; repeat split; try reflexivity. now apply prefix_app_r.
Qed.

Lemma steady_run program : forall w, steady w (run w program).
Proof.
  unfold run. induction program as [|c r IH]; simpl; intros w.
  - apply steady_refl.
  - eapply steady_trans; [apply steady_perform | apply IH].
Qed.

Lemma reachable_names w : reachable w -> names w = ∅.
Proof.
  induction 1 as [|w c _ IH]; [reflexivity|].
  destruct (steady_perform w c) as (E & _). now rewrite E.
Qed.

Lemma EventBus_listeners_app {L : Type} (ev : string) (b b' : EventBus L) :
  EventBus_listeners ev (b ++ b') = EventBus_listeners ev b ++ EventBus_listeners ev b'.
Proof.
  induction b as [|[ev' l] r IH]; simpl; [reflexivity|].
  destruct (ev' =? ev); simpl; now rewrite IH.
Qed.

Lemma EventBus_listeners_prefix {L : Type} (ev : string) (b b' : EventBus L) :
  b `prefix_of` b' -> EventBus_listeners ev b `prefix_of` EventBus_listeners ev b'.
Proof.
  intros [t ->]. rewrite EventBus_listeners_app. now apply prefix_app_r.
Qed.

(** ** addState *)

Lemma State_key_of_name st1 st2 :
  State_name st1 = State_name st2 -> State_key st1 = State_key st2.
Proof.
  unfold State_name, State_key.
  destruct (own (st_actions st1) "name"), (own (st_actions st2) "name");
    intros H; try discriminate; [reflexivity | now inversion H].
Qed.

Lemma State_key_bound st name :
  State_key (mkState (st_name st) (st_local st) (st_views st) (Some name)
                     (remove_own "automata" (st_actions st))) = State_key st.
Proof.
  unfold State_key; simpl. now rewrite own_remove_own_ne.
Qed.

(** What [addState] does when the name is free: the world it leaves. *)
Lemma addState_fresh a s w au st :
  automata_store w !! a = Some au ->
  state_store w !! s = Some st ->
  obj_get (states w) (State_key st) = Missing ->
  let w1 := Automata_addState a s w in
  obj_get (states w1) (State_key st) = Own s /\
  automata_store w1 = automata_store w /\
  state_store w1 =
    <[s := mkState (st_name st) (st_local st) (st_views st) (Some (a_name au))
                   (remove_own "automata" (st_actions st))]> (state_store w).
Proof.
  intros Ha Hs Hm. unfold Automata_addState. rewrite Ha, Hs, Hm. simpl.
  match goal with |- context [fold_left (bind_view ?n) ?vs ?w1] =>
    destruct (steady_bind_views n vs w1) as (_ & E1 & E2 & E3)
  end.
  rewrite E1, E2, E3, State_key_bound. simpl.
  split; [now apply obj_get_set_fresh | split; reflexivity].
Qed.

(** C8.  Registering a state under a name, then registering a state of the
    same name (the same object or another one, through the same automaton
    or another one): the second call changes nothing at all, and the object
    found under the name is the one the first call left there -- the state
    of the first call when the name was free, the earlier holder when it was
    taken. *)
Theorem addState_idempotent (w : World) (a b s1 s2 : nat) (au : Automata)
    (st1 st2 : State) :
  automata_store w !! a = Some au ->
  state_store w !! s1 = Some st1 ->
  state_store w !! s2 = Some st2 ->
  State_name st1 = State_name st2 ->
  let w1 := Automata_addState a s1 w in
  Automata_addState b s2 w1 = w1 /\
  (obj_get (states w) (State_key st1) = Missing ->
   obj_get (states w1) (State_key st1) = Own s1) /\
  (forall s0, obj_get (states w) (State_key st1) = Own s0 ->
              obj_get (states w1) (State_key st1) = Own s0).
Proof.
  intros Ha H1 H2 Hn. apply State_key_of_name in Hn.
  destruct (obj_get (states w) (State_key st1)) as [s0|k|] eqn:G.
  - (* the name is taken *)
    assert (E : Automata_addState a s1 w = w).
    { unfold Automata_addState. now rewrite Ha, H1, G. }
    simpl. rewrite E. repeat split; [|discriminate|intros ? [= <-]; exact G].
    unfold Automata_addState. rewrite H2, <- Hn, G.
    now destruct (automata_store w !! b).
  - (* the name is that of an inherited member *)
    assert (E : Automata_addState a s1 w = w).
    { unfold Automata_addState. now rewrite Ha, H1, G. }
    simpl. rewrite E. repeat split; try discriminate.
    unfold Automata_addState. rewrite H2, <- Hn, G.
    now destruct (automata_store w !! b).
  - (* the name is free *)
    destruct (addState_fresh a s1 w au st1 Ha H1 G) as (G1 & EA & ES).
    simpl. repeat split; [|intros _; exact G1|discriminate].
    set (w1 := Automata_addState a s1 w) in *.
    unfold Automata_addState at 1.
    destruct (automata_store w1 !! b) as [bu|]; [|reflexivity].
    rewrite ES.
    destruct (decide (s1 = s2)) as [<-|Hne].
    + rewrite list_lookup_insert_eq by (eapply lookup_lt_Some; exact H1).
      now rewrite State_key_bound, G1.
    + rewrite list_lookup_insert_ne by exact Hne.
      now rewrite H2, <- Hn, G1.
Qed.

Lemma addState_idempotent_witness :
  let w1 := Automata_addState 0 1 two_idles in
  Automata_addState 0 2 w1 = w1 /\ obj_get (states w1) "idle" = Own 1.
Proof.
  destruct (addState_idempotent two_idles 0 0 1 2
              (mkAutomata "login" [] [] None None)
              (mkState "idle" (VObj []) [] None
                       [("submit", goes_to "authenticating")])
              (mkState "idle" (VObj []) [] None [])
              eq_refl eq_refl eq_refl eq_refl) as (E & G & _).
  split; [exact E | exact (G eq_refl)].
Defined.

(** ** createView *)

Lemma createView_names name render automata w :
  names (snd (Appomata_createView name render automata w)) = names w.
Proof. now destruct (steady_perform w (c_createView name render automata)). Qed.

(** In every world a program can bring about, [createView] accepts every
    name, as long as a render function comes with it. *)
Lemma createView_accepts_any_name w name render automata :
  reachable w -> render <> VUndef ->
  fst (Appomata_createView name render automata w) = Normal (length (view_store w)).
Proof.
  intros R Hr. unfold Appomata_createView.
  rewrite (reachable_names w R).
  case_bool_decide as E; [set_solver|]. simpl.
  destruct render; simpl; try reflexivity. contradiction.
Qed.

Lemma createView_requires_render w name automata :
  exists e, Appomata_createView name VUndef automata w = (Thrown e, w).
Proof.
  unfold Appomata_createView.
  destruct (assert _ _) as [e|]; [now exists e|].
  simpl. eauto.
Qed.

(** C5.  [createView] called twice with the name "header" and a render
    function: both calls return a View, the second is not refused, and
    [names] is still empty afterwards (the set is read by the assertion and
    never written).  Without a render function the call is refused. *)
Theorem createView_twice_same_name :
  let r1 := Appomata_createView "header" VWrapper None World_new in
  let r2 := Appomata_createView "header" VWrapper None (snd r1) in
  fst r1 = Normal 0 /\ fst r2 = Normal 1 /\
  v_name <$> view_store (snd r2) !! 0 = Some "header" /\
  v_name <$> view_store (snd r2) !! 1 = Some "header" /\
  names (snd r2) = ∅ /\
  fst (Appomata_createView "footer" VUndef None (snd r2))
  = Thrown (VStr "No render function is passed").
Proof. vm_compute. repeat split. Qed.

(** ** State.transit *)




(** ** Reading the store after a step *)

Lemma quiet_now_of w w' a : quiet w w' -> now_of w' a = now_of w a.
Proof. unfold quiet, now_of. intros (_&_&_&_&_&_&_&_&E&_). now rewrite E. Qed.

Lemma quiet_buffer_of w w' a : quiet w w' -> buffer_of w' a = buffer_of w a.
Proof. unfold quiet, buffer_of. intros (_&_&_&_&_&_&_&_&E&_). now rewrite E. Qed.

Lemma quiet_automata_store w w' : quiet w w' -> automata_store w' = automata_store w.
Proof. unfold quiet. now intros (_&_&_&_&_&_&_&_&E&_). Qed.

Lemma quiet_state_store w w' : quiet w w' -> state_store w' = state_store w.
Proof. unfold quiet. now intros (_&_&_&_&_&_&E&_). Qed.

Lemma quiet_states w w' : quiet w w' -> states w' = states w.
Proof. unfold quiet. now intros (_&_&_&E&_). Qed.

Lemma quiet_trace w w' e : quiet w w' -> In e (trace w) -> In e (trace w').
Proof.
  unfold quiet. intros (_&_&_&_&_&_&_&_&_&_&[t ->]) H.
  apply in_or_app. now left.
Qed.

Lemma frame_states w w' : frame w w' -> states w' = states w.
Proof. unfold frame. now intros (_&_&_&E&_). Qed.

Lemma frame_trace w w' e : frame w w' -> In e (trace w) -> In e (trace w').
Proof.
  unfold frame. intros (_&_&_&_&_&_&_&_&[t ->]&_) H.
  apply in_or_app. now left.
Qed.

Lemma now_of_set_now w a au n :
  automata_store w !! a = Some au -> now_of (set_now a n w) a = n.
Proof.
  intros H. unfold now_of, set_now, set_automaton. rewrite H. simpl.
  rewrite list_lookup_insert_eq by (eapply lookup_lt_Some; exact H).
  reflexivity.
Qed.

Lemma buffer_of_set_now w a n : buffer_of (set_now a n w) a = buffer_of w a.
Proof.
  unfold buffer_of, set_now, set_automaton.
  destruct (automata_store w !! a) as [au|] eqn:H; simpl; [|now rewrite H].
  rewrite list_lookup_insert_eq by (eapply lookup_lt_Some; exact H).
  reflexivity.
Qed.

Lemma state_store_set_now w a n : state_store (set_now a n w) = state_store w.
Proof. unfold set_now. now destruct (automata_store w !! a). Qed.

Lemma trace_set_now w a n : trace (set_now a n w) = trace w.
Proof. unfold set_now. now destruct (automata_store w !! a). Qed.

Lemma lookup_set_buffers w a au b c :
  automata_store w !! a = Some au ->
  automata_store (set_buffers a b c w) !! a
  = Some (mkAutomata (a_name au) b c (a_now au) (a_initialState au)).
Proof.
  intros H. unfold set_buffers, set_automaton. rewrite H. simpl.
  now rewrite list_lookup_insert_eq by (eapply lookup_lt_Some; exact H).
Qed.

Lemma state_store_set_buffers w a b c :
  state_store (set_buffers a b c w) = state_store w.
Proof. unfold set_buffers. now destruct (automata_store w !! a). Qed.

Lemma trace_set_buffers w a b c : trace (set_buffers a b c w) = trace w.
Proof. unfold set_buffers. now destruct (automata_store w !! a). Qed.

Lemma lookup_set_state w s st st0 :
  state_store w !! s = Some st0 -> state_store (set_state s st w) !! s = Some st.
Proof.
  intros H. unfold set_state; simpl.
  now rewrite list_lookup_insert_eq by (eapply lookup_lt_Some; exact H).
Qed.

Lemma quiet_transit_finish a d0 d omega w :
  quiet w (snd (transit_finish a d0 d omega w)).
Proof.
  unfold transit_finish.
  destruct (automata_store w !! a) as [au|]; [|apply quiet_refl].
  destruct (a_now au) as [[l|k]|]; try apply quiet_refl.
  destruct (state_store w !! l) as [st|]; [|apply quiet_refl].
  destruct omega; try apply quiet_refl;
    match goal with
    | |- context [match ?x with Some _ => _ | None => _ end] =>
        destruct x; simpl; try apply quiet_refl
    end;
    (eapply quiet_trans; apply quiet_emit).
Qed.

(** ** What a state's transit does to the state itself *)

Lemma own_obj_set_ne {A : Type} (o : JSObj A) (k k' : string) (a : A) :
  k <> k' -> own (obj_set k a o) k' = own o k'.
Proof.
  intros Hne. unfold obj_set.
  destruct (k =? "__proto__"); [reflexivity|].
  assert (Hk : (k =? k') = false) by now apply String.eqb_neq.
  destruct (own o k) eqn:E.
  - clear E. induction o as [|[k0 x0] r IH]; simpl; [reflexivity|].
    destruct (k0 =? k) eqn:E0; simpl.
    + apply String.eqb_eq in E0. subst k0. now rewrite Hk.
    + now rewrite IH.
  - destruct (array_index k) as [n|].
    + clear E. induction o as [|[k0 x0] r IH]; simpl; [now rewrite Hk|].
      destruct (array_index k0) as [m|]; [destruct (m <? n)%N|]; simpl;
        rewrite ?Hk, ?IH; reflexivity.
    + clear E. induction o as [|[k0 x0] r IH]; simpl; [now rewrite Hk|].
      now rewrite IH.
Qed.

Lemma call_failed_state st d : t_state (call_failed st d) = st.
Proof. unfold call_failed. now destruct (own (st_actions st) "failed"). Qed.

Lemma call_member_actions st m d k :
  k <> "undefined" ->
  own (st_actions (t_state (call_member st m d))) k = own (st_actions st) k.
Proof.
  intros Hk. destruct m as [h|v|vs|[]|k0|]; simpl; try reflexivity.
  - now destruct (own (State_views st) "undefined").
  - apply own_obj_set_ne. congruence.
Qed.

(** A state's [transit] leaves every property of the state as it was,
    except possibly the one named "undefined". *)
Lemma State_transit_actions st d k :
  k <> "undefined" ->
  own (st_actions (t_state (State_transit st d))) k = own (st_actions st) k.
Proof.
  intros Hk. unfold State_transit.
  destruct (truthy_member _); [|now rewrite call_failed_state].
  pose proof (call_member_actions st (State_get st (ld_action d)) d k Hk) as E.
  destruct (t_out (call_member st (State_get st (ld_action d)) d)) as [v|e|e];
    simpl; try exact E.
  destruct (truthy v); [exact E | now rewrite call_failed_state].
Qed.

(** ** One transition, statement by statement *)

Section Transition.
(** An automaton [a] whose current state [l] has the class's own
    [transit] and [cleanUp] (no action of these names), and a delta. *)
Variables (w : World) (a l : nat) (au : Automata) (st : State) (delta : Delta).
Hypothesis Ha : automata_store w !! a = Some au.
Hypothesis Hnow : a_now au = Some (NState l).
Hypothesis Hst : state_store w !! l = Some st.
Hypothesis Htransit : own (st_actions st) "transit" = None.
Hypothesis HcleanUp : own (st_actions st) "cleanUp" = None.

Local Abbreviation stamped := (transit_stamped st delta).
Local Abbreviation loaded := (transit_loaded au st delta).
Local Abbreviation settled := (transit_settled au st delta).
Local Abbreviation begun := (transit_begun w au st delta).
Local Abbreviation awaited := (transit_awaited w a l au st delta).

Lemma Automata_transit_unfold :
  Automata_transit a delta w =
  match transit_try a (NState l) loaded begun with
  | Passed omega w2 => transit_finish a stamped loaded omega w2
  | Caught omega e w2 =>
      let w3 := emit "failedTransition" (PDelta (reload a loaded w2)) w2 in
      match transit_catch a (NState l) loaded w3 with
      | Thrown e' => (Rejected e', w3)
      | Normal w4 => transit_finish a stamped loaded omega w4
      end
  end.
Proof.
  unfold Automata_transit. rewrite Ha, Hnow. simpl now_name. rewrite Hst.
  reflexivity.
Qed.

Lemma begun_quiet : quiet w begun.
Proof. apply quiet_emit. Qed.

Lemma awaited_automaton :
  automata_store awaited !! a
  = Some (mkAutomata (a_name au) (t_buffer settled) (t_context settled)
                     (Some (NState l)) (a_initialState au)).
Proof.
  unfold transit_awaited.
  erewrite lookup_set_buffers; [now rewrite Hnow|].
  simpl. rewrite (quiet_automata_store _ _ begun_quiet). exact Ha.
Qed.

Lemma awaited_state : state_store awaited !! l = Some (t_state settled).
Proof.
  unfold transit_awaited. rewrite state_store_set_buffers.
  eapply lookup_set_state.
  rewrite (quiet_state_store _ _ begun_quiet). exact Hst.
Qed.

Lemma awaited_frame : frame w awaited.
Proof.
  eapply frame_trans; [apply quiet_frame, begun_quiet|].
  eapply frame_trans; [apply frame_set_state | apply frame_set_buffers].
Qed.

Lemma awaited_cleanUp :
  now_cleanUp awaited l = Normal (log (CleanedUp l) awaited).
Proof.
  unfold now_cleanUp. rewrite awaited_state.
  unfold transit_settled. rewrite State_transit_actions by discriminate.
  now rewrite HcleanUp.
Qed.

Lemma now_transit_begun :
  now_transit begun (NState l) loaded = Some (l, settled).
Proof.
  unfold now_transit.
  rewrite (quiet_state_store _ _ begun_quiet), Hst, Htransit. reflexivity.
Qed.

(** The handler resolved and its omega has a [next] that can be a key: the
    [try] block goes through. *)
Lemma transit_try_resolved omega nx k :
  t_out settled = Resolve omega ->
  prop omega "next" = Some nx ->
  to_key nx = Some k ->
  transit_try a (NState l) loaded begun
  = Passed omega (set_now a (next_state w k) (log (CleanedUp l) awaited)).
Proof.
  intros Ho Hn Hk. unfold transit_try.
  rewrite now_transit_begun. cbv beta iota zeta.
  change (set_buffers a (t_buffer settled) (t_context settled)
            (set_state l (t_state settled) begun)) with awaited.
  rewrite Ho, awaited_cleanUp, Hn, Hk.
  do 2 f_equal. unfold next_state, state_at. simpl.
  now rewrite (frame_states _ _ awaited_frame).
Qed.

(** The handler raised: the [try] block is left with [omega] unassigned. *)
Lemma transit_try_rejected e :
  t_out settled = Reject e ->
  transit_try a (NState l) loaded begun = Caught VUndef e awaited.
Proof.
  intros Ho. unfold transit_try.
  rewrite now_transit_begun. cbv beta iota zeta.
  change (set_buffers a (t_buffer settled) (t_context settled)
            (set_state l (t_state settled) begun)) with awaited.
  now rewrite Ho.
Qed.

Lemma settled_not_thrown e : t_out settled <> Throw e.
Proof.
  unfold transit_settled, State_transit, call_failed.
  destruct (truthy_member _).
  - destruct (t_out (call_member _ _ _)) as [v| |] eqn:E; simpl; try discriminate.
    destruct (truthy v).
    + simpl in E. rewrite E. discriminate.
    + destruct (own _ "failed") as [h|]; simpl; [|discriminate].
      destruct (h_out _); discriminate.
  - destruct (own _ "failed") as [h|]; simpl; [|discriminate].
    destruct (h_out _); discriminate.
Qed.
(** With [omega] still unassigned, [omega.views = ...] raises. *)
Lemma transit_finish_unassigned a0 d0 d w0 :
  transit_finish a0 d0 d VUndef w0 = (Rejected TypeError, w0).
Proof.
  unfold transit_finish.
  destruct (automata_store w0 !! a0) as [au0|]; [|reflexivity].
  destruct (a_now au0) as [[l0|k]|]; try reflexivity.
  now destruct (state_store w0 !! l0).
Qed.

(** The [catch] block, for a state that has the class's [transit] and
    [cleanUp]. *)
Lemma transit_catch_plain a0 l0 d w0 st0 :
  state_store w0 !! l0 = Some st0 ->
  own (st_actions st0) "transit" = None ->
  own (st_actions st0) "cleanUp" = None ->
  transit_catch a0 (NState l0) d w0
  = Normal (set_now a0 (match obj_get (states w0) "failed" with
                        | Own f => Some (NState f)
                        | Inherited _ | Missing => None
                        end) (log (CleanedUp l0) w0)).
Proof.
  intros H1 H2 H3. unfold transit_catch, now_cleanUp. now rewrite H1, H2, H3.
Qed.

(** The handler raised: the whole of [transit]. *)
Lemma Automata_transit_rejected e :
  t_out settled = Reject e ->
  Automata_transit a delta w
  = (Rejected TypeError,
     set_now a (match obj_get (states w) "failed" with
                | Own f => Some (NState f)
                | Inherited _ | Missing => None
                end)
       (log (CleanedUp l)
          (emit "failedTransition"
             (PDelta (relocate loaded (t_buffer settled) (t_context settled)))
             awaited))).
Proof.
  intros Ho. rewrite Automata_transit_unfold, (transit_try_rejected e Ho).
  cbv zeta. unfold reload. rewrite awaited_automaton. cbn [a_buffer a_context].
  set (w3 := emit _ _ awaited).
  assert (Q : quiet awaited w3) by apply quiet_emit.
  rewrite (transit_catch_plain a l loaded w3 (t_state settled)).
  - rewrite transit_finish_unassigned. do 3 f_equal.
    simpl. rewrite (quiet_states _ _ Q). now rewrite (frame_states _ _ awaited_frame).
  - rewrite (quiet_state_store _ _ Q). apply awaited_state.
  - unfold transit_settled. rewrite State_transit_actions by discriminate.
    exact Htransit.
  - unfold transit_settled. rewrite State_transit_actions by discriminate.
    exact HcleanUp.
Qed.
End Transition.

(** ** How a transition can end *)

Lemma transit_finish_resolved a d0 d omega w om w' :
  transit_finish a d0 d omega w = (Resolved om, w') ->
  exists au l st,
    automata_store w !! a = Some au /\ a_now au = Some (NState l) /\
    state_store w !! l = Some st /\
    prop omega "next" = Some (o_next om) /\
    w' = emit "afterTransition" (PTransition (a_name au) d0 om)
           (emit "dataTransition" (PTransition (a_name au) d0 om) w).
Proof.
  unfold transit_finish. intros H.
  destruct (automata_store w !! a) as [au|] eqn:E1; [|discriminate].
  destruct (a_now au) as [[l|k]|] eqn:E2; try discriminate.
  destruct (state_store w !! l) as [st|] eqn:E3; [|discriminate].
  exists au, l, st. repeat split; try assumption;
    destruct omega; try discriminate;
    match type of H with
    | context [match ?x with Some _ => _ | None => _ end] =>
        destruct x; [|discriminate]
    end; inversion H; subst; reflexivity.
Qed.

Lemma transit_try_passed a n d w omega w' :
  transit_try a n d w = Passed omega w' ->
  exists l r nx k w2,
    now_transit w n d = Some (l, r) /\ t_out r = Resolve omega /\
    prop omega "next" = Some nx /\ to_key nx = Some k /\
    frame w w2 /\ In (CleanedUp l) (trace w2) /\
    w' = set_now a (next_state w2 k) w2.
Proof.
  unfold transit_try. intros H.
  destruct (now_transit w n d) as [[l r]|] eqn:T; [|discriminate].
  destruct (t_out r) as [v|e|e] eqn:O; try discriminate.
  set (w1 := set_buffers _ _ _ _) in H.
  assert (F1 : frame w w1).
  { eapply frame_trans; [apply frame_set_state | apply frame_set_buffers]. }
  destruct (now_cleanUp w1 l) as [w2|e] eqn:C; [|discriminate].
  destruct (prop v "next") as [nx|] eqn:P; [|discriminate].
  destruct (to_key nx) as [k|] eqn:K; [|discriminate].
  inversion H; subst. exists l, r, nx, k, w2.
  assert (F2 : frame w w2).
  { eapply frame_trans; [exact F1 | eapply frame_now_cleanUp; exact C]. }
  assert (I : In (CleanedUp l) (trace w2)).
  { unfold now_cleanUp in C.
    destruct (state_store w1 !! l) as [st|]; [|discriminate].
    destruct (own (st_actions st) "cleanUp") as [h|].
    - destruct (h_out _); inversion C; subst; unfold log; simpl;
        apply in_or_app; right; now left.
    - inversion C; subst. unfold log; simpl. apply in_or_app; right; now left. }
  auto 10.
Qed.

Lemma transit_try_caught a n d w omega e w' :
  transit_try a n d w = Caught omega e w' ->
  omega = VUndef \/
  exists l r, now_transit w n d = Some (l, r) /\ t_out r = Resolve omega.
Proof.
  unfold transit_try. intros H.
  destruct (now_transit w n d) as [[l r]|] eqn:T; [|inversion H; subst; now left].
  destruct (t_out r) as [v|e0|e0] eqn:O; try (inversion H; subst; now left).
  right. exists l, r. split; [reflexivity|].
  destruct (now_cleanUp _ l); [|now inversion H; subst].
  destruct (prop v "next") as [nx|]; [|now inversion H; subst].
  destruct (to_key nx); now inversion H; subst.
Qed.

Lemma transit_catch_normal a n d w w' :
  transit_catch a n d w = Normal w' ->
  exists w2, frame w w2 /\ w' = set_now a (failed_entry w2) w2.
Proof.
  unfold transit_catch. intros H.
  destruct n as [l|k]; [|discriminate].
  destruct (state_store w !! l) as [st|]; [|discriminate].
  destruct (match own (st_actions st) "transit" with
            | Some h => h_out (h (AValue (VStr "failed")))
            | None => Resolve VUndef
            end); try discriminate;
    (destruct (now_cleanUp w l) as [w2|e'] eqn:C; [|discriminate];
     inversion H; subst; exists w2;
     split; [eapply frame_now_cleanUp; exact C | reflexivity]).
Qed.

Lemma now_of_set_now_inv w a n s :
  now_of (set_now a n w) a = Some s -> n = Some s.
Proof.
  unfold now_of at 1. intros H.
  destruct (automata_store w !! a) as [au|] eqn:E.
  - change (now_of (set_now a n w) a = Some s) in H.
    now rewrite (now_of_set_now w a au n E) in H.
  - unfold set_now in H. rewrite E in H. now rewrite E in H.
Qed.

Lemma next_state_registered w k s :
  next_state w k = Some (NState s) ->
  exists k', obj_get (states w) k' = Own s /\ (k' = k \/ k' = "init" \/ k' = "failed").
Proof.
  unfold next_state, state_at. intros H.
  destruct (obj_get (states w) k) as [x|h|] eqn:E1.
  - inversion H; subst. exists k. auto.
  - discriminate.
  - destruct (obj_get (states w) "init") as [x|h|] eqn:E2.
    + inversion H; subst. exists "init". auto.
    + discriminate.
    + destruct (obj_get (states w) "failed") as [x|h|] eqn:E3; try discriminate.
      inversion H; subst. exists "failed". auto.
Qed.

(** ** The state a transition leads to *)

(** A name [Object.prototype] does not define is found as an own entry or
    not at all. *)
Lemma obj_get_own_name {A : Type} (o : JSObj A) (k h : string) :
  obj_get o k = Inherited h -> in_names k Object_prototype = true.
Proof.
  unfold obj_get. destruct (own o k); [discriminate|].
  now destruct (in_names k Object_prototype).
Qed.

(** C3, as amended.  The automaton's current state [l] has the class's own
    [transit] and [cleanUp], and its handler resolves with an omega whose
    [next] reads as the key [k].  Then [cleanUp] is called on [l], and the
    new current state is [states[k]] when [k] is registered; when [k] is
    unknown to the table it is the state registered under the literal name
    "init" if there is one, and [states.failed] otherwise.  The state named
    by [init(...)] plays no part. *)
Theorem transit_next_state (w : World) (a l : nat) (au : Automata) (st : State)
    (delta : Delta) (omega nx : value) (k : string) :
  automata_store w !! a = Some au ->
  a_now au = Some (NState l) ->
  state_store w !! l = Some st ->
  own (st_actions st) "transit" = None ->
  own (st_actions st) "cleanUp" = None ->
  t_out (transit_settled au st delta) = Resolve omega ->
  prop omega "next" = Some nx ->
  to_key nx = Some k ->
  let w' := snd (Automata_transit a delta w) in
  In (CleanedUp l) (trace w') /\
  (forall s, obj_get (states w) k = Own s -> now_of w' a = Some (NState s)) /\
  (obj_get (states w) k = Missing ->
   now_of w' a = match obj_get (states w) "init" with
                 | Own s => Some (NState s)
                 | Inherited _ | Missing => failed_entry w
                 end).
Proof.
  intros Ha Hnow Hst Ht Hc Ho Hn Hk w'.
  assert (E : quiet (set_now a (next_state w k)
                       (log (CleanedUp l) (transit_awaited w a l au st delta))) w').
  { subst w'.
    rewrite (Automata_transit_unfold w a l au st delta Ha Hnow Hst).
    rewrite (transit_try_resolved w a l au st delta Hst Ht Hc omega nx k Ho Hn Hk).
    apply quiet_transit_finish. }
  assert (N : now_of w' a = next_state w k).
  { rewrite (quiet_now_of _ _ a E).
    eapply now_of_set_now. unfold log; simpl.
    apply (awaited_automaton w a l au st delta Ha Hnow). }
  split; [|split].
  - apply (quiet_trace _ _ _ E). rewrite trace_set_now. unfold log; simpl.
    apply in_or_app; right; now left.
  - intros s Hs. rewrite N. unfold next_state, state_at. now rewrite Hs.
  - intros Hm. rewrite N. unfold next_state, state_at, failed_entry. rewrite Hm.
    destruct (obj_get (states w) "init") as [s|h|] eqn:Ei; try reflexivity.
    + now apply obj_get_own_name in Ei.
    + destruct (obj_get (states w) "failed") as [s|h|] eqn:Ef; try reflexivity.
      now apply obj_get_own_name in Ef.
Qed.

Lemma transit_next_state_witness :
  now_of (snd (Automata_transit 0 (createDelta "submit" VUndef) login)) 0
  = Some (NState 2).
Proof.
  refine (proj1 (proj2
    (transit_next_state login 0 1
       (mkAutomata "login" [] [] (Some (NState 1)) (Some "idle"))
       (mkState "idle" (VObj []) [] (Some "login")
                [("submit", goes_to "authenticating")])
       (createDelta "submit" VUndef)
       (omega_literal (VStr "authenticating") (VObj []))
       (VStr "authenticating") "authenticating"
       _ _ _ _ _ _ _ _)) 2 _); reflexivity.
Defined.

(** C3, as stated, fails: the automaton was started with [init("idle")],
    the state "idle" is registered, the handler of [wander] resolves with
    [next = "nowhere"], which names no state -- and the new current state is
    the "failed" state (state 0), not the initial state (state 1). *)
Lemma fallback_is_not_initial_state :
  let w := login_authenticating in
  let r := Automata_transit 0 (createDelta "wander" VUndef) w in
  (a_initialState <$> automata_store w !! 0) = Some (Some "idle") /\
  obj_get (states w) "idle" = Own 1 /\
  (awaited_omega w 0 (createDelta "wander" VUndef) ≫= fun o => prop o "next")
  = Some (VStr "nowhere") /\
  obj_get (states w) "nowhere" = Missing /\
  now_of (snd r) 0 = Some (NState 0) /\
  name_of (snd r) 0 = Some (VStr "failed") /\
  now_of (snd r) 0 <> Some (NState 1).
Proof. vm_compute. repeat split. discriminate. Qed.

(** ** The omega a transition returns *)

(** C6, as amended.  When [transit] resolves, the [next] of the omega it
    returns is the [next] of the omega the state produced, handed on as it
    is, registered or not.  What is registered is the new current state: it
    is an own entry of the [states] table, under the key [next] reads as, or
    under "init", or under "failed". *)
Theorem transit_omega_next (w : World) (a : nat) (delta : Delta) (om : Omega)
    (w' : World) :
  Automata_transit a delta w = (Resolved om, w') ->
  exists omega s k,
    awaited_omega w a delta = Some omega /\
    prop omega "next" = Some (o_next om) /\
    now_of w' a = Some (NState s) /\
    obj_get (states w') k = Own s /\
    (to_key (o_next om) = Some k \/ k = "init" \/ k = "failed").
Proof.
  unfold Automata_transit, awaited_omega. intros H.
  destruct (automata_store w !! a) as [au|] eqn:Ea; [|discriminate].
  destruct (a_now au) as [n|] eqn:En; [|discriminate].
  cbv zeta in *. cbn [d_action d_input d_from] in *.
  set (d := mkLoaded _ _ _ _ _) in *.
  set (d0 := mkDelta _ _ _) in *.
  set (w1 := emit "beforeTransition" (PDelta d) w) in *.
  destruct (transit_try a n d w1) as [omega w2|omega e w2] eqn:T.
  - destruct (transit_try_passed _ _ _ _ _ _ T)
      as (l & r & nx & k & w2' & Tn & To & Pn & Kn & F & _ & ->).
    destruct (transit_finish_resolved _ _ _ _ _ _ _ H)
      as (au' & l' & st' & Ea' & En' & _ & Pn' & ->).
    rewrite Tn, To. rewrite Pn in Pn'. inversion Pn'; subst nx.
    assert (N : now_of (set_now a (next_state w2' k) w2') a = Some (NState l')).
    { unfold now_of. now rewrite Ea', En'. }
    apply now_of_set_now_inv in N.
    destruct (next_state_registered _ _ _ N) as (k' & G & Hk').
    exists omega, l', k'. split; [reflexivity|]. split; [exact Pn|].
    set (p := PTransition _ _ _).
    assert (Q : quiet (set_now a (next_state w2' k) w2')
                      (emit "afterTransition" p (emit "dataTransition" p
                         (set_now a (next_state w2' k) w2')))).
    { eapply quiet_trans; apply quiet_emit. }
    split; [|split].
    + rewrite (quiet_now_of _ _ a Q). unfold now_of. now rewrite Ea', En'.
    + rewrite (quiet_states _ _ Q).
      rewrite (frame_states _ _ (frame_set_now a (next_state w2' k) w2')).
      exact G.
    + destruct Hk' as [->|Hk']; [left; exact Kn | right; exact Hk'].
  - cbv zeta in H.
    set (w3 := emit "failedTransition" _ w2) in H.
    destruct (transit_catch a n d w3) as [w4|e'] eqn:C; [|discriminate].
    destruct (transit_catch_normal _ _ _ _ _ C) as (w4' & F & ->).
    destruct (transit_finish_resolved _ _ _ _ _ _ _ H)
      as (au' & l' & st' & Ea' & En' & _ & Pn' & ->).
    destruct (transit_try_caught _ _ _ _ _ _ _ T) as [->|(l & r & Tn & To)];
      [discriminate|].
    rewrite Tn, To.
    assert (N : now_of (set_now a (failed_entry w4') w4') a = Some (NState l')).
    { unfold now_of. now rewrite Ea', En'. }
    apply now_of_set_now_inv in N.
    exists omega, l', "failed". split; [reflexivity|]. split; [exact Pn'|].
    set (p := PTransition _ _ _).
    assert (Q : quiet (set_now a (failed_entry w4') w4')
                      (emit "afterTransition" p (emit "dataTransition" p
                         (set_now a (failed_entry w4') w4')))).
    { eapply quiet_trans; apply quiet_emit. }
    split; [|split].
    + rewrite (quiet_now_of _ _ a Q). unfold now_of. now rewrite Ea', En'.
    + rewrite (quiet_states _ _ Q).
      rewrite (frame_states _ _ (frame_set_now a (failed_entry w4') w4')).
      unfold failed_entry in N.
      destruct (obj_get (states w4') "failed"); now inversion N.
    + auto.
Qed.

Lemma transit_omega_next_witness :
  Automata_transit 0 (createDelta "submit" VUndef) login = login_submit /\
  exists omega s k,
    awaited_omega login 0 (createDelta "submit" VUndef) = Some omega /\
    prop omega "next" = Some (VStr "authenticating") /\
    now_of (snd login_submit) 0 = Some (NState s) /\
    obj_get (states (snd login_submit)) k = Own s /\
    (to_key (VStr "authenticating") = Some k \/ k = "init" \/ k = "failed").
Proof.
  assert (H : Automata_transit 0 (createDelta "submit" VUndef) login = login_submit)
    by (vm_compute; reflexivity).
  split; [exact H|].
  exact (transit_omega_next login 0 (createDelta "submit" VUndef) _ _ H).
Defined.

(** C6, as stated, fails: the handler of [wander] resolves with
    [next = "nowhere"]; [transit] resolves, and the omega it returns has
    [next = "nowhere"], which is not "failed" and names no registered
    state. *)
Lemma returned_next_unregistered :
  let r := Automata_transit 0 (createDelta "wander" VUndef) login_authenticating in
  (o_next <$> match fst r with Resolved om => Some om | Rejected _ => None end)
  = Some (VStr "nowhere") /\
  obj_get (states (snd r)) "nowhere" = Missing /\
  VStr "nowhere" <> VStr "failed".
Proof. vm_compute. repeat split. discriminate. Qed.

(** ** A handler that raises *)

(** Whenever the current state's [transit] is rejected (the state has the
    class's own [transit] and [cleanUp]): the promise of [Automata.transit]
    is itself rejected, with the [TypeError] of [omega.views = ...] on an
    unassigned [omega]; [failedTransition] was emitted; [this.now] is
    [states.failed]; and the buffer is exactly as the handler left it --
    the engine wrote nothing to it. *)
Lemma transit_handler_raised w a l au st delta e :
  automata_store w !! a = Some au ->
  a_now au = Some (NState l) ->
  state_store w !! l = Some st ->
  own (st_actions st) "transit" = None ->
  own (st_actions st) "cleanUp" = None ->
  t_out (transit_settled au st delta) = Reject e ->
  let r := Automata_transit a delta w in
  fst r = Rejected TypeError /\
  now_of (snd r) a = failed_entry w /\
  buffer_of (snd r) a = t_buffer (transit_settled au st delta) /\
  In (Emitted automata_bus "failedTransition"
        (PDelta (relocate (transit_loaded au st delta)
                          (t_buffer (transit_settled au st delta))
                          (t_context (transit_settled au st delta)))))
     (trace (snd r)).
Proof.
  intros Ha Hnow Hst Ht Hc Ho r. subst r.
  rewrite (Automata_transit_rejected w a l au st delta Ha Hnow Hst Ht Hc e Ho).
  cbn [fst snd].
  pose proof (awaited_automaton w a l au st delta Ha Hnow) as Aw.
  set (p := PDelta _). set (w2 := transit_awaited w a l au st delta) in *.
  assert (Q : quiet w2 (log (CleanedUp l) (emit "failedTransition" p w2))).
  { eapply quiet_trans; [apply quiet_emit | apply quiet_log]. }
  assert (Aw' : automata_store (log (CleanedUp l) (emit "failedTransition" p w2)) !! a
                = Some (mkAutomata (a_name au) (t_buffer (transit_settled au st delta))
                          (t_context (transit_settled au st delta))
                          (Some (NState l)) (a_initialState au))).
  { rewrite (quiet_automata_store _ _ Q). exact Aw. }
  split; [reflexivity|]. split; [|split].
  - now rewrite (now_of_set_now _ _ _ _ Aw').
  - rewrite buffer_of_set_now. unfold buffer_of. now rewrite Aw'.
  - rewrite trace_set_now. apply (quiet_trace _ _ _ (quiet_log _ _)).
    unfold emit.
    match goal with |- In ?e (trace (fold_left ?f ?ls ?w0)) =>
      apply (quiet_trace w0 _ e (quiet_fold f ls (fun w x => quiet_notify _ _ w x) w0))
    end.
    unfold log; simpl. apply in_or_app; right; now left.
Qed.

(** C1.  The automaton "login" is in the state "authenticating" with an
    empty buffer; the handler of [verify] throws "network error".  After
    [transit({action: "verify"})] the current state is the "failed" state
    and [failedTransition] was emitted, but the buffer is still empty: no
    [failedOutput] record was written, neither the message nor the name
    "authenticating" is kept anywhere, and the promise of [transit] is
    rejected with a [TypeError]. *)
Theorem transit_handler_failure_keeps_no_record :
  let w := login_authenticating in
  let r := Automata_transit 0 (createDelta "verify" VUndef) w in
  now_of w 0 = Some (NState 2) /\
  name_of w 2 = Some (VStr "authenticating") /\
  (t_out <$> (snd <$> now_transit w (NState 2)
                        (mkLoaded "verify" VUndef (VStr "authenticating") [] [])))
  = Some (Reject (VStr "network error")) /\
  fst r = Rejected TypeError /\
  now_of (snd r) 0 = Some (NState 0) /\
  name_of (snd r) 0 = Some (VStr "failed") /\
  In (Emitted automata_bus "failedTransition"
        (PDelta (mkLoaded "verify" VUndef (VStr "authenticating") [] [])))
     (trace (snd r)) /\
  buffer_of (snd r) 0 = [] /\
  own (buffer_of (snd r) 0) "failedOutput" = None.
Proof.
  vm_compute. repeat split. auto 20.
Qed.

(** ** The action [back] *)

Lemma back_action_rejects st d :
  own (st_actions st) "back" = Some back_action ->
  ld_action d = "back" ->
  t_out (State_transit st d) = Reject ReferenceError.
Proof.
  intros Hb Hd. unfold State_transit, State_get. rewrite Hd, Hb. reflexivity.
Qed.

(** From a state that carries the built-in [back] action, [back] leads
    nowhere else than to [states.failed], whatever the buffer holds. *)
Lemma back_stays_failed w a l au st delta :
  automata_store w !! a = Some au ->
  a_now au = Some (NState l) ->
  state_store w !! l = Some st ->
  own (st_actions st) "transit" = None ->
  own (st_actions st) "cleanUp" = None ->
  own (st_actions st) "back" = Some back_action ->
  d_action delta = "back" ->
  fst (Automata_transit a delta w) = Rejected TypeError /\
  now_of (snd (Automata_transit a delta w)) a = failed_entry w.
Proof.
  intros Ha Hnow Hst Ht Hc Hb Hd.
  destruct (transit_handler_raised w a l au st delta ReferenceError
              Ha Hnow Hst Ht Hc) as (R & N & _).
  - now apply back_action_rejects.
  - split; assumption.
Qed.

(** C2.  The automaton "login" failed in the state "authenticating" (state
    2) and is in the "failed" state (state 0).  [transit({action: "back"})]
    does not bring it back: the promise is rejected and the current state is
    still the "failed" state. *)
Theorem back_after_failure_stays_failed :
  let r := Automata_transit 0 (createDelta "back" VUndef) login_failed in
  now_of login_authenticating 0 = Some (NState 2) /\
  name_of login_authenticating 2 = Some (VStr "authenticating") /\
  now_of login_failed 0 = Some (NState 0) /\
  fst r = Rejected TypeError /\
  now_of (snd r) 0 = Some (NState 0) /\
  name_of (snd r) 0 = Some (VStr "failed") /\
  now_of (snd r) 0 <> Some (NState 2).
Proof. vm_compute. repeat split. discriminate. Qed.

(** ** on and off *)

(** C10.  [off] is [on], for automata and for apps: a call of
    [off(event, handler)] adds [handler] at the end of the event's
    subscribers; and whatever calls a program makes, the subscribers an
    event had are still subscribed afterwards, in the same order. *)
Theorem off_is_on :
  Automata_off = Automata_on /\
  App_off = App_on /\
  (forall a ev l w,
     EventBus_listeners ev (automataEventBus (Automata_off a ev l w))
     = EventBus_listeners ev (automataEventBus w) ++ [l]) /\
  (forall app ev id w,
     EventBus_listeners ev (appEventBus (App_off app ev id w))
     = EventBus_listeners ev (appEventBus w) ++ [id]) /\
  (forall program w ev,
     EventBus_listeners ev (automataEventBus w)
       `prefix_of` EventBus_listeners ev (automataEventBus (run w program)) /\
     EventBus_listeners ev (appEventBus w)
       `prefix_of` EventBus_listeners ev (appEventBus (run w program))).
Proof.
  split; [reflexivity|]. split; [reflexivity|]. split; [|split].
  - intros a ev l w. unfold Automata_off, Automata_on, EventBus_on. simpl.
    rewrite EventBus_listeners_app. simpl. now rewrite String.eqb_refl.
  - intros app ev id w. unfold App_off, App_on, EventBus_on. simpl.
    rewrite EventBus_listeners_app. simpl. now rewrite String.eqb_refl.
  - intros program w ev. destruct (steady_run program w) as (_ & Ha & Hb).
    split; now apply EventBus_listeners_prefix.
Qed.

(** A subscriber that was "removed" twice is called three times. *)
Lemma off_twice_calls_thrice :
  let w := Automata_off 0 "afterTransition" (LUser "logger")
             (Automata_off 0 "afterTransition" (LUser "logger")
                (Automata_on 0 "afterTransition" (LUser "logger") login)) in
  let r := Automata_transit 0 (createDelta "submit" VUndef) w in
  length (List.filter (fun e => match e with
                                | Called "logger" "afterTransition" _ => true
                                | _ => false
                                end) (trace (snd r))) = 3.
Proof. vm_compute. reflexivity. Qed.

(** ** One bus for all automata *)

Lemma fold_left_reaches {X : Type} (f : World -> X -> World)
    (Pre Good : World -> Prop) (x : X) :
  (forall w y, quiet w (f w y)) ->
  (forall w w', quiet w w' -> Pre w -> Pre w') ->
  (forall w w', quiet w w' -> Good w -> Good w') ->
  (forall w, Pre w -> Good (f w x)) ->
  forall ls w, In x ls -> Pre w -> Good (fold_left f ls w).
Proof.
  intros Hq Hpre Hgood Hstep. induction ls as [|y ls IH]; simpl; intros w Hin Hp.
  - contradiction.
  - destruct Hin as [->|Hin].
    + eapply Hgood; [apply quiet_fold; exact Hq | now apply Hstep].
    + apply IH; [exact Hin|]. eapply Hpre; [apply Hq | exact Hp].
Qed.

(** [emit] calls every subscriber of the event. *)
Lemma emit_calls_user ev p w id :
  In (LUser id) (EventBus_listeners ev (automataEventBus w)) ->
  In (Called id ev p) (trace (emit ev p w)).
Proof.
  intros Hin. unfold emit.
  apply (fold_left_reaches (notify ev p) (fun _ => True)
           (fun w => In (Called id ev p) (trace w)) (LUser id)); auto.
  - intros; apply quiet_notify.
  - intros w1 w2 Q. now apply quiet_trace.
  - intros w1 _. simpl. unfold log; simpl. apply in_or_app; right; now left.
Qed.

(** ... and the closure of [createAutomata] passes the event to every app
    connected under its name. *)
Lemma emit_reaches_app ev p w name apps app ap :
  In (LApps name) (EventBus_listeners ev (automataEventBus w)) ->
  obj_get (connectedApps w) name = Own apps ->
  In app apps ->
  app_store w !! app = Some ap ->
  app_onTransition ap = true ->
  In (OnTransition app p) (trace (emit ev p w)).
Proof.
  intros Hin Hc Ha Hs Ht. unfold emit.
  apply (fold_left_reaches (notify ev p)
           (fun w => obj_get (connectedApps w) name = Own apps /\
                     app_store w !! app = Some ap)
           (fun w => In (OnTransition app p) (trace w)) (LApps name)); auto.
  - intros; apply quiet_notify.
  - intros w1 w2 (_&E1&_&_&_&_&_&_&_&E2&_). now rewrite E1, E2.
  - intros w1 w2 Q. now apply quiet_trace.
  - intros w1 (Hc1 & Hs1). simpl. rewrite Hc1.
    apply (fold_left_reaches
             (fun w0 x => match app_store w0 !! x with
                          | Some a => if app_onTransition a
                                      then App_onTransition x p w0 else w0
                          | None => w0
                          end)
             (fun w => app_store w !! app = Some ap)
             (fun w => In (OnTransition app p) (trace w)) app); auto.
    + intros w0 x. destruct (app_store w0 !! x) as [a0|]; [|apply quiet_refl].
      destruct (app_onTransition a0);
        [apply quiet_App_onTransition | apply quiet_refl].
    + intros w0 w2 (_&_&_&_&_&_&_&_&_&E2&_). now rewrite E2.
    + intros w0 w2 Q. now apply quiet_trace.
    + intros w0 Hs0. rewrite Hs0, Ht. unfold App_onTransition.
      eapply quiet_trace; [eapply quiet_trans; apply quiet_app_emit|].
      unfold log; simpl. apply in_or_app; right; now left.
Qed.

(** A transition that resolves ends with the two emissions, made in a world
    whose buses, registries and apps are those the call started with. *)
Lemma Automata_transit_resolved w a delta om w' :
  Automata_transit a delta w = (Resolved om, w') ->
  exists w0 au d0,
    frame w w0 /\ automata_store w0 !! a = Some au /\
    w' = emit "afterTransition" (PTransition (a_name au) d0 om)
           (emit "dataTransition" (PTransition (a_name au) d0 om) w0).
Proof.
  intros H.
  pose proof (frame_Automata_transit a delta w) as F0.
  unfold Automata_transit in H.
  destruct (automata_store w !! a) as [au|]; [|discriminate].
  destruct (a_now au) as [n|]; [|discriminate].
  cbv zeta in H.
  match type of H with context [transit_try a n ?d ?w1] =>
    pose proof (frame_transit_try a n d w1) as FT;
    pose proof (quiet_frame _ _ (quiet_emit "beforeTransition" (PDelta d) w)) as FB;
    destruct (transit_try a n d w1) as [omega w2|omega e w2] eqn:T
  end; simpl in FT.
  - destruct (transit_finish_resolved _ _ _ _ _ _ _ H) as (au' & l' & st' & E1 & _ & _ & _ & ->).
    exists w2, au'. eexists. split; [|split; [exact E1 | reflexivity]].
    eapply frame_trans; eassumption.
  - match type of H with context [transit_catch a n ?d ?w3] =>
      pose proof (frame_transit_catch a n d w3) as FC;
      assert (F3 : frame w w3) by
        (eapply frame_trans; [eapply frame_trans; [exact FB | exact FT]|];
         apply quiet_frame, quiet_emit);
      destruct (transit_catch a n d w3) as [w4|e'] eqn:C; [|discriminate]
    end.
    destruct (transit_finish_resolved _ _ _ _ _ _ _ H) as (au' & l' & st' & E1 & _ & _ & _ & ->).
    exists w4, au'. eexists. split; [|split; [exact E1 | reflexivity]].
    eapply frame_trans; [exact F3 | now apply FC].
Qed.

Lemma frame_name w w' a au :
  frame w w' -> automata_store w' !! a = Some au ->
  a_name <$> automata_store w !! a = Some (a_name au).
Proof.
  unfold frame. intros (_&_&_&_&_&_&_&_&_&E) H.
  rewrite <- list_lookup_fmap, <- E, list_lookup_fmap, H. reflexivity.
Qed.

(** C9.  The automata share one bus.  (1) A subscriber added through
    [a.on("afterTransition", ...)], for any automaton [a], is called when
    any automaton [b] completes a transition, with [b]'s name in the event.
    (2) The subscription [createAutomata] makes for the automaton named
    [name] passes every automaton's [afterTransition] on to the apps
    connected under [name]: an app connected to that one name has its
    [onTransition] called when any automaton [b] completes a transition. *)
Theorem shared_bus_notifies (w : World) (b : nat) (delta : Delta) :
  (forall a id om w',
     Automata_transit b delta (Automata_on a "afterTransition" (LUser id) w)
     = (Resolved om, w') ->
     exists bname d,
       a_name <$> automata_store w !! b = Some bname /\
       In (Called id "afterTransition" (PTransition bname d om)) (trace w')) /\
  (forall name apps app ap om w',
     In (LApps name) (EventBus_listeners "afterTransition" (automataEventBus w)) ->
     obj_get (connectedApps w) name = Own apps ->
     In app apps ->
     app_store w !! app = Some ap ->
     app_onTransition ap = true ->
     Automata_transit b delta w = (Resolved om, w') ->
     exists bname d,
       a_name <$> automata_store w !! b = Some bname /\
       In (OnTransition app (PTransition bname d om)) (trace w')).
Proof.
  split.
  - intros a id om w' H.
    destruct (Automata_transit_resolved _ _ _ _ _ H) as (w0 & au & d0 & F & E & ->).
    exists (a_name au), d0. split.
    + apply (frame_name _ _ _ _ F E).
    + apply emit_calls_user.
      destruct (quiet_emit "dataTransition" (PTransition (a_name au) d0 om) w0)
        as (_&_&_&_&->&_).
      destruct F as (_&_&_&_&->&_). unfold Automata_on, EventBus_on; simpl.
      rewrite EventBus_listeners_app. apply in_or_app; right. simpl. now left.
  - intros name apps app ap om w' Hin Hc Ha Hs Ht H.
    destruct (Automata_transit_resolved _ _ _ _ _ H) as (w0 & au & d0 & F & E & ->).
    exists (a_name au), d0. split.
    + apply (frame_name _ _ _ _ F E).
    + set (p := PTransition (a_name au) d0 om).
      pose proof (quiet_emit "dataTransition" p w0) as Q.
      destruct Q as (_&Q2&_&_&Q5&_&_&_&_&Q10&_).
      destruct F as (_&F2&_&_&F5&_&_&F8&_).
      eapply emit_reaches_app.
      * rewrite Q5, F5. exact Hin.
      * rewrite Q2, F2. exact Hc.
      * exact Ha.
      * rewrite Q10, F8. exact Hs.
      * exact Ht.
Qed.

Lemma shared_bus_notifies_witness :
  Automata_transit 1 (createDelta "work" VUndef) two_automata = two_automata_work /\
  obj_get (connectedApps two_automata) "A" = Own [0] /\
  obj_get (connectedApps two_automata) "B" = Own [] /\
  exists d om,
    fst two_automata_work = Resolved om /\
    In (OnTransition 0 (PTransition "B" d om)) (trace (snd two_automata_work)).
Proof.
  assert (H : Automata_transit 1 (createDelta "work" VUndef) two_automata
              = two_automata_work) by (vm_compute; reflexivity).
  split; [exact H|].
  split; [vm_compute; reflexivity|]. split; [vm_compute; reflexivity|].
  destruct (proj2 (shared_bus_notifies two_automata 1 (createDelta "work" VUndef))
              "A" [0] 0 (mkApp "shell" true (Some [("A", 0)])) _ _
              ltac:(vm_compute; auto) ltac:(vm_compute; reflexivity)
              ltac:(now left) ltac:(vm_compute; reflexivity) eq_refl H)
    as (bname & d & E & I).
  vm_compute in E. inversion E; subst bname.
  exists d. eexists. split; [reflexivity | exact I].
Defined.

(** ** The suspended calls *)

Lemma suspended_fold {X : Type} (f : World -> X -> World) (l : list X) :
  (forall w x, suspended (f w x) = suspended w) ->
  forall w, suspended (fold_left f l w) = suspended w.
Proof.
  intros Hf. induction l as [|x l IH]; simpl; intros w; [reflexivity|].
  now rewrite IH, Hf.
Qed.

Lemma suspended_app_emit ev p w : suspended (app_emit ev p w) = suspended w.
Proof. unfold app_emit. now rewrite suspended_fold. Qed.

Lemma suspended_App_onTransition app p w :
  suspended (App_onTransition app p w) = suspended w.
Proof. unfold App_onTransition. now rewrite !suspended_app_emit. Qed.

Lemma suspended_notify ev p w l : suspended (notify ev p w l) = suspended w.
Proof.
  destruct l as [name|id]; simpl; [|reflexivity].
  destruct (obj_get (connectedApps w) name); try reflexivity.
  apply suspended_fold. intros w0 x.
  destruct (app_store w0 !! x) as [ap|]; [|reflexivity].
  destruct (app_onTransition ap); [apply suspended_App_onTransition | reflexivity].
Qed.

Lemma suspended_emit ev p w : suspended (emit ev p w) = suspended w.
Proof.
  unfold emit. rewrite suspended_fold; [reflexivity|].
  intros; apply suspended_notify.
Qed.

Lemma suspended_set_buffers a b c w : suspended (set_buffers a b c w) = suspended w.
Proof. unfold set_buffers. now destruct (automata_store w !! a). Qed.

Lemma suspended_set_now a n w : suspended (set_now a n w) = suspended w.
Proof. unfold set_now. now destruct (automata_store w !! a). Qed.

(** ** A call of transit that is left to itself *)

Lemma State_get_name st k :
  own (st_actions st) k = None -> k = "name" -> State_get st k = MData (VStr (st_name st)).
Proof. intros H ->. unfold State_get. now rewrite H. Qed.

Lemma State_transit_fields st d :
  let st' := t_state (State_transit st d) in
  st_name st' = st_name st /\ st_local st' = st_local st /\
  st_views st' = st_views st /\ st_automata st' = st_automata st.
Proof.
  cbv zeta. unfold State_transit.
  assert (C : forall m, let st' := t_state (call_member st m d) in
              st_name st' = st_name st /\ st_local st' = st_local st /\
              st_views st' = st_views st /\ st_automata st' = st_automata st).
  { intros m. destruct m as [h|v|vs|[]|k0|]; simpl; auto.
    now destruct (own (State_views st) "undefined"). }
  destruct (truthy_member _); [|now rewrite call_failed_state].
  specialize (C (State_get st (ld_action d))). cbv zeta in C.
  destruct (t_out (call_member st (State_get st (ld_action d)) d)) as [v|e|e];
    simpl; try exact C.
  destruct (truthy v); [exact C | now rewrite call_failed_state].
Qed.

(** The state's [transit] does not change what the state answers under a
    name other than "undefined". *)
Lemma State_transit_get st d k :
  k <> "undefined" -> State_get (t_state (State_transit st d)) k = State_get st k.
Proof.
  intros Hk. destruct (State_transit_fields st d) as (N & L & V & A).
  unfold State_get. rewrite (State_transit_actions st d k Hk), N, L, V, A.
  reflexivity.
Qed.

(** Nor does it change what the state answers under the action it was
    called with. *)
Lemma State_transit_same_action st d :
  truthy_member (State_get (t_state (State_transit st d)) (ld_action d))
  = truthy_member (State_get st (ld_action d)).
Proof.
  destruct (String.eqb (ld_action d) "undefined") eqn:E.
  - apply String.eqb_eq in E.
    assert (S : t_state (State_transit st d) = st).
    { unfold State_transit. rewrite E.
      assert (G : State_get st "undefined"
                  = match own (st_actions st) "undefined" with
                    | Some h => MAction h
                    | None => MUndefined
                    end).
      { unfold State_get. destruct (own (st_actions st) "undefined"); reflexivity. }
      rewrite G. destruct (own (st_actions st) "undefined") as [h|]; simpl.
      - destruct (h_out (h (ADelta d))) as [v|e|e]; simpl; try reflexivity.
        destruct (truthy v); [reflexivity | now rewrite call_failed_state].
      - now rewrite call_failed_state. }
    now rewrite S.
  - apply String.eqb_neq in E. now rewrite State_transit_get.
Qed.

Lemma State_transit_not_thrown st d e : t_out (State_transit st d) <> Throw e.
Proof.
  unfold State_transit, call_failed.
  destruct (truthy_member _).
  - destruct (t_out (call_member _ _ _)) as [v| |] eqn:E; simpl; try discriminate.
    destruct (truthy v).
    + simpl in E. rewrite E. discriminate.
    + destruct (own _ "failed") as [h|]; simpl; [|discriminate].
      destruct (h_out _); discriminate.
  - destruct (own _ "failed") as [h|]; simpl; [|discriminate].
    destruct (h_out _); discriminate.
Qed.

(** What a call of [transit] leaves when the automaton is in a State object
    that has kept the class's [transit]: [beforeTransition] is emitted, the
    handler has run, and the call is suspended, last in the queue. *)
Lemma transit_call_attentive w a l au st delta :
  automata_store w !! a = Some au ->
  a_now au = Some (NState l) ->
  state_store w !! l = Some st ->
  own (st_actions st) "transit" = None ->
  transit_call a delta w
  = with_suspended
      (suspended w ++
         [mkPending a (transit_stamped st delta) (transit_loaded au st delta)
                    (t_out (transit_settled au st delta))])
      (transit_awaited w a l au st delta).
Proof.
  intros Ha Hn Hs Ht. unfold transit_call, transit_begin. rewrite Ha, Hn.
  cbv zeta. cbn [d_action d_input d_from now_name]. rewrite Hs.
  change (mkLoaded (d_action delta) (d_input delta) (State_name st)
                   (a_context au) (a_buffer au))
    with (transit_loaded au st delta).
  change (emit "beforeTransition" (PDelta (transit_loaded au st delta)) w)
    with (transit_begun w au st delta).
  rewrite (now_transit_begun w l au st delta Hs Ht).
  change (State_transit st (transit_loaded au st delta))
    with (transit_settled au st delta).
  pose proof (State_transit_not_thrown st (transit_loaded au st delta)) as NT.
  change (State_transit st (transit_loaded au st delta))
    with (transit_settled au st delta) in NT.
  assert (S : suspended (transit_awaited w a l au st delta) = suspended w).
  { unfold transit_awaited, transit_begun.
    rewrite suspended_set_buffers. simpl. apply suspended_emit. }
  destruct (t_out (transit_settled au st delta)) as [v|e|e] eqn:O;
    [| |exfalso; exact (NT e eq_refl)];
    fold (transit_awaited w a l au st delta); now rewrite S.
Qed.

Lemma now_of_with_suspended x w b : now_of (with_suspended x w) b = now_of w b.
Proof. reflexivity. Qed.

Lemma now_of_set_buffers a x y w b :
  now_of (set_buffers a x y w) b = now_of w b.
Proof.
  unfold now_of, set_buffers.
  destruct (automata_store w !! a) as [au|] eqn:E; [|reflexivity].
  unfold set_automaton; simpl.
  destruct (decide (b = a)) as [->|Hb].
  - rewrite list_lookup_insert_eq by (eapply lookup_lt_Some; exact E).
    now rewrite E.
  - now rewrite list_lookup_insert_ne by congruence.
Qed.

Lemma now_of_awaited w a l au st delta b :
  now_of (transit_awaited w a l au st delta) b = now_of w b.
Proof.
  unfold transit_awaited. rewrite now_of_set_buffers.
  unfold now_of, transit_begun. simpl.
  now rewrite (quiet_automata_store _ _ (quiet_emit _ _ _)).
Qed.

Lemma state_store_awaited w a l au st delta :
  state_store (transit_awaited w a l au st delta)
  = <[l := t_state (transit_settled au st delta)]> (state_store w).
Proof.
  unfold transit_awaited. rewrite state_store_set_buffers. simpl.
  unfold transit_begun. now rewrite (quiet_state_store _ _ (quiet_emit _ _ _)).
Qed.

(** ** View.transit *)

Lemma accepts_attentive w a l st action :
  now_of w a = Some (NState l) -> state_store w !! l = Some st ->
  accepts w a action = truthy_member (State_get st action).
Proof. intros Hn Hs. unfold accepts, now_has. now rewrite Hn, Hs. Qed.

Lemma now_of_lookup w a n :
  now_of w a = Some n ->
  exists au, automata_store w !! a = Some au /\ a_now au = Some n.
Proof.
  unfold now_of. destruct (automata_store w !! a) as [au|]; [|discriminate].
  intros H. now exists au.
Qed.

(** An attentive automaton is asked: the answer, and the world the call
    leaves. *)
Lemma tryTransit_attentive w a input action :
  attentive w a ->
  exists w',
    Automata_tryTransit a input action w = (Normal (accepts w a action), w') /\
    (forall b, now_of w' b = now_of w b) /\
    (forall b, attentive w b -> attentive w' b) /\
    (forall b, accepts w' b action = accepts w b action) /\
    allTomata w' = allTomata w /\
    (accepts w a action = false -> w' = w) /\
    (accepts w a action = true ->
     exists p, suspended w' = suspended w ++ [p] /\ p_automaton p = a /\
               d_action (p_delta p) = action /\ d_input (p_delta p) = input).
Proof.
  intros (l & st & Hn & Hs & Ht).
  destruct (now_of_lookup _ _ _ Hn) as (au & Ha & Hnow).
  pose proof (accepts_attentive w a l st action Hn Hs) as Acc.
  unfold Automata_tryTransit. rewrite Ha, Hnow. cbn [now_has]. rewrite Hs, <- Acc.
  destruct (accepts w a action) eqn:A.
  - rewrite (transit_call_attentive w a l au st _ Ha Hnow Hs Ht).
    set (delta := createDelta action input).
    set (w1 := transit_awaited w a l au st delta).
    assert (N : forall b, now_of w1 b = now_of w b)
      by (intros b; apply now_of_awaited).
    assert (SS : state_store w1 = <[l := t_state (transit_settled au st delta)]>
                                   (state_store w))
      by apply state_store_awaited.
    assert (Hl : l < length (state_store w)) by (eapply lookup_lt_Some; exact Hs).
    eexists. split; [reflexivity|].
    split; [intros b; rewrite now_of_with_suspended; apply N|].
    split; [|split; [|split; [|split; [discriminate|]]]].
    + intros b (lb & stb & Hnb & Hsb & Htb).
      destruct (decide (lb = l)) as [->|Hne].
      * exists l, (t_state (transit_settled au st delta)).
        split; [rewrite now_of_with_suspended, N; exact Hnb|].
        split; [simpl; rewrite SS; now apply list_lookup_insert_eq|].
        unfold transit_settled. rewrite State_transit_actions by discriminate.
        congruence.
      * exists lb, stb.
        split; [rewrite now_of_with_suspended, N; exact Hnb|].
        split; [simpl; rewrite SS; now rewrite list_lookup_insert_ne by congruence|].
        exact Htb.
    + intros b. unfold accepts. rewrite now_of_with_suspended, N.
      destruct (now_of w b) as [[lb|k]|]; try reflexivity.
      unfold now_has.
      change (state_store (with_suspended _ w1)) with (state_store w1). rewrite SS.
      destruct (decide (lb = l)) as [->|Hne].
      * rewrite list_lookup_insert_eq by exact Hl. rewrite Hs.
        unfold transit_settled.
        pose proof (State_transit_same_action st (transit_loaded au st delta)) as K.
        simpl in K. now rewrite K.
      * now rewrite list_lookup_insert_ne by congruence.
    + simpl. apply (awaited_frame w a l au st delta).
    + intros _. eexists. split; [reflexivity|]. repeat split.
  - exists w. split; [reflexivity|]. repeat split; auto. discriminate.
Qed.

Lemma ask_all_cons a r input action transited w :
  ask_all (Own a :: r) input action transited w
  = match Automata_tryTransit a input action w with
    | (Thrown e, w') => (Thrown e, w')
    | (Normal b, w') => ask_all r input action b w'
    end.
Proof. reflexivity. Qed.

(** A round over attentive automata: it is never broken off, the calls it
    leaves suspended are those of the acceptors, in order, and no automaton
    has moved when it ends. *)
Lemma ask_all_attentive input action : forall targets transited w,
  (forall a, In a targets -> attentive w a) ->
  exists b w' ps,
    ask_all (map Own targets) input action transited w = (Normal b, w') /\
    (forall c, now_of w' c = now_of w c) /\
    allTomata w' = allTomata w /\
    suspended w' = suspended w ++ ps /\
    map p_automaton ps = acceptors w targets action /\
    Forall (fun p => d_action (p_delta p) = action /\ d_input (p_delta p) = input) ps /\
    (acceptors w targets action = [] ->
     w' = w /\ b = match targets with [] => transited | _ => false end).
Proof.
  induction targets as [|a r IH]; intros transited w Hall.
  - exists transited, w, []. cbn. rewrite app_nil_r. repeat split; auto.
  - destruct (tryTransit_attentive w a input action (Hall a (or_introl eq_refl)))
      as (w1 & E1 & N1 & At1 & Ac1 & T1 & No1 & Yes1).
    destruct (IH (accepts w a action) w1) as (b & w' & ps & E & N & T & S & M & F & No).
    { intros c Hc. apply At1, Hall. now right. }
    assert (AccEq : acceptors w1 r action = acceptors w r action).
    { unfold acceptors. apply filter_ext. intros c. apply Ac1. }
    cbn [map]. rewrite ask_all_cons, E1, E.
    destruct (accepts w a action) eqn:A.
    + destruct (Yes1 eq_refl) as (p & Sp & Pa & Pd & Pi).
      exists b, w', (p :: ps). split; [reflexivity|].
      split; [intros c; now rewrite N, N1|].
      split; [congruence|].
      split; [rewrite S, Sp, <- app_assoc; reflexivity|].
      split; [cbn [map acceptors List.filter]; rewrite A; simpl;
              rewrite Pa, M, AccEq; reflexivity|].
      split; [constructor; [split; assumption | exact F]|].
      unfold acceptors. cbn [List.filter]. rewrite A. discriminate.
    + rewrite (No1 eq_refl) in *.
      exists b, w', ps. split; [reflexivity|].
      split; [exact N|]. split; [exact T|]. split; [exact S|].
      split; [unfold acceptors; cbn [List.filter]; rewrite A; exact M|].
      split; [exact F|].
      unfold acceptors. cbn [List.filter]. rewrite A. intros Hno.
      destruct (No Hno) as (-> & Hb). split; [reflexivity|].
      destruct r; [exact Hb | exact Hb].
Qed.

(** C4, as amended.  A view bound to no automaton calls [transit] without
    naming one, every registered automaton being in a State object that has
    kept the class's [transit].  Then every registered automaton is asked,
    in the order [Object.values(allTomata)] lists them (registration order,
    for names that are not array indices), and every one whose current
    state has the action begins its transition, not the first one only: the
    calls of [transit] that the round leaves suspended are exactly those of
    the acceptors, in that order, each with the action and the input.  No
    automaton has moved yet when the call returns.  When no registered
    automaton accepts, the call throws the no-transition message and
    nothing has changed. *)
Theorem View_transit_broadcast (w : World) (v : nat) (vw : View) (input : value)
    (action : string) :
  view_store w !! v = Some vw ->
  v_automata vw = None ->
  (forall a, In a (obj_values (allTomata w)) -> attentive w a) ->
  let r := View_transit v input action "" w in
  (exists ps,
     suspended (snd r) = suspended w ++ ps /\
     map p_automaton ps = acceptors w (obj_values (allTomata w)) action /\
     Forall (fun p => d_action (p_delta p) = action /\
                      d_input (p_delta p) = input) ps) /\
  (forall a, In a (obj_values (allTomata w)) -> accepts w a action = true ->
             has_begun (snd r) a action input) /\
  (forall a, now_of (snd r) a = now_of w a) /\
  (fst r = Normal tt \/ fst r = Thrown (no_transition None action)) /\
  (acceptors w (obj_values (allTomata w)) action = [] ->
   r = (Thrown (no_transition None action), w)).
Proof.
  intros Hv Hu Hall r. subst r. unfold View_transit. rewrite Hv, Hu.
  cbn [String.eqb].
  destruct (ask_all_attentive input action (obj_values (allTomata w)) false w Hall)
    as (b & w' & ps & E & N & _ & S & M & F & No).
  rewrite E.
  assert (R : snd (if b then (Normal tt, w')
                   else (Thrown (no_transition None action), w')) = w')
    by now destruct b.
  cbv beta iota zeta. rewrite R.
  split; [exists ps; auto|].
  split.
  - intros a Hin Hacc.
    assert (Ia : In a (acceptors w (obj_values (allTomata w)) action)).
    { unfold acceptors. apply filter_In. split; assumption. }
    rewrite <- M in Ia. apply in_map_iff in Ia. destruct Ia as (p & Pa & Pin).
    exists p. rewrite S.
    split; [apply in_or_app; now right|].
    split; [exact Pa|].
    exact (proj1 (List.Forall_forall _ _) F p Pin).
  - split; [exact N|]. split; [destruct b; auto|].
    intros Hno. destruct (No Hno) as (-> & ->).
    now destruct (obj_values (allTomata w)).
Qed.

Lemma View_transit_broadcast_witness :
  has_begun (snd (View_transit 0 VUndef "logout" "" two_automata)) 1 "logout" VUndef.
Proof.
  destruct (View_transit_broadcast two_automata 0
              (mkView "menu" [] [] None VWrapper) VUndef "logout"
              ltac:(vm_compute; reflexivity) eq_refl) as (_ & B & _).
  - intros a Ha. vm_compute in Ha.
    destruct Ha as [<-|[<-|[]]]; eexists _, _;
      (split; [vm_compute; reflexivity|]);
      (split; [vm_compute; reflexivity|]); vm_compute; reflexivity.
  - apply (B 1).
    + vm_compute. auto.
    + vm_compute. reflexivity.
Defined.

(** C4, as stated, fails.  Both automata accept [logout]; the call returns
    normally and has begun the transition of both: two calls of [transit]
    are suspended, that of "A" and that of "B", and once they have gone on
    "A" has moved from [a_idle] to [a_out] and "B", asked second, from
    [b_idle] to [b_out].  The first acceptance did not end the round. *)
Lemma every_acceptor_transits :
  let w := two_automata in
  let r := View_transit 0 VUndef "logout" "" w in
  obj_values (allTomata w) = [0; 1] /\
  accepts w 0 "logout" = true /\ accepts w 1 "logout" = true /\
  now_of w 0 = Some (NState 2) /\ now_of w 1 = Some (NState 4) /\
  fst r = Normal tt /\
  map p_automaton (suspended (snd r)) = [0; 1] /\
  now_of (resume 0 (resume 0 (snd r))) 0 = Some (NState 3) /\
  now_of (resume 0 (resume 0 (snd r))) 1 = Some (NState 6).
Proof. vm_compute. repeat split. Qed.

(** The variable [transited] is overwritten by each automaton asked, so the
    answer of the last one decides: "A" accepts [quit] and begins the
    transition, "B" does not accept, and the call throws as if nobody had. *)
Lemma last_answer_decides :
  let w := two_automata in
  let r := View_transit 0 VUndef "quit" "" w in
  accepts w 0 "quit" = true /\ accepts w 1 "quit" = false /\
  fst r = Thrown (no_transition None "quit") /\
  map p_automaton (suspended (snd r)) = [0] /\
  now_of (resume 0 (snd r)) 0 = Some (NState 3).
Proof. vm_compute. repeat split. Qed.

(** ** The two halves make the whole *)

Lemma now_cleanUp_stores w l w' :
  now_cleanUp w l = Normal w' ->
  automata_store w' = automata_store w /\ state_store w' = state_store w.
Proof.
  unfold now_cleanUp. intros H.
  destruct (state_store w !! l) as [st|]; [|discriminate].
  destruct (own (st_actions st) "cleanUp") as [h|].
  - destruct (h_out _); inversion H; subst; now split.
  - inversion H; subst. now split.
Qed.

Lemma now_transit_state w n d l r :
  now_transit w n d = Some (l, r) -> n = NState l.
Proof.
  unfold now_transit. destruct n as [l0|k]; [|discriminate].
  destruct (state_store w !! l0) as [st|]; [|discriminate].
  destruct (own (st_actions st) "transit"); intros [= <- _]; reflexivity.
Qed.

Lemma transit_rest_caught a d0 d omega e w2 au n :
  automata_store w2 !! a = Some au -> a_now au = Some n ->
  transit_rest a d0 d (Caught omega e w2)
  = let w3 := emit "failedTransition" (PDelta (reload a d w2)) w2 in
    match transit_catch a n d w3 with
    | Thrown e' => (Rejected e', w3)
    | Normal w4 => transit_finish a d0 d omega w4
    end.
Proof.
  intros Ha Hn. cbn [transit_rest]. cbv zeta.
  rewrite (quiet_automata_store _ _ (quiet_emit _ _ w2)), Ha, Hn. reflexivity.
Qed.

(** A transition that is awaited with nothing in between is its first half
    followed by its second half. *)
Lemma Automata_transit_halves a delta w :
  Automata_transit a delta w
  = match transit_begin a delta w with
    | Settled r w' => (r, w')
    | Suspended p w' => transit_resume p w'
    end.
Proof.
  unfold Automata_transit, transit_begin.
  destruct (automata_store w !! a) as [au|] eqn:Ha; [|reflexivity].
  destruct (a_now au) as [n|] eqn:Hn; [|reflexivity].
  cbv zeta. cbn [d_action d_input d_from].
  set (d0 := mkDelta _ _ _). set (d := mkLoaded _ _ _ _ _).
  set (w1 := emit "beforeTransition" (PDelta d) w).
  assert (Ha1 : automata_store w1 !! a = Some au).
  { unfold w1. now rewrite (quiet_automata_store _ _ (quiet_emit _ _ w)). }
  unfold transit_try.
  destruct (now_transit w1 n d) as [[l r]|] eqn:T.
  - pose proof (now_transit_state _ _ _ _ _ T) as ->.
    set (w2 := set_buffers a (t_buffer r) (t_context r) (set_state l (t_state r) w1)).
    assert (Ha2 : automata_store w2 !! a
                  = Some (mkAutomata (a_name au) (t_buffer r) (t_context r)
                                     (a_now au) (a_initialState au))).
    { unfold w2. apply lookup_set_buffers. exact Ha1. }
    destruct (t_out r) as [omega|e|e] eqn:O.
    + unfold transit_resume. cbn [p_automaton p_delta p_loaded p_out].
      unfold transit_try_rest. rewrite Ha2. cbn [a_now]. rewrite Hn.
      destruct (now_cleanUp w2 l) as [w3|e] eqn:C.
      * assert (Ha3 : automata_store w3 !! a
                      = Some (mkAutomata (a_name au) (t_buffer r) (t_context r)
                                         (a_now au) (a_initialState au))).
        { destruct (now_cleanUp_stores _ _ _ C) as (E3 & _). now rewrite E3. }
        destruct (prop omega "next") as [nx|].
        -- destruct (to_key nx) as [k|]; [reflexivity|].
           now rewrite (transit_rest_caught _ _ _ _ _ _ _ _ Ha3 Hn).
        -- now rewrite (transit_rest_caught _ _ _ _ _ _ _ _ Ha3 Hn).
      * now rewrite (transit_rest_caught _ _ _ _ _ _ _ _ Ha2 Hn).
    + unfold transit_resume. cbn [p_automaton p_delta p_loaded p_out transit_try_rest].
      now rewrite (transit_rest_caught _ _ _ _ _ _ _ _ Ha2 Hn).
    + rewrite (transit_rest_caught _ _ _ _ _ _ _ _ Ha2 Hn). cbv zeta.
      now destruct (transit_catch _ _ _ _); [destruct (transit_finish _ _ _ _ _)|].
  - rewrite (transit_rest_caught _ _ _ _ _ _ _ _ Ha1 Hn). cbv zeta.
    now destruct (transit_catch _ _ _ _); [destruct (transit_finish _ _ _ _ _)|].
Qed.

(** * More properties *)

(** ** A transition touches one automaton and one state *)

Lemma others_set_automaton a au w b :
  b <> a -> automata_store (set_automaton a au w) !! b = automata_store w !! b.
Proof. intros H. unfold set_automaton; simpl. now apply list_lookup_insert_ne. Qed.

Lemma others_set_buffers a x y w b :
  b <> a -> automata_store (set_buffers a x y w) !! b = automata_store w !! b.
Proof.
  intros H. unfold set_buffers.
  destruct (automata_store w !! a); [now apply others_set_automaton | reflexivity].
Qed.

Lemma others_set_now a n w b :
  b <> a -> automata_store (set_now a n w) !! b = automata_store w !! b.
Proof.
  intros H. unfold set_now.
  destruct (automata_store w !! a); [now apply others_set_automaton | reflexivity].
Qed.

Lemma others_transit_try a n d w b :
  b <> a ->
  automata_store (tried_world (transit_try a n d w)) !! b = automata_store w !! b.
Proof.
  intros Hb. unfold transit_try.
  destruct (now_transit w n d) as [[l r]|]; [|reflexivity].
  set (w1 := set_buffers _ _ _ _).
  assert (E1 : automata_store w1 !! b = automata_store w !! b).
  { unfold w1. now rewrite others_set_buffers. }
  destruct (t_out r) as [omega|e|e]; simpl; try exact E1.
  destruct (now_cleanUp w1 l) as [w2|e] eqn:C; simpl; [|exact E1].
  destruct (now_cleanUp_stores _ _ _ C) as (E2 & _).
  destruct (prop omega "next") as [nx|]; simpl; [|now rewrite E2].
  destruct (to_key nx) as [k|]; simpl; [|now rewrite E2].
  rewrite others_set_now by exact Hb. now rewrite E2.
Qed.

Lemma transit_catch_stores a n d w w' :
  transit_catch a n d w = Normal w' ->
  exists l w2,
    n = NState l /\ now_cleanUp w l = Normal w2 /\
    w' = set_now a (failed_entry w2) w2.
Proof.
  unfold transit_catch. intros H.
  destruct n as [l|k]; [|discriminate].
  destruct (state_store w !! l) as [st|]; [|discriminate].
  destruct (match own (st_actions st) "transit" with
            | Some h => h_out (h (AValue (VStr "failed")))
            | None => Resolve VUndef
            end); try discriminate;
    (destruct (now_cleanUp w l) as [w2|e'] eqn:C; [|discriminate];
     inversion H; subst; exists l, w2; auto).
Qed.

Lemma others_transit_catch a n d w w' b :
  transit_catch a n d w = Normal w' -> b <> a ->
  automata_store w' !! b = automata_store w !! b.
Proof.
  intros H Hb. destruct (transit_catch_stores _ _ _ _ _ H) as (l & w2 & _ & C & ->).
  destruct (now_cleanUp_stores _ _ _ C) as (E & _).
  rewrite others_set_now by exact Hb. now rewrite E.
Qed.

(** The branches of [transit] in one statement: what the world is when the
    call is over, seen from the world [w0] in which the [try] block ended. *)
Lemma Automata_transit_cases a delta w au n :
  automata_store w !! a = Some au ->
  a_now au = Some n ->
  let d0 := mkDelta (d_action delta) (d_input delta) (now_name w n) in
  let d := mkLoaded (d_action delta) (d_input delta) (now_name w n)
                    (a_context au) (a_buffer au) in
  let w1 := emit "beforeTransition" (PDelta d) w in
  (exists omega w2,
     transit_try a n d w1 = Passed omega w2 /\
     Automata_transit a delta w = transit_finish a d0 d omega w2) \/
  (exists omega e w2,
     transit_try a n d w1 = Caught omega e w2 /\
     let w3 := emit "failedTransition" (PDelta (reload a d w2)) w2 in
     ((exists e', transit_catch a n d w3 = Thrown e' /\
                  Automata_transit a delta w = (Rejected e', w3)) \/
      (exists w4, transit_catch a n d w3 = Normal w4 /\
                  Automata_transit a delta w = transit_finish a d0 d omega w4))).
Proof.
  intros Ha Hn d0 d w1. subst d0 d w1. unfold Automata_transit.
  rewrite Ha, Hn. cbv zeta. cbn [d_action d_input d_from].
  destruct (transit_try a n _ _) as [omega w2|omega e w2] eqn:T.
  - left. exists omega, w2. split; reflexivity.
  - right. exists omega, e, w2. split; [reflexivity|]. cbv zeta.
    destruct (transit_catch a n _ _) as [w4|e'] eqn:C.
    + right. exists w4. split; reflexivity.
    + left. exists e'. split; reflexivity.
Qed.

(** The record kept for another automaton is the same after the call. *)
Lemma others_Automata_transit (w : World) (a b : nat) (delta : Delta) :
  b <> a ->
  automata_store (snd (Automata_transit a delta w)) !! b = automata_store w !! b.
Proof.
  intros Hb.
  destruct (automata_store w !! a) as [au|] eqn:Ha;
    [|unfold Automata_transit; now rewrite Ha].
  destruct (a_now au) as [n|] eqn:Hn;
    [|unfold Automata_transit; now rewrite Ha, Hn].
  pose proof (Automata_transit_cases a delta w au n Ha Hn) as H. cbv zeta in H.
  set (d := mkLoaded _ _ _ _ _) in *. set (d0 := mkDelta _ _ _) in *.
  set (w1 := emit "beforeTransition" (PDelta d) w) in *.
  assert (E1 : automata_store w1 = automata_store w)
    by apply (quiet_automata_store _ _ (quiet_emit _ _ _)).
  pose proof (others_transit_try a n d w1 b Hb) as E2.
  destruct H as [(omega & w2 & T & ->)
                |(omega & e & w2 & T & [(e' & _ & ->)|(w4 & C & ->)])];
    rewrite T in E2; cbn [tried_world] in E2.
  - rewrite (quiet_automata_store _ _ (quiet_transit_finish _ _ _ _ _)).
    now rewrite E2, E1.
  - cbn [snd]. rewrite (quiet_automata_store _ _ (quiet_emit _ _ _)).
    now rewrite E2, E1.
  - rewrite (quiet_automata_store _ _ (quiet_transit_finish _ _ _ _ _)).
    rewrite (others_transit_catch _ _ _ _ _ b C Hb).
    rewrite (quiet_automata_store _ _ (quiet_emit _ _ _)).
    now rewrite E2, E1.
Qed.

(** X1.  A transition of one automaton moves no other automaton: every
    automaton [b] other than [a] is after [a.transit(delta)] in the state it
    was in before, with the initial state and the name it had, whether the
    call resolved or was rejected. *)
Theorem transit_leaves_other_automata (w : World) (a b : nat) (delta : Delta) :
  b <> a ->
  let w' := snd (Automata_transit a delta w) in
  now_of w' b = now_of w b /\
  a_initialState <$> automata_store w' !! b
  = a_initialState <$> automata_store w !! b /\
  a_name <$> automata_store w' !! b = a_name <$> automata_store w !! b.
Proof.
  intros Hb w'. unfold now_of. subst w'.
  rewrite (others_Automata_transit w a b delta Hb). auto.
Qed.

Lemma transit_leaves_other_automata_witness :
  now_of (snd (Automata_transit 1 (createDelta "work" VUndef) two_automata)) 0
  = now_of two_automata 0.
Proof.
  apply (transit_leaves_other_automata two_automata 1 0). discriminate.
Defined.

Lemma state_store_transit_try a n d w l' :
  n <> NState l' ->
  state_store (tried_world (transit_try a n d w)) !! l' = state_store w !! l'.
Proof.
  intros Hn. unfold transit_try.
  destruct (now_transit w n d) as [[l r]|] eqn:T; [|reflexivity].
  apply now_transit_state in T.
  assert (Hl : l <> l') by congruence.
  set (w1 := set_buffers _ _ _ _).
  assert (E1 : state_store w1 !! l' = state_store w !! l').
  { unfold w1. rewrite state_store_set_buffers. unfold set_state; simpl.
    now apply list_lookup_insert_ne. }
  destruct (t_out r) as [omega|e|e]; simpl; try exact E1.
  destruct (now_cleanUp w1 l) as [w2|e] eqn:C; simpl; [|exact E1].
  destruct (now_cleanUp_stores _ _ _ C) as (_ & E2).
  destruct (prop omega "next") as [nx|]; simpl; [|now rewrite E2].
  destruct (to_key nx) as [k|]; simpl; [|now rewrite E2].
  rewrite state_store_set_now. now rewrite E2.
Qed.

Lemma state_store_transit_catch a n d w w' :
  transit_catch a n d w = Normal w' -> state_store w' = state_store w.
Proof.
  intros H. destruct (transit_catch_stores _ _ _ _ _ H) as (l & w2 & _ & C & ->).
  destruct (now_cleanUp_stores _ _ _ C) as (_ & E).
  rewrite state_store_set_now. exact E.
Qed.

(** X2.  A transition changes no State object other than the current
    state of the automaton it is called on: every other state in the store
    is afterwards what it was before. *)
Theorem transit_leaves_other_states (w : World) (a l' : nat) (delta : Delta) :
  now_of w a <> Some (NState l') ->
  state_store (snd (Automata_transit a delta w)) !! l' = state_store w !! l'.
Proof.
  unfold now_of. intros Hl.
  destruct (automata_store w !! a) as [au|] eqn:Ha;
    [|unfold Automata_transit; now rewrite Ha].
  destruct (a_now au) as [n|] eqn:Hn;
    [|unfold Automata_transit; now rewrite Ha, Hn].
  assert (Hn' : n <> NState l') by congruence.
  pose proof (Automata_transit_cases a delta w au n Ha Hn) as H. cbv zeta in H.
  set (d := mkLoaded _ _ _ _ _) in *. set (d0 := mkDelta _ _ _) in *.
  set (w1 := emit "beforeTransition" (PDelta d) w) in *.
  assert (E1 : state_store w1 = state_store w)
    by apply (quiet_state_store _ _ (quiet_emit _ _ _)).
  pose proof (state_store_transit_try a n d w1 l' Hn') as E2.
  destruct H as [(omega & w2 & T & ->)
                |(omega & e & w2 & T & [(e' & _ & ->)|(w4 & C & ->)])];
    rewrite T in E2; cbn [tried_world] in E2.
  - rewrite (quiet_state_store _ _ (quiet_transit_finish _ _ _ _ _)).
    now rewrite E2, E1.
  - cbn [snd]. rewrite (quiet_state_store _ _ (quiet_emit _ _ _)).
    now rewrite E2, E1.
  - rewrite (quiet_state_store _ _ (quiet_transit_finish _ _ _ _ _)).
    rewrite (state_store_transit_catch _ _ _ _ _ C).
    rewrite (quiet_state_store _ _ (quiet_emit _ _ _)).
    now rewrite E2, E1.
Qed.

Lemma transit_leaves_other_states_witness :
  state_store (snd (Automata_transit 1 (createDelta "work" VUndef) two_automata)) !! 2
  = state_store two_automata !! 2.
Proof.
  apply (transit_leaves_other_states two_automata 1 2).
  vm_compute. discriminate.
Defined.

(** ** What a transition leaves alone *)

Lemma frame_registries w w' : frame w w' -> registries w w'.
Proof. unfold frame, registries. intuition. Qed.

(** X4.  Whatever the handler does and however the call ends, a transition
    registers and unregisters nothing: after [transit], after [tryTransit]
    and a view's [transit], and after a suspended call has gone on, the
    tables [allTomata], [connectedApps] and [states], the set [names] and
    the subscriptions of both buses are what they were, and no automaton
    is added or renamed. *)
Theorem transitions_keep_registries (w : World) (a v k : nat) (delta : Delta)
    (input : value) (action automata : string) :
  registries w (snd (Automata_transit a delta w)) /\
  registries w (snd (Automata_tryTransit a input action w)) /\
  registries w (snd (View_transit v input action automata w)) /\
  registries w (resume k w).
Proof.
  split; [apply frame_registries, frame_Automata_transit|].
  split; [apply frame_registries, frame_Automata_tryTransit|].
  split; [apply frame_registries, frame_View_transit|].
  apply frame_registries, frame_resume.
Qed.

(** ** The order of the emissions *)

Lemma adds_refl P w : adds P w w.
Proof. exists []. split; [now rewrite app_nil_r | reflexivity]. Qed.

Lemma adds_trans P w1 w2 w3 : adds P w1 w2 -> adds P w2 w3 -> adds P w1 w3.
Proof.
  intros (t1 & E1 & F1) (t2 & E2 & F2). exists (t1 ++ t2). split.
  - now rewrite E2, E1, app_assoc.
  - rewrite forallb_app. now rewrite F1, F2.
Qed.

Lemma adds_weaken (P Q : event -> bool) w w' :
  (forall e, P e = true -> Q e = true) -> adds P w w' -> adds Q w w'.
Proof.
  intros H (t & E & F). exists t. split; [exact E|].
  apply forallb_forall. intros e He.
  apply H. eapply (proj1 (forallb_forall P t)); eassumption.
Qed.

Lemma adds_same_trace P w w' : trace w' = trace w -> adds P w w'.
Proof. intros E. exists []. split; [now rewrite app_nil_r | reflexivity]. Qed.

Lemma adds_log P e w : P e = true -> adds P w (log e w).
Proof.
  intros H. exists [e]. split; [reflexivity|]. simpl. now rewrite H.
Qed.

Lemma adds_fold {X : Type} P (f : World -> X -> World) (l : list X) :
  (forall w x, adds P w (f w x)) -> forall w, adds P w (fold_left f l w).
Proof.
  intros Hf. induction l as [|x l IH]; simpl; intros w.
  - apply adds_refl.
  - eapply adds_trans; [apply Hf | apply IH].
Qed.

Lemma adds_app_emit ev p w : adds callback w (app_emit ev p w).
Proof.
  unfold app_emit.
  eapply adds_trans;
    [apply (adds_log callback (Emitted app_bus ev p)); reflexivity|].
  generalize (EventBus_listeners ev (appEventBus w)). intros l.
  apply adds_fold. intros; now apply adds_log.
Qed.

Lemma adds_App_onTransition app p w : adds callback w (App_onTransition app p w).
Proof.
  unfold App_onTransition.
  eapply adds_trans;
    [apply (adds_log callback (OnTransition app p)); reflexivity|].
  eapply adds_trans; apply adds_app_emit.
Qed.

Lemma adds_notify ev p w l : adds callback w (notify ev p w l).
Proof.
  destruct l as [name|id]; simpl; [|now apply adds_log].
  destruct (obj_get (connectedApps w) name); try apply adds_refl.
  apply adds_fold. intros w0 x.
  destruct (app_store w0 !! x) as [ap|]; [|apply adds_refl].
  destruct (app_onTransition ap); [apply adds_App_onTransition | apply adds_refl].
Qed.

(** [emit] logs its emission, then only callbacks. *)
Lemma emit_trace ev p w :
  exists cb, trace (emit ev p w) = trace w ++ Emitted automata_bus ev p :: cb /\
             forallb callback cb = true.
Proof.
  unfold emit.
  destruct (adds_fold callback (notify ev p)
              (EventBus_listeners ev (automataEventBus w))
              (fun w0 x => adds_notify ev p w0 x)
              (log (Emitted automata_bus ev p) w)) as (cb & E & F).
  exists cb. split; [|exact F].
  rewrite E. unfold log; simpl. now rewrite <- app_assoc.
Qed.

Lemma callback_not_completion e : callback e = true -> not_completion e = true.
Proof. destruct e as [[|] ? ?| | |]; simpl; intros H; try reflexivity; discriminate. Qed.

Lemma adds_emit ev p w :
  not_completion (Emitted automata_bus ev p) = true ->
  adds not_completion w (emit ev p w).
Proof.
  intros H. destruct (emit_trace ev p w) as (cb & E & F).
  exists (Emitted automata_bus ev p :: cb). split; [exact E|].
  simpl. rewrite H. simpl.
  apply forallb_forall. intros e He. apply callback_not_completion.
  eapply (proj1 (forallb_forall callback cb)); eassumption.
Qed.

Lemma adds_now_cleanUp w l w' :
  now_cleanUp w l = Normal w' -> adds not_completion w w'.
Proof.
  unfold now_cleanUp. intros H.
  destruct (state_store w !! l) as [st|]; [|discriminate].
  destruct (own (st_actions st) "cleanUp") as [h|].
  - destruct (h_out _); inversion H; subst; now apply adds_log.
  - inversion H; subst. now apply adds_log.
Qed.

Lemma adds_transit_try a n d w :
  adds not_completion w (tried_world (transit_try a n d w)).
Proof.
  unfold transit_try.
  destruct (now_transit w n d) as [[l r]|]; [|apply adds_refl].
  set (w1 := set_buffers _ _ _ _).
  assert (A1 : adds not_completion w w1).
  { apply adds_same_trace. unfold w1. now rewrite trace_set_buffers. }
  destruct (t_out r) as [omega|e|e]; simpl; try exact A1.
  destruct (now_cleanUp w1 l) as [w2|e] eqn:C; simpl; [|exact A1].
  assert (A2 : adds not_completion w w2).
  { eapply adds_trans; [exact A1 | eapply adds_now_cleanUp; exact C]. }
  destruct (prop omega "next") as [nx|]; simpl; [|exact A2].
  destruct (to_key nx) as [k|]; simpl; [|exact A2].
  eapply adds_trans; [exact A2|]. apply adds_same_trace. apply trace_set_now.
Qed.

Lemma adds_transit_catch a n d w w' :
  transit_catch a n d w = Normal w' -> adds not_completion w w'.
Proof.
  intros H. destruct (transit_catch_stores _ _ _ _ _ H) as (l & w2 & _ & C & ->).
  eapply adds_trans; [eapply adds_now_cleanUp; exact C|].
  apply adds_same_trace. apply trace_set_now.
Qed.

Lemma transit_finish_rejected a d0 d omega w e w' :
  transit_finish a d0 d omega w = (Rejected e, w') -> w' = w.
Proof.
  unfold transit_finish. intros H.
  destruct (automata_store w !! a) as [au|]; [|now inversion H].
  destruct (a_now au) as [[l|k]|]; try now inversion H.
  destruct (state_store w !! l) as [st|]; [|now inversion H].
  destruct omega; try now inversion H.
  all: match type of H with
       | context [match ?x with Some _ => _ | None => _ end] =>
           destruct x; [discriminate | now inversion H]
       end.
Qed.

Lemma transit_finish_trace a d0 d omega w om w' :
  transit_finish a d0 d omega w = (Resolved om, w') ->
  exists au t2 t3,
    automata_store w !! a = Some au /\
    trace w' = trace w ++
      Emitted automata_bus "dataTransition" (PTransition (a_name au) d0 om) :: t2 ++
      Emitted automata_bus "afterTransition" (PTransition (a_name au) d0 om) :: t3 /\
    forallb callback t2 = true /\ forallb callback t3 = true.
Proof.
  intros H.
  destruct (transit_finish_resolved _ _ _ _ _ _ _ H)
    as (au & l & st & Ha & _ & _ & _ & ->).
  set (p := PTransition (a_name au) d0 om).
  destruct (emit_trace "dataTransition" p w) as (t2 & E2 & F2).
  destruct (emit_trace "afterTransition" p (emit "dataTransition" p w)) as (t3 & E3 & F3).
  exists au, t2, t3. split; [exact Ha|]. split; [|split; assumption].
  rewrite E3, E2. now rewrite <- app_assoc.
Qed.

Lemma same_name w w' a au au' :
  frame w w' -> automata_store w !! a = Some au ->
  automata_store w' !! a = Some au' -> a_name au' = a_name au.
Proof.
  intros F H H'. pose proof (frame_name _ _ _ _ F H') as E.
  rewrite H in E. simpl in E. congruence.
Qed.

(** The trace of one transition, by the way the call ends. *)
Lemma transit_trace w a delta au n :
  automata_store w !! a = Some au ->
  a_now au = Some n ->
  let d0 := mkDelta (d_action delta) (d_input delta) (now_name w n) in
  let pd := mkLoaded (d_action delta) (d_input delta) (now_name w n)
                     (a_context au) (a_buffer au) in
  let r := Automata_transit a delta w in
  exists t1,
    forallb not_completion t1 = true /\
    match fst r with
    | Rejected _ =>
        trace (snd r) = trace w ++
          Emitted automata_bus "beforeTransition" (PDelta pd) :: t1
    | Resolved om =>
        exists t2 t3,
          trace (snd r) = trace w ++
            Emitted automata_bus "beforeTransition" (PDelta pd) :: t1 ++
            Emitted automata_bus "dataTransition"
              (PTransition (a_name au) d0 om) :: t2 ++
            Emitted automata_bus "afterTransition"
              (PTransition (a_name au) d0 om) :: t3 /\
          forallb callback t2 = true /\ forallb callback t3 = true
    end.
Proof.
  intros Ha Hn. cbv zeta.
  pose proof (Automata_transit_cases a delta w au n Ha Hn) as H. cbv zeta in H.
  set (d := mkLoaded _ _ _ _ _) in *. set (d0 := mkDelta _ _ _) in *.
  set (w1 := emit "beforeTransition" (PDelta d) w) in *.
  destruct (emit_trace "beforeTransition" (PDelta d) w) as (cb & E1 & F1).
  fold w1 in E1.
  assert (Fr1 : frame w w1) by apply quiet_frame, quiet_emit.
  assert (F1' : forallb not_completion cb = true).
  { apply forallb_forall. intros e He. apply callback_not_completion.
    eapply (proj1 (forallb_forall callback cb)); eassumption. }
  pose proof (adds_transit_try a n d w1) as (tt & Et & Ft).
  pose proof (frame_transit_try a n d w1) as Fr2.
  destruct H as [(omega & w2 & T & ->)
                |(omega & e & w2 & T & [(e' & _ & ->)|(w4 & C & ->)])];
    rewrite T in Et, Fr2; cbn [tried_world] in Et, Fr2.
  - exists (cb ++ tt). split; [rewrite forallb_app; now rewrite F1', Ft|].
    destruct (transit_finish a d0 d omega w2) as [[om|e] w'] eqn:Fin; cbn [fst snd].
    + destruct (transit_finish_trace _ _ _ _ _ _ _ Fin)
        as (au' & t2 & t3 & Ha' & E & F2 & F3).
      rewrite (same_name w w2 a au au' (frame_trans _ _ _ Fr1 Fr2) Ha Ha') in E.
      exists t2, t3. split; [|split; assumption].
      rewrite E, Et, E1. rewrite <- !app_assoc. reflexivity.
    + apply transit_finish_rejected in Fin. subst w'.
      rewrite Et, E1. rewrite <- !app_assoc. reflexivity.
  - destruct (adds_emit "failedTransition" (PDelta (reload a d w2)) w2 eq_refl)
      as (tf & Ef & Ff).
    exists (cb ++ tt ++ tf). split.
    { rewrite !forallb_app. now rewrite F1', Ft, Ff. }
    cbn [fst snd]. rewrite Ef, Et, E1. rewrite <- !app_assoc. reflexivity.
  - destruct (adds_emit "failedTransition" (PDelta (reload a d w2)) w2 eq_refl)
      as (tf & Ef & Ff).
    destruct (adds_transit_catch _ _ _ _ _ C) as (tc & Ec & Fc).
    assert (Fr4 : frame w w4).
    { eapply frame_trans; [exact Fr1|]. eapply frame_trans; [exact Fr2|].
      eapply frame_trans; [apply quiet_frame, quiet_emit|].
      eapply frame_transit_catch. exact C. }
    exists (cb ++ tt ++ tf ++ tc). split.
    { rewrite !forallb_app. now rewrite F1', Ft, Ff, Fc. }
    destruct (transit_finish a d0 d omega w4) as [[om|e0] w'] eqn:Fin; cbn [fst snd].
    + destruct (transit_finish_trace _ _ _ _ _ _ _ Fin)
        as (au' & t2 & t3 & Ha' & E & F2 & F3).
      rewrite (same_name w w4 a au au' Fr4 Ha Ha') in E.
      exists t2, t3. split; [|split; assumption].
      rewrite E, Ec, Ef, Et, E1. rewrite <- !app_assoc. reflexivity.
    + apply transit_finish_rejected in Fin. subst w'.
      rewrite Ec, Ef, Et, E1. rewrite <- !app_assoc. reflexivity.
Qed.

(** A handler that rejects or throws makes the call reject. *)
Lemma transit_rejected_by_handler w a delta x :
  awaited_result w a delta = Some x ->
  (exists e, t_out x = Reject e \/ t_out x = Throw e) ->
  exists e', fst (Automata_transit a delta w) = Rejected e'.
Proof.
  unfold awaited_result. intros Hr (e & Ho).
  destruct (automata_store w !! a) as [au|] eqn:Ha; [|discriminate].
  destruct (a_now au) as [n|] eqn:Hn; [|discriminate].
  pose proof (Automata_transit_cases a delta w au n Ha Hn) as H.
  cbv zeta in H, Hr.
  set (d := mkLoaded _ _ _ _ _) in *. set (d0 := mkDelta _ _ _) in *.
  set (w1 := emit "beforeTransition" (PDelta d) w) in *.
  assert (T : exists w2, transit_try a n d w1 = Caught VUndef e w2).
  { unfold transit_try.
    destruct (now_transit w1 n d) as [[l x']|]; [|discriminate].
    simpl in Hr. inversion Hr; subst x'.
    destruct Ho as [-> | ->]; eexists; reflexivity. }
  destruct T as (w2' & T).
  destruct H as [(omega & w2 & T' & _)
                |(omega & e0 & w2 & T' & [(e' & _ & ->)|(w4 & C & ->)])];
    rewrite T in T'; inversion T'; subst.
  - exists e'. reflexivity.
  - exists TypeError. now rewrite transit_finish_unassigned.
Qed.

(** X5.  The emissions of one [transit(delta)] on an initialised
    automaton.  [beforeTransition] comes first, with the delta completed by
    [from], the context and the buffer.  When the handler's promise rejects
    (or the handler throws), the call is rejected and neither
    [dataTransition] nor [afterTransition] is emitted.  When the call
    resolves with an omega, [dataTransition] and [afterTransition] are
    emitted once each, in this order, as the last two emissions, both with
    the automaton's name, the delta with its [from] and that very omega;
    between and after them only subscribers are called. *)
Theorem transit_emissions (w : World) (a : nat) (delta : Delta) (au : Automata)
    (n : nowref) :
  automata_store w !! a = Some au ->
  a_now au = Some n ->
  let d0 := mkDelta (d_action delta) (d_input delta) (now_name w n) in
  let before :=
    Emitted automata_bus "beforeTransition"
      (PDelta (mkLoaded (d_action delta) (d_input delta) (now_name w n)
                        (a_context au) (a_buffer au))) in
  let r := Automata_transit a delta w in
  (exists t, trace (snd r) = trace w ++ before :: t) /\
  (forall x, awaited_result w a delta = Some x ->
             (exists e, t_out x = Reject e \/ t_out x = Throw e) ->
             exists e' t1,
               fst r = Rejected e' /\
               trace (snd r) = trace w ++ before :: t1 /\
               forallb not_completion t1 = true) /\
  (forall om, fst r = Resolved om ->
              exists t1 t2 t3,
                trace (snd r) = trace w ++ before :: t1 ++
                  Emitted automata_bus "dataTransition"
                    (PTransition (a_name au) d0 om) :: t2 ++
                  Emitted automata_bus "afterTransition"
                    (PTransition (a_name au) d0 om) :: t3 /\
                forallb not_completion t1 = true /\
                forallb callback t2 = true /\ forallb callback t3 = true).
Proof.
  intros Ha Hn. cbv zeta.
  destruct (transit_trace w a delta au n Ha Hn) as (t1 & F1 & M). cbv zeta in M.
  split; [|split].
  - destruct (fst (Automata_transit a delta w)) as [om|e].
    + destruct M as (t2 & t3 & E & _). eexists. exact E.
    + eexists. exact M.
  - intros x Hx Ho.
    destruct (transit_rejected_by_handler w a delta x Hx Ho) as (e' & R).
    rewrite R in M. exists e', t1. auto.
  - intros om R. rewrite R in M. destruct M as (t2 & t3 & E & F2 & F3).
    exists t1, t2, t3. auto.
Qed.

Lemma transit_emissions_witness :
  exists om t1 t2 t3,
    fst (Automata_transit 0 (createDelta "submit" VUndef) login) = Resolved om /\
    trace (snd (Automata_transit 0 (createDelta "submit" VUndef) login))
    = trace login ++
      Emitted automata_bus "beforeTransition"
        (PDelta (mkLoaded "submit" VUndef (VStr "idle") [] [])) :: t1 ++
      Emitted automata_bus "dataTransition"
        (PTransition "login" (mkDelta "submit" VUndef (VStr "idle")) om) :: t2 ++
      Emitted automata_bus "afterTransition"
        (PTransition "login" (mkDelta "submit" VUndef (VStr "idle")) om) :: t3.
Proof.
  assert (H : Automata_transit 0 (createDelta "submit" VUndef) login = login_submit)
    by (vm_compute; reflexivity).
  destruct (transit_emissions login 0 (createDelta "submit" VUndef)
              (mkAutomata "login" [] [] (Some (NState 1)) (Some "idle")) (NState 1)
              ltac:(vm_compute; reflexivity) eq_refl) as (_ & _ & R).
  cbv zeta in R. rewrite H in R |- *.
  destruct (R _ eq_refl) as (t1 & t2 & t3 & E & _).
  eexists _, t1, t2, t3. split; [reflexivity|].
  rewrite E. reflexivity.
Defined.

(** ** What the returned omega holds *)

Lemma own_set_field_eq k v fs : own (set_field k v fs) k = Some v.
Proof.
  unfold set_field. destruct (own fs k) eqn:E.
  - eapply own_replace_own. exact E.
  - now apply own_app_fresh.
Qed.

Lemma own_set_field_ne k k' v fs : k <> k' -> own (set_field k v fs) k' = own fs k'.
Proof.
  intros Hne. assert (Hk : (k =? k') = false) by now apply String.eqb_neq.
  unfold set_field. destruct (own fs k) eqn:E; clear E.
  - induction fs as [|[k0 x0] r IH]; simpl; [reflexivity|].
    destruct (k0 =? k) eqn:E0; simpl.
    + apply String.eqb_eq in E0. subst k0. now rewrite Hk.
    + now rewrite IH.
  - induction fs as [|[k0 x0] r IH]; simpl; [now rewrite Hk|].
    now rewrite IH.
Qed.

Lemma transit_finish_contents a d0 d omega w om w' :
  transit_finish a d0 d omega w = (Resolved om, w') ->
  exists au l st,
    automata_store w !! a = Some au /\ a_now au = Some (NState l) /\
    state_store w !! l = Some st /\
    o_views om = obj_values (State_views st) /\
    o_context om = VObj [].
Proof.
  unfold transit_finish. intros H.
  destruct (automata_store w !! a) as [au|] eqn:E1; [|discriminate].
  destruct (a_now au) as [[l|k]|] eqn:E2; try discriminate.
  destruct (state_store w !! l) as [st|] eqn:E3; [|discriminate].
  exists au, l, st. split; [reflexivity|]. do 2 (split; [assumption|]).
  destruct omega; try discriminate.
  all: match type of H with
       | context [match ?x with Some _ => _ | None => _ end] =>
           destruct x as [out'|] eqn:Eo; [|discriminate]
       end; inversion H; subst; clear H; cbn [o_views o_context];
       split; reflexivity.
Qed.

(** X6.  When [transit] resolves, the omega it returns is a fresh record
    whose [views] are the views attached to the state the automaton is in
    when the call ends, in the order [Object.values] lists them, and whose
    [context] is the empty default. *)
Theorem transit_omega_contents (w : World) (a : nat) (delta : Delta) (om : Omega)
    (w' : World) :
  Automata_transit a delta w = (Resolved om, w') ->
  exists l st,
    now_of w' a = Some (NState l) /\
    state_store w' !! l = Some st /\
    o_views om = obj_values (State_views st) /\
    o_context om = VObj [].
Proof.
  intros H.
  assert (G : exists d0 d omega w0,
                transit_finish a d0 d omega w0 = (Resolved om, w')).
  { unfold Automata_transit in H.
    destruct (automata_store w !! a) as [au|]; [|discriminate].
    destruct (a_now au) as [n|]; [|discriminate]. cbv zeta in H.
    destruct (transit_try a n _ _) as [omega w2|omega e w2]; [eauto|].
    destruct (transit_catch a n _ _) as [w4|e']; [eauto | discriminate]. }
  destruct G as (d0 & d & omega & w0 & Fin).
  destruct (transit_finish_contents _ _ _ _ _ _ _ Fin)
    as (au & l & st & E1 & E2 & E3 & V & C).
  pose proof (quiet_transit_finish a d0 d omega w0) as Q. rewrite Fin in Q. simpl in Q.
  exists l, st.
  unfold now_of.
  rewrite (quiet_automata_store _ _ Q), (quiet_state_store _ _ Q), E1.
  auto.
Qed.

Lemma transit_omega_contents_witness :
  exists om w',
    Automata_transit 0 (createDelta "submit" VUndef) login = (Resolved om, w') /\
    exists l st,
      now_of w' 0 = Some (NState l) /\
      state_store w' !! l = Some st /\
      o_views om = obj_values (State_views st) /\
      o_context om = VObj [].
Proof.
  assert (H : Automata_transit 0 (createDelta "submit" VUndef) login = login_submit)
    by (vm_compute; reflexivity).
  unfold login_submit in H.
  eexists. eexists. split; [exact H|].
  exact (transit_omega_contents _ _ _ _ _ H).
Defined.

(** ** createAutomata *)

Lemma own_obj_set_eq {A : Type} (o : JSObj A) (k : string) (a : A) :
  k <> "__proto__" -> own (obj_set k a o) k = Some a.
Proof.
  intros Hk. unfold obj_set.
  destruct (k =? "__proto__") eqn:E; [apply String.eqb_eq in E; contradiction|].
  destruct (own o k) eqn:O.
  - eapply own_replace_own. exact O.
  - destruct (array_index k).
    + now apply own_insert_index_fresh.
    + now apply own_app_fresh.
Qed.

Lemma obj_get_own {A : Type} (o : JSObj A) (k : string) (a : A) :
  own o k = Some a -> obj_get o k = Own a.
Proof. unfold obj_get. now intros ->. Qed.

Lemma obj_get_Own_inv {A : Type} (o : JSObj A) (k : string) (a : A) :
  obj_get o k = Own a -> own o k = Some a.
Proof.
  unfold obj_get. destruct (own o k); [now intros [= ->]|].
  destruct (in_names k Object_prototype); discriminate.
Qed.

(** [addState] writes to the [states] table, to the state and to its views,
    and to nothing else. *)
Lemma bind_views_keeps name vs : forall w,
  let w' := fold_left (bind_view name) vs w in
  allTomata w' = allTomata w /\ connectedApps w' = connectedApps w /\
  app_store w' = app_store w /\ trace w' = trace w /\ names w' = names w /\
  automataEventBus w' = automataEventBus w /\ appEventBus w' = appEventBus w /\
  automata_store w' = automata_store w /\ state_store w' = state_store w /\
  states w' = states w.
Proof.
  induction vs as [|v vs IH]; simpl; intros w; [repeat split|].
  destruct (IH (bind_view name w v)) as (E1 & E2 & E3 & E4 & E5 & E6 & E7 & E8 & E9 & E10).
  rewrite E1, E2, E3, E4, E5, E6, E7, E8, E9, E10. unfold bind_view.
  destruct (view_store w !! v); repeat split.
Qed.

Lemma addState_keeps a s w :
  let w' := Automata_addState a s w in
  automata_store w' = automata_store w /\ allTomata w' = allTomata w /\
  connectedApps w' = connectedApps w /\ app_store w' = app_store w /\
  trace w' = trace w /\ names w' = names w /\
  automataEventBus w' = automataEventBus w /\ appEventBus w' = appEventBus w.
Proof.
  cbv zeta. unfold Automata_addState.
  destruct (automata_store w !! a) as [au|]; [|repeat split].
  destruct (state_store w !! s) as [st|]; [|repeat split].
  destruct (found _); [repeat split|].
  match goal with |- context [fold_left (bind_view ?n) ?vs ?w1] =>
    destruct (bind_views_keeps n vs w1)
      as (K1 & K2 & K3 & K4 & K5 & K6 & K7 & K8 & _)
  end.
  simpl in *. rewrite K1, K2, K3, K4, K5, K6, K7, K8. repeat split.
Qed.

Lemma createAutomata_inv name sts context buffer w a w' :
  Appomata_createAutomata name sts context buffer w = (Normal a, w') ->
  exists st,
    failed_state = Normal st /\
    a = length (automata_store w) /\
    w' = Automata_addState a (length (state_store w))
           (with_state_store (state_store w ++ [st])
              (Automata_on a "afterTransition" (LApps name)
                 (with_connectedApps (obj_set name [] (connectedApps w))
                    (with_allTomata (obj_set name a (allTomata w))
                       (with_automata_store
                          (automata_store w ++
                             [mkAutomata name buffer context None None]) w))))).
Proof.
  unfold Appomata_createAutomata, Automata_new.
  destruct (forallb _ sts); [|discriminate].
  destruct failed_state as [st|e] eqn:F; [|discriminate].
  intros H. inversion H; subst. exists st. repeat split.
Qed.

Lemma failed_state_key st : failed_state = Normal st -> State_key st = "failed".
Proof. intros H. vm_compute in H. inversion H; subst. reflexivity. Qed.

(** X7.  What [createAutomata] leaves behind when it returns: a new
    automaton object with the given name, buffer and context and no current
    state; the automata that existed are untouched; [allTomata[name]] is the
    new automaton and [connectedApps[name]] a new empty set (for a name
    other than "__proto__"); one more subscriber of [afterTransition], the
    closure for that name; and "failed" is registered in the [states] table
    -- the state of this call when the name was free, the state that held
    the name before otherwise, so that all automata share one failed
    state. *)
Theorem createAutomata_returns (w : World) (name : string) (sts : list nat)
    (context buffer : obj) (a : nat) (w' : World) :
  Appomata_createAutomata name sts context buffer w = (Normal a, w') ->
  a = length (automata_store w) /\
  automata_store w' = automata_store w ++ [mkAutomata name buffer context None None] /\
  (name <> "__proto__" ->
   obj_get (allTomata w') name = Own a /\ obj_get (connectedApps w') name = Own []) /\
  EventBus_listeners "afterTransition" (automataEventBus w')
  = EventBus_listeners "afterTransition" (automataEventBus w) ++ [LApps name] /\
  (exists f, obj_get (states w') "failed" = Own f /\
             (forall f0, obj_get (states w) "failed" = Own f0 -> f = f0) /\
             (obj_get (states w) "failed" = Missing -> f = length (state_store w))).
Proof.
  intros H. destruct (createAutomata_inv _ _ _ _ _ _ _ H) as (st & F & -> & ->).
  set (a := length (automata_store w)).
  set (w5 := with_state_store _ _).
  destruct (addState_keeps a (length (state_store w)) w5)
    as (K1 & K2 & K3 & _ & _ & _ & K7 & _).
  split; [reflexivity|]. split; [rewrite K1; reflexivity|].
  split; [|split].
  - intros Hn. rewrite K2, K3. simpl. split; apply obj_get_own, own_obj_set_eq, Hn.
  - rewrite K7. simpl. unfold EventBus_on. rewrite EventBus_listeners_app.
    reflexivity.
  - assert (Ha : automata_store w5 !! a
                 = Some (mkAutomata name buffer context None None)).
    { simpl. unfold a. rewrite lookup_app_r by reflexivity.
      now rewrite Nat.sub_diag. }
    assert (Hs : state_store w5 !! length (state_store w) = Some st).
    { simpl. rewrite lookup_app_r by reflexivity. now rewrite Nat.sub_diag. }
    pose proof (failed_state_key st F) as Hk.
    destruct (obj_get (states w) "failed") as [f0|h|] eqn:G.
    + exists f0. split; [|split; [now intros ? [= <-] | discriminate]].
      unfold Automata_addState. rewrite Ha, Hs, Hk. simpl. now rewrite G.
    + apply obj_get_own_name in G. discriminate.
    + exists (length (state_store w)). split; [|split; [discriminate | reflexivity]].
      destruct (addState_fresh a (length (state_store w)) w5 _ st Ha Hs) as (G1 & _).
      * now rewrite Hk.
      * now rewrite Hk in G1.
Qed.

Lemma createAutomata_returns_witness :
  exists w',
    Appomata_createAutomata "B" [] [] [] one_automaton = (Normal 1, w') /\
    obj_get (states one_automaton) "failed" = Own 0 /\
    obj_get (states w') "failed" = Own 0 /\
    obj_get (allTomata w') "B" = Own 1.
Proof.
  assert (H : Appomata_createAutomata "B" [] [] [] one_automaton = second_automaton)
    by (vm_compute; reflexivity).
  unfold second_automaton in H.
  assert (G : obj_get (states one_automaton) "failed" = Own 0)
    by (vm_compute; reflexivity).
  eexists. split; [exact H|]. split; [exact G|].
  destruct (createAutomata_returns _ _ _ _ _ _ _ H)
    as (_ & _ & N & _ & (f & Gf & Same & _)).
  rewrite (Same 0 G) in Gf. split; [exact Gf|].
  apply N. discriminate.
Defined.

Lemma createAutomata_store name sts context buffer w a w' :
  Appomata_createAutomata name sts context buffer w = (Normal a, w') ->
  a = length (automata_store w) /\
  automata_store w' = automata_store w ++ [mkAutomata name buffer context None None].
Proof.
  intros H. destruct (createAutomata_inv _ _ _ _ _ _ _ H) as (st & F & -> & ->).
  split; [reflexivity|].
  match goal with |- automata_store (Automata_addState ?a ?s ?w5) = _ =>
    destruct (addState_keeps a s w5) as (K1 & _)
  end.
  now rewrite K1.
Qed.

(** X8.  An automaton just returned by [createAutomata] has no current
    state: until [init] is called, [transit] is rejected with "Current state
    is not initialized" without emitting anything or changing the world, and
    [tryTransit] throws a [TypeError] (it reads a property of [null]). *)
Theorem fresh_automaton_needs_init (w : World) (name : string) (sts : list nat)
    (context buffer : obj) (a : nat) (w' : World) (delta : Delta)
    (input : value) (action : string) :
  Appomata_createAutomata name sts context buffer w = (Normal a, w') ->
  Automata_transit a delta w'
  = (Rejected (VStr "Current state is not initialized"), w') /\
  Automata_tryTransit a input action w' = (Thrown TypeError, w').
Proof.
  intros H. destruct (createAutomata_store _ _ _ _ _ _ _ H) as (-> & E).
  assert (L : automata_store w' !! length (automata_store w)
              = Some (mkAutomata name buffer context None None)).
  { rewrite E, lookup_app_r by reflexivity. now rewrite Nat.sub_diag. }
  unfold Automata_transit, Automata_tryTransit. rewrite L. split; reflexivity.
Qed.

Lemma fresh_automaton_needs_init_witness :
  exists w',
    Appomata_createAutomata "B" [] [] [] one_automaton = (Normal 1, w') /\
    Automata_transit 1 (createDelta "go" VUndef) w'
    = (Rejected (VStr "Current state is not initialized"), w').
Proof.
  assert (H : Appomata_createAutomata "B" [] [] [] one_automaton = second_automaton)
    by (vm_compute; reflexivity).
  unfold second_automaton in H.
  eexists. split; [exact H|].
  exact (proj1 (fresh_automaton_needs_init _ _ _ _ _ _ _
                  (createDelta "go" VUndef) VUndef "go" H)).
Defined.

(** X9.  The [states] option of [createAutomata].  The constructor hands
    [this.addState] to [forEach] without its receiver, so a listed state
    whose name is not registered yet makes the call throw a [TypeError], and
    nothing is created or registered.  When every listed state's name is
    already taken the call goes through, and the listed states are left as
    they are. *)
Theorem createAutomata_with_states (w : World) (name : string) (sts : list nat)
    (context buffer : obj) :
  (forall s st, In s sts -> state_store w !! s = Some st ->
                obj_get (states w) (State_key st) = Missing ->
                Appomata_createAutomata name sts context buffer w
                = (Thrown TypeError, w)) /\
  ((forall s, In s sts ->
              exists st, state_store w !! s = Some st /\
                         found (obj_get (states w) (State_key st)) = true) ->
   exists a w',
     Appomata_createAutomata name sts context buffer w = (Normal a, w') /\
     forall s, In s sts -> state_store w' !! s = state_store w !! s).
Proof.
  split.
  - intros s st Hin Hs Hm. unfold Appomata_createAutomata, Automata_new.
    assert (F : forallb (fun s0 => match state_store w !! s0 with
                                   | Some st0 => found (obj_get (states w) (State_key st0))
                                   | None => false
                                   end) sts = false).
    { apply not_true_is_false. intros T.
      pose proof (proj1 (forallb_forall _ _) T s Hin) as X. simpl in X.
      rewrite Hs, Hm in X. discriminate. }
    now rewrite F.
  - intros Hall.
    assert (F : forallb (fun s0 => match state_store w !! s0 with
                                   | Some st0 => found (obj_get (states w) (State_key st0))
                                   | None => false
                                   end) sts = true).
    { apply forallb_forall. intros s Hin.
      destruct (Hall s Hin) as (st & -> & Hf). exact Hf. }
    destruct (Appomata_createAutomata name sts context buffer w) as [[a|e] w'] eqn:H.
    + exists a, w'. split; [reflexivity|]. intros s Hin.
      destruct (Hall s Hin) as (st & Hs & _).
      destruct (createAutomata_inv _ _ _ _ _ _ _ H) as (st0 & F0 & -> & ->).
      assert (Hlt : s < length (state_store w)) by (eapply lookup_lt_Some; exact Hs).
      unfold Automata_addState.
      match goal with |- context [automata_store ?w5 !! ?a] =>
        destruct (automata_store w5 !! a) as [au|];
          [|simpl; now rewrite lookup_app_l]
      end.
      match goal with |- context [state_store ?w5 !! length (state_store w)] =>
        destruct (state_store w5 !! length (state_store w)) as [stn|];
          [|simpl; now rewrite lookup_app_l]
      end.
      destruct (found _); [simpl; now rewrite lookup_app_l|].
      match goal with |- context [fold_left (bind_view ?n) ?vs ?w1] =>
        destruct (bind_views_keeps n vs w1) as (_&_&_&_&_&_&_&_&K9&_)
      end.
      simpl in *. rewrite K9.
      rewrite list_lookup_insert_ne by lia. now rewrite lookup_app_l.
    + exfalso. unfold Appomata_createAutomata, Automata_new in H.
      rewrite F in H. simpl in H. discriminate.
Qed.

Lemma createAutomata_with_states_witness :
  Appomata_createAutomata "B" [1] [] [] with_lobby = (Thrown TypeError, with_lobby).
Proof.
  apply (proj1 (createAutomata_with_states with_lobby "B" [1] [] []) 1
           (mkState "lobby" (VObj []) [] None [("enter", goes_to "lobby")])).
  - now left.
  - vm_compute. reflexivity.
  - vm_compute. reflexivity.
Defined.

(** X10.  [View.transit] with one automaton addressed, by the [automata]
    argument or by the view's own binding.  Only that automaton is asked.
    When it is in a State object (one that has kept the class's [transit])
    whose answer under the action is truthy, the call returns normally with
    that automaton's transition begun and no other: one more call of
    [transit] is suspended, for that automaton, with the action and the
    input, and no automaton has moved yet.  When the state lacks the action,
    or no automaton has that name, the call throws the "no any defined
    transition" string and the world is as it was; when the automaton has no
    current state, or the name is one every object inherits, it throws a
    [TypeError]. *)
Theorem View_transit_addressed (w : World) (v : nat) (vw : View)
    (input : value) (action automata s : string) :
  view_store w !! v = Some vw ->
  addressed vw automata = Some s ->
  s <> "" ->
  let r := View_transit v input action automata w in
  match obj_get (allTomata w) s with
  | Own a =>
      (now_of w a = None -> r = (Thrown TypeError, w)) /\
      (attentive w a -> accepts w a action = false ->
       r = (Thrown (no_transition (Some s) action), w)) /\
      (attentive w a -> accepts w a action = true ->
       fst r = Normal tt /\
       (exists p, suspended (snd r) = suspended w ++ [p] /\
                  p_automaton p = a /\
                  d_action (p_delta p) = action /\
                  d_input (p_delta p) = input) /\
       (forall b, now_of (snd r) b = now_of w b))
  | Inherited _ => r = (Thrown TypeError, w)
  | Missing => r = (Thrown (no_transition (Some s) action), w)
  end.
Proof.
  intros Hv Ha Hs r. subst r. unfold View_transit. rewrite Hv.
  unfold addressed in Ha. rewrite Ha.
  apply String.eqb_neq in Hs. rewrite Hs.
  destruct (obj_get (allTomata w) s) as [a|k|]; [|reflexivity|reflexivity].
  rewrite ask_all_cons. cbn [ask_all].
  split; [|split].
  - unfold now_of, Automata_tryTransit.
    destruct (automata_store w !! a) as [au|]; [|reflexivity].
    now intros ->.
  - intros At Acc.
    destruct (tryTransit_attentive w a input action At)
      as (w' & E & _ & _ & _ & _ & No & _).
    rewrite E, Acc. now rewrite (No Acc).
  - intros At Acc.
    destruct (tryTransit_attentive w a input action At)
      as (w' & E & N & _ & _ & _ & _ & Yes).
    rewrite E, Acc. cbn [fst snd].
    split; [reflexivity|]. split; [exact (Yes Acc) | exact N].
Qed.

Lemma View_transit_addressed_witness :
  fst (View_transit 0 VUndef "work" "B" two_automata) = Normal tt /\
  forall b, now_of (snd (View_transit 0 VUndef "work" "B" two_automata)) b
            = now_of two_automata b.
Proof.
  pose proof (View_transit_addressed two_automata 0
                (mkView "menu" [] [] None VWrapper) VUndef "work" "B" "B"
                ltac:(vm_compute; reflexivity) eq_refl ltac:(discriminate)) as H.
  cbv zeta in H.
  assert (G : obj_get (allTomata two_automata) "B" = Own 1)
    by (vm_compute; reflexivity).
  rewrite G in H. destruct H as (_ & _ & H).
  destruct H as (R & _ & N).
  - eexists _, _. split; [vm_compute; reflexivity|].
    split; vm_compute; reflexivity.
  - vm_compute. reflexivity.
  - split; [exact R | exact N].
Defined.

Lemma replace_own_same {A : Type} (o : JSObj A) (k : string) (x : A) :
  own o k = Some x -> replace_own k x o = o.
Proof.
  induction o as [|[k' a'] r IH]; simpl; [reflexivity|].
  destruct (k' =? k).
  - now intros [= ->].
  - intros H. now rewrite IH.
Qed.

Lemma obj_set_same {A : Type} (o : JSObj A) (k : string) (x : A) :
  own o k = Some x -> obj_set k x o = o.
Proof.
  intros H. unfold obj_set. destruct (k =? "__proto__"); [reflexivity|].
  rewrite H. now apply replace_own_same.
Qed.

Lemma set_add_has x s : existsb (Nat.eqb x) (set_add x s) = true.
Proof.
  unfold set_add. destruct (existsb (Nat.eqb x) s) eqn:E; [exact E|].
  rewrite existsb_app. simpl. rewrite Nat.eqb_refl. now rewrite orb_true_r.
Qed.

Lemma set_add_idem x s : set_add x (set_add x s) = set_add x s.
Proof. unfold set_add at 1. now rewrite set_add_has. Qed.

Lemma connect_one_inv app f a apps ap w :
  obj_get (allTomata w) f = Own a ->
  obj_get (connectedApps w) f = Own apps ->
  app_store w !! app = Some ap ->
  connect_one app f w
  = Normal (with_app_store
              (<[app := mkApp (app_name ap) (app_onTransition ap)
                          (Some (obj_set f a (match app_ugly ap with
                                              | Some t => t
                                              | None => []
                                              end)))]> (app_store w))
              (with_connectedApps
                 (obj_set f (set_add app apps) (connectedApps w)) w)).
Proof. intros H1 H2 H3. unfold connect_one. now rewrite H1, H2, H3. Qed.

(** X11.  [connect] for a registered automaton: the app joins the set of
    apps connected to that name, the automaton is filed under the name in
    the app's own table, and connecting the same app to the same name again
    changes nothing. *)
Theorem connect_registers_once (w : World) (app a : nat) (f : string)
    (apps : list nat) (ap : AppObj) :
  obj_get (allTomata w) f = Own a ->
  obj_get (connectedApps w) f = Own apps ->
  app_store w !! app = Some ap ->
  f <> "__proto__" ->
  exists w1 t,
    Appomata_connect app [f] w = (Normal tt, w1) /\
    obj_get (connectedApps w1) f = Own (set_add app apps) /\
    app_ugly <$> app_store w1 !! app = Some (Some t) /\
    obj_get t f = Own a /\
    Appomata_connect app [f] w1 = (Normal tt, w1).
Proof.
  intros Ha Hc Hp Hf.
  set (t0 := match app_ugly ap with Some t => t | None => [] end).
  set (ap1 := mkApp (app_name ap) (app_onTransition ap) (Some (obj_set f a t0))).
  set (c1 := obj_set f (set_add app apps) (connectedApps w)).
  set (w1 := with_app_store (<[app := ap1]> (app_store w)) (with_connectedApps c1 w)).
  assert (Hlt : app < length (app_store w)) by (eapply lookup_lt_Some; exact Hp).
  assert (Hc1 : obj_get (connectedApps w1) f = Own (set_add app apps)).
  { simpl. apply obj_get_own. now apply own_obj_set_eq. }
  assert (Hp1 : app_store w1 !! app = Some ap1).
  { simpl. now apply list_lookup_insert_eq. }
  exists w1, (obj_set f a t0). split; [|split; [|split; [|split]]].
  - simpl. rewrite (connect_one_inv _ _ _ _ _ _ Ha Hc Hp). reflexivity.
  - exact Hc1.
  - now rewrite Hp1.
  - apply obj_get_own. now apply own_obj_set_eq.
  - simpl. rewrite (connect_one_inv app f a (set_add app apps) ap1 w1 Ha Hc1 Hp1).
    f_equal. unfold w1 at 3. simpl.
    rewrite set_add_idem.
    rewrite (obj_set_same c1 f (set_add app apps))
      by (unfold c1; now apply own_obj_set_eq).
    rewrite (obj_set_same (obj_set f a t0) f a) by now apply own_obj_set_eq.
    rewrite list_insert_insert_eq. reflexivity.
Qed.

Lemma connect_registers_once_witness :
  exists w1 t,
    Appomata_connect 0 ["B"] two_automata = (Normal tt, w1) /\
    obj_get (connectedApps w1) "B" = Own (set_add 0 []) /\
    app_ugly <$> app_store w1 !! 0 = Some (Some t) /\
    obj_get t "B" = Own 1 /\
    Appomata_connect 0 ["B"] w1 = (Normal tt, w1).
Proof.
  apply (connect_registers_once two_automata 0 1 "B" []
           (mkApp "shell" true (Some [("A", 0)]))).
  - vm_compute. reflexivity.
  - vm_compute. reflexivity.
  - vm_compute. reflexivity.
  - discriminate.
Defined.

(** X12.  [connect] passes over a name under which no automaton is
    registered: the rest of the list is handled as if the name were not
    there. *)
Theorem connect_skips_unknown (w : World) (app : nat) (f : string)
    (before after : list string) :
  obj_get (allTomata w) f = Missing ->
  Appomata_connect app (before ++ f :: after) w
  = Appomata_connect app (before ++ after) w.
Proof.
  revert w. induction before as [|g r IH]; intros w Hf; simpl.
  - unfold connect_one. now rewrite Hf.
  - destruct (connect_one app g w) as [w'|e] eqn:E; [|reflexivity].
    apply IH.
    unfold connect_one in E.
    destruct (obj_get (allTomata w) g); try discriminate.
    + destruct (obj_get (connectedApps w) g); try discriminate.
      destruct (app_store w !! app); try discriminate.
      injection E as <-. exact Hf.
    + injection E as <-. exact Hf.
Qed.

Lemma connect_skips_unknown_witness :
  Appomata_connect 0 (["A"] ++ "nobody" :: ["B"]) two_automata
  = Appomata_connect 0 (["A"] ++ ["B"]) two_automata.
Proof.
  apply connect_skips_unknown. vm_compute. reflexivity.
Defined.

(** ** The current state is a registered state *)

Lemma moves_refl w : moves w w.
Proof. split; auto. Qed.

Lemma moves_trans w1 w2 w3 : moves w1 w2 -> moves w2 w3 -> moves w1 w3.
Proof.
  intros (S1 & N1) (S2 & N2). split; [congruence|].
  intros b l H. destruct (N2 b l H) as [H'|(k & R)].
  - auto.
  - right. exists k. now rewrite <- S1.
Qed.

Lemma moves_same w w' :
  states w' = states w -> automata_store w' = automata_store w -> moves w w'.
Proof.
  intros S A. split; [exact S|]. intros b l H. left.
  unfold now_of in *. now rewrite <- A.
Qed.

Lemma quiet_moves w w' : quiet w w' -> moves w w'.
Proof. intros (_&_&_&S&_&_&_&_&A&_). now apply moves_same. Qed.

Lemma moves_advances w w' : moves w w' -> advances w w'.
Proof.
  intros (S & N). split.
  - intros l (k & R). exists k. now rewrite S.
  - intros b l H. destruct (N b l H) as [H'|(k & R)]; [now left|].
    right. exists k. now rewrite S.
Qed.

Lemma advances_refl w : advances w w.
Proof. apply moves_advances, moves_refl. Qed.

Lemma advances_trans w1 w2 w3 : advances w1 w2 -> advances w2 w3 -> advances w1 w3.
Proof.
  intros (R1 & N1) (R2 & N2). split; [auto|].
  intros b l H. destruct (N2 b l H) as [H'|R]; [|now right].
  destruct (N1 b l H') as [H''|R]; [now left|]. right. auto.
Qed.

Lemma now_of_set_now_other w a n b : b <> a -> now_of (set_now a n w) b = now_of w b.
Proof. intros H. unfold now_of. now rewrite others_set_now. Qed.

Lemma moves_set_now a n w :
  (forall l, n = Some (NState l) -> registered w l) -> moves w (set_now a n w).
Proof.
  intros Hn. split.
  - unfold set_now. now destruct (automata_store w !! a).
  - intros b l H. destruct (decide (b = a)) as [->|Hb].
    + right. apply Hn. eapply now_of_set_now_inv. exact H.
    + left. now rewrite now_of_set_now_other in H.
Qed.

Lemma moves_set_buffers a x y w : moves w (set_buffers a x y w).
Proof.
  split.
  - unfold set_buffers. now destruct (automata_store w !! a).
  - intros b l H. left. unfold now_of in *. unfold set_buffers in H.
    destruct (automata_store w !! a) as [au|] eqn:E; [|exact H].
    unfold set_automaton in H. simpl in H.
    destruct (decide (b = a)) as [->|Hb].
    + rewrite list_lookup_insert_eq in H by (eapply lookup_lt_Some; exact E).
      rewrite E. exact H.
    + now rewrite list_lookup_insert_ne in H by congruence.
Qed.

Lemma moves_set_state s st w : moves w (set_state s st w).
Proof. now apply moves_same. Qed.

Lemma moves_now_cleanUp w l w' : now_cleanUp w l = Normal w' -> moves w w'.
Proof.
  unfold now_cleanUp. intros H.
  destruct (state_store w !! l) as [st|]; [|discriminate].
  destruct (own (st_actions st) "cleanUp") as [h|].
  - destruct (h_out _); inversion H; subst; now apply moves_same.
  - inversion H; subst. now apply moves_same.
Qed.

Lemma registered_next_state w k l :
  next_state w k = Some (NState l) -> registered w l.
Proof.
  intros H. destruct (next_state_registered _ _ _ H) as (k' & G & _).
  exists k'. now apply obj_get_Own_inv.
Qed.

Lemma moves_transit_try a n d w : moves w (tried_world (transit_try a n d w)).
Proof.
  unfold transit_try.
  destruct (now_transit w n d) as [[l r]|]; [|apply moves_refl].
  set (w1 := set_buffers _ _ _ _).
  assert (M1 : moves w w1).
  { eapply moves_trans; [apply moves_set_state | apply moves_set_buffers]. }
  destruct (t_out r) as [omega|e|e]; simpl; try exact M1.
  destruct (now_cleanUp w1 l) as [w2|e] eqn:C; simpl; [|exact M1].
  assert (M2 : moves w w2).
  { eapply moves_trans; [exact M1 | eapply moves_now_cleanUp; exact C]. }
  destruct (prop omega "next") as [nx|]; simpl; [|exact M2].
  destruct (to_key nx) as [k|]; simpl; [|exact M2].
  eapply moves_trans; [exact M2|].
  apply moves_set_now. intros l0 H. eapply registered_next_state. exact H.
Qed.

Lemma moves_transit_catch a n d w w' : transit_catch a n d w = Normal w' -> moves w w'.
Proof.
  intros H. destruct (transit_catch_stores _ _ _ _ _ H) as (l & w2 & _ & C & ->).
  eapply moves_trans; [eapply moves_now_cleanUp; exact C|].
  apply moves_set_now. intros l0. unfold failed_entry.
  destruct (obj_get (states w2) "failed") as [f|h|] eqn:G; try discriminate.
  intros [= <-]. exists "failed". now apply obj_get_Own_inv.
Qed.

Lemma moves_Automata_transit a delta w : moves w (snd (Automata_transit a delta w)).
Proof.
  destruct (automata_store w !! a) as [au|] eqn:Ha;
    [|unfold Automata_transit; rewrite Ha; apply moves_refl].
  destruct (a_now au) as [n|] eqn:Hn;
    [|unfold Automata_transit; rewrite Ha, Hn; apply moves_refl].
  pose proof (Automata_transit_cases a delta w au n Ha Hn) as Cases.
  cbv zeta in Cases.
  set (d0 := mkDelta (d_action delta) (d_input delta) (now_name w n)) in *.
  set (d := mkLoaded (d_action delta) (d_input delta) (now_name w n)
                     (a_context au) (a_buffer au)) in *.
  set (w1 := emit "beforeTransition" (PDelta d) w) in *.
  assert (M1 : moves w w1) by (apply quiet_moves, quiet_emit).
  pose proof (moves_transit_try a n d w1) as M2.
  destruct Cases as [(omega & w2 & T & ->)|(omega & e & w2 & T & Rest)].
  - rewrite T in M2. simpl in M2.
    eapply moves_trans; [exact M1|]. eapply moves_trans; [exact M2|].
    apply quiet_moves, quiet_transit_finish.
  - rewrite T in M2. simpl in M2.
    set (w3 := emit "failedTransition" (PDelta (reload a d w2)) w2) in *.
    assert (M3 : moves w w3).
    { eapply moves_trans; [exact M1|]. eapply moves_trans; [exact M2|].
      apply quiet_moves, quiet_emit. }
    destruct Rest as [(e' & _ & ->)|(w4 & C & ->)]; [exact M3|].
    eapply moves_trans; [exact M3|].
    eapply moves_trans; [eapply moves_transit_catch; exact C|].
    apply quiet_moves, quiet_transit_finish.
Qed.

Lemma moves_transit_try_rest a out w :
  moves w (tried_world (transit_try_rest a out w)).
Proof.
  unfold transit_try_rest.
  destruct out as [omega|e|e]; simpl; try apply moves_refl.
  destruct (automata_store w !! a) as [au|]; [|apply moves_refl].
  destruct (a_now au) as [[l|k]|]; try apply moves_refl.
  destruct (now_cleanUp w l) as [w2|e'] eqn:C; simpl; [|apply moves_refl].
  assert (M2 : moves w w2) by (eapply moves_now_cleanUp; exact C).
  destruct (prop omega "next") as [nx|]; simpl; [|exact M2].
  destruct (to_key nx) as [k|]; simpl; [|exact M2].
  eapply moves_trans; [exact M2|].
  apply moves_set_now. intros l0 H. eapply registered_next_state. exact H.
Qed.

Lemma moves_transit_rest a d0 d t :
  moves (tried_world t) (snd (transit_rest a d0 d t)).
Proof.
  destruct t as [omega w2|omega e w2]; simpl.
  - apply quiet_moves, quiet_transit_finish.
  - set (w3 := emit "failedTransition" _ w2).
    assert (M3 : moves w2 w3) by apply quiet_moves, quiet_emit.
    destruct (automata_store w3 !! a) as [au|]; [|exact M3].
    destruct (a_now au) as [n|]; [|exact M3].
    destruct (transit_catch a n d w3) as [w4|e'] eqn:C; simpl; [|exact M3].
    eapply moves_trans; [exact M3|].
    eapply moves_trans; [eapply moves_transit_catch; exact C|].
    apply quiet_moves, quiet_transit_finish.
Qed.

Lemma moves_with_suspended x w : moves w (with_suspended x w).
Proof. now apply moves_same. Qed.

Lemma moves_transit_begin a delta w :
  moves w (started_world (transit_begin a delta w)).
Proof.
  unfold transit_begin.
  destruct (automata_store w !! a) as [au|]; [|apply moves_refl].
  destruct (a_now au) as [n|]; [|apply moves_refl].
  cbv zeta. cbn [d_action d_input d_from].
  set (d0 := mkDelta _ _ _). set (d := mkLoaded _ _ _ _ _).
  set (w1 := emit "beforeTransition" (PDelta d) w).
  assert (M1 : moves w w1) by apply quiet_moves, quiet_emit.
  destruct (now_transit w1 n d) as [[l r]|]; simpl.
  - set (w2 := set_buffers a _ _ _).
    assert (M2 : moves w w2).
    { eapply moves_trans; [exact M1|].
      eapply moves_trans; [apply moves_set_state | apply moves_set_buffers]. }
    destruct (t_out r) as [omega|e|e]; simpl; try exact M2.
    eapply moves_trans; [exact M2|].
    apply (moves_transit_rest a d0 d (Caught VUndef e w2)).
  - eapply moves_trans; [exact M1|].
    apply (moves_transit_rest a d0 d (Caught VUndef TypeError w1)).
Qed.

Lemma moves_transit_call a delta w : moves w (transit_call a delta w).
Proof.
  unfold transit_call. pose proof (moves_transit_begin a delta w) as M.
  destruct (transit_begin a delta w) as [r w'|p w']; simpl in M; [exact M|].
  eapply moves_trans; [exact M | apply moves_with_suspended].
Qed.

Lemma moves_resume k w : moves w (resume k w).
Proof.
  unfold resume. destruct (suspended w !! k) as [p|]; [|apply moves_refl].
  eapply moves_trans; [apply moves_with_suspended|].
  unfold transit_resume.
  eapply moves_trans; [apply moves_transit_try_rest | apply moves_transit_rest].
Qed.

Lemma moves_Automata_tryTransit a input action w :
  moves w (snd (Automata_tryTransit a input action w)).
Proof.
  unfold Automata_tryTransit.
  destruct (automata_store w !! a) as [au|]; [|apply moves_refl].
  destruct (a_now au) as [n|]; [|apply moves_refl].
  destruct (now_has w n action) as [[|]|e];
    [apply moves_transit_call | apply moves_refl | apply moves_refl].
Qed.

Lemma moves_ask_all targets input action : forall transited w,
  moves w (snd (ask_all targets input action transited w)).
Proof.
  induction targets as [|[a|k|] r IH]; intros transited w; simpl;
    try apply moves_refl; [|apply IH].
  pose proof (moves_Automata_tryTransit a input action w) as M.
  destruct (Automata_tryTransit a input action w) as [[b|e] w']; simpl in *;
    [|exact M].
  eapply moves_trans; [exact M | apply IH].
Qed.

Lemma moves_View_transit v input action automata w :
  moves w (snd (View_transit v input action automata w)).
Proof.
  unfold View_transit.
  destruct (view_store w !! v) as [vw|]; [|apply moves_refl].
  match goal with |- context [ask_all ?t input action false w] =>
    pose proof (moves_ask_all t input action false w) as M;
    destruct (ask_all t input action false w) as [[[|]|e] w']
  end; exact M.
Qed.

Lemma moves_connect app automatas : forall w,
  moves w (snd (Appomata_connect app automatas w)).
Proof.
  induction automatas as [|f r IH]; intros w; simpl; [apply moves_refl|].
  destruct (connect_one app f w) as [w'|e] eqn:E; [|apply moves_refl].
  eapply moves_trans; [|apply IH].
  unfold connect_one in E.
  destruct (obj_get (allTomata w) f); try discriminate.
  - destruct (obj_get (connectedApps w) f); try discriminate.
    destruct (app_store w !! app); try discriminate.
    injection E as <-. now apply moves_same.
  - injection E as <-. apply moves_refl.
Qed.

Lemma advances_addState a s w : advances w (Automata_addState a s w).
Proof.
  unfold Automata_addState.
  destruct (automata_store w !! a) as [au|]; [|apply advances_refl].
  destruct (state_store w !! s) as [st|]; [|apply advances_refl].
  destruct (found _) eqn:F; [apply advances_refl|].
  match goal with |- context [fold_left (bind_view ?n) ?vs ?w1] =>
    destruct (bind_views_keeps n vs w1)
      as (_ & _ & _ & _ & _ & _ & _ & K8 & _ & K10);
    set (w2 := fold_left (bind_view n) vs w1) in *
  end.
  simpl in K8, K10. split.
  - intros l (k & R). exists k. rewrite State_key_bound.
    cbn [states with_states]. rewrite K10.
    rewrite own_obj_set_ne; [exact R|].
    intros E. unfold obj_get in F. rewrite E, R in F. discriminate.
  - intros b l H. left. unfold now_of in *. simpl in H. now rewrite K8 in H.
Qed.

Lemma advances_init a s w w' : Automata_init a s w = Normal w' -> advances w w'.
Proof.
  unfold Automata_init. intros H.
  destruct (automata_store w !! a) as [au|] eqn:Ha; [|discriminate].
  destruct (state_at w s) as [n|] eqn:Hs; [|discriminate].
  injection H as <-. apply moves_advances. split; [reflexivity|].
  intros b l H. unfold now_of, set_automaton in H. simpl in H.
  destruct (decide (b = a)) as [->|Hb].
  - rewrite list_lookup_insert_eq in H by (eapply lookup_lt_Some; exact Ha).
    simpl in H. right. unfold state_at in Hs.
    destruct (obj_get (states w) s) as [x|h|] eqn:G; try congruence.
    exists s. apply obj_get_Own_inv. congruence.
  - left. rewrite list_lookup_insert_ne in H by congruence. exact H.
Qed.

Lemma advances_createAutomata name sts context buffer w :
  advances w (snd (Appomata_createAutomata name sts context buffer w)).
Proof.
  destruct (Appomata_createAutomata name sts context buffer w) as [[a|e] w'] eqn:H.
  - destruct (createAutomata_inv _ _ _ _ _ _ _ H) as (st & _ & -> & ->). simpl.
    eapply advances_trans; [|apply advances_addState].
    apply moves_advances. split; [reflexivity|].
    intros b l Hb. left. unfold now_of in *. simpl in Hb.
    destruct (decide (b < length (automata_store w))) as [Hlt|Hge].
    + now rewrite lookup_app_l in Hb.
    + rewrite lookup_app_r in Hb by lia.
      destruct (b - length (automata_store w)) as [|m]; simpl in Hb; discriminate.
  - simpl. unfold Appomata_createAutomata in H.
    destruct (Automata_new name sts context buffer w) as [[a w1]|e0];
      [|injection H as _ <-; apply advances_refl].
    cbv zeta in H. destruct failed_state as [st|e1] eqn:F; [discriminate|].
    vm_compute in F. discriminate.
Qed.

Lemma reachable_run program : forall w, reachable w -> reachable (run w program).
Proof.
  induction program as [|c r IH]; intros w H; [exact H|].
  apply IH. now apply reachable_perform.
Qed.

Lemma advances_perform w c : advances w (perform w c).
Proof.
  destruct c; simpl.
  - apply moves_advances, moves_same;
      unfold Appomata_createView;
      destruct (assert _ _); try reflexivity;
      destruct (assert _ _); reflexivity.
  - apply moves_advances, moves_same;
      unfold Appomata_createState; destruct (State_new _ _ _ _); reflexivity.
  - apply advances_createAutomata.
  - apply moves_advances, moves_connect.
  - destruct (Automata_init a initState w) as [w'|e] eqn:E;
      [eapply advances_init; exact E | apply advances_refl].
  - apply advances_addState.
  - apply moves_advances, moves_Automata_transit.
  - apply moves_advances, moves_Automata_tryTransit.
  - apply moves_advances, moves_View_transit.
  - apply moves_advances, moves_resume.
  - apply moves_advances, moves_same; reflexivity.
  - apply moves_advances, moves_same; reflexivity.
  - apply moves_advances, moves_same; reflexivity.
  - apply moves_advances, moves_same; reflexivity.
  - apply moves_advances, moves_same; reflexivity.
Qed.

(** X13.  Whatever the program has called, an automaton whose current
    state is a State object is in a state filed in the shared table
    [states]: [init], the three ways a transition picks its next state, and
    the move to the failed state all read the state from that table, and no
    entry of the table is ever removed or replaced. *)
Theorem current_state_is_registered (w : World) :
  reachable w -> current_registered w.
Proof.
  induction 1 as [|w c _ IH].
  - intros a l H. vm_compute in H. discriminate.
  - destruct (advances_perform w c) as (R & N).
    intros a l H. destruct (N a l H) as [H'|H']; [|exact H'].
    apply R. eapply IH. exact H'.
Qed.

Lemma current_state_is_registered_witness :
  now_of (snd login_submit) 0 = Some (NState 2) /\ registered (snd login_submit) 2.
Proof.
  assert (N : now_of (snd login_submit) 0 = Some (NState 2))
    by (vm_compute; reflexivity).
  split; [exact N|].
  refine (current_state_is_registered (snd login_submit) _ 0 2 N).
  assert (E : perform login (c_transit 0 (createDelta "submit" VUndef))
              = snd login_submit) by (vm_compute; reflexivity).
  rewrite <- E. apply reachable_perform. apply reachable_run. apply reachable_new.
Defined.

(** X14.  A state is found by [init] once [addState] has filed it, and not
    before: with its name free in the table, [init] with that name throws
    "given state doesn't exists"; after [addState] the same call succeeds,
    the automaton is in that state and remembers the name as its initial
    state, and nothing is emitted and no state is changed by [init]. *)
Theorem init_after_addState (w : World) (a s : nat) (au : Automata) (st : State) :
  automata_store w !! a = Some au ->
  state_store w !! s = Some st ->
  obj_get (states w) (State_key st) = Missing ->
  Automata_init a (State_key st) w = Thrown (VStr "given state doesn't exists") /\
  exists w2,
    Automata_init a (State_key st) (Automata_addState a s w) = Normal w2 /\
    now_of w2 a = Some (NState s) /\
    a_initialState <$> automata_store w2 !! a = Some (Some (State_key st)) /\
    trace w2 = trace w /\
    state_store w2 = state_store (Automata_addState a s w).
Proof.
  intros Ha Hs Hm. split.
  - unfold Automata_init, state_at. now rewrite Ha, Hm.
  - destruct (addState_fresh a s w au st Ha Hs Hm) as (G & A & _).
    destruct (addState_keeps a s w) as (_ & _ & _ & _ & T & _).
    cbv zeta in G, A, T.
    set (w1 := Automata_addState a s w) in *.
    unfold Automata_init, state_at. rewrite A, Ha, G.
    eexists. split; [reflexivity|].
    assert (Hlt : a < length (automata_store w1))
      by (rewrite A; eapply lookup_lt_Some; exact Ha).
    unfold now_of, set_automaton. simpl.
    rewrite list_lookup_insert_eq by exact Hlt. simpl.
    repeat split. exact T.
Qed.

Lemma init_after_addState_witness :
  Automata_init 0 "lobby" with_lobby = Thrown (VStr "given state doesn't exists") /\
  exists w2,
    Automata_init 0 "lobby" (Automata_addState 0 1 with_lobby) = Normal w2 /\
    now_of w2 0 = Some (NState 1).
Proof.
  destruct (init_after_addState with_lobby 0 1
              (mkAutomata "A" [] [] None None)
              (mkState "lobby" (VObj []) [] None [("enter", goes_to "lobby")])
              ltac:(vm_compute; reflexivity) ltac:(vm_compute; reflexivity)
              ltac:(vm_compute; reflexivity))
    as (H1 & w2 & H2 & H3 & _).
  split; [exact H1|]. exists w2. split; [exact H2 | exact H3].
Defined.

(** ** addState and the views of the state *)

Lemma rebind_rebind name vw : rebind name (rebind name vw) = rebind name vw.
Proof. reflexivity. Qed.

Lemma bind_view_lookup name w v0 v :
  view_store (bind_view name w v0) !! v
  = if decide (v = v0) then rebind name <$> view_store w !! v
    else view_store w !! v.
Proof.
  unfold bind_view. destruct (view_store w !! v0) as [vw|] eqn:E.
  - simpl. destruct (decide (v = v0)) as [->|Hne].
    + rewrite list_lookup_insert_eq by (eapply lookup_lt_Some; exact E).
      now rewrite E.
    + now rewrite list_lookup_insert_ne by congruence.
  - destruct (decide (v = v0)) as [->|Hne]; [now rewrite E | reflexivity].
Qed.

Lemma bind_views_lookup name vs : forall w v,
  view_store (fold_left (bind_view name) vs w) !! v
  = if in_dec Nat.eq_dec v vs then rebind name <$> view_store w !! v
    else view_store w !! v.
Proof.
  induction vs as [|v0 vs IH]; intros w v; [reflexivity|].
  cbn [fold_left]. rewrite IH, bind_view_lookup.
  destruct (in_dec Nat.eq_dec v vs) as [I|I], (decide (v = v0)) as [E|E],
           (in_dec Nat.eq_dec v (v0 :: vs)) as [O|O];
    try reflexivity; try (exfalso; apply O; simpl; auto; fail);
    try (exfalso; destruct O; congruence).
  destruct (view_store w !! v); reflexivity.
Qed.

Lemma State_views_bound st name :
  State_views (mkState (st_name st) (st_local st) (st_views st) (Some name)
                       (remove_own "automata" (st_actions st)))
  = State_views st.
Proof.
  unfold State_views; simpl. now rewrite own_remove_own_ne by discriminate.
Qed.

(** X15.  [addState] of a state whose name is free binds the state and
    every view the state holds to the automaton: the state's [automata] is
    the automaton's name, each view listed in the state's [views] has its
    [automata] set to that name -- whatever automaton the view was created
    for -- and keeps its other fields, and all other views are untouched. *)
Theorem addState_binds_views (w : World) (a s : nat) (au : Automata) (st : State) :
  automata_store w !! a = Some au ->
  state_store w !! s = Some st ->
  obj_get (states w) (State_key st) = Missing ->
  let w1 := Automata_addState a s w in
  st_automata <$> state_store w1 !! s = Some (Some (a_name au)) /\
  (forall v, In v (obj_values (State_views st)) ->
             view_store w1 !! v = rebind (a_name au) <$> view_store w !! v) /\
  (forall v, ~ In v (obj_values (State_views st)) ->
             view_store w1 !! v = view_store w !! v).
Proof.
  intros Ha Hs Hm w1.
  destruct (addState_fresh a s w au st Ha Hs Hm) as (_ & _ & S).
  fold w1 in S. split; [|].
  - rewrite S, list_lookup_insert_eq by (eapply lookup_lt_Some; exact Hs).
    reflexivity.
  - assert (V : forall v,
               view_store w1 !! v
               = if in_dec Nat.eq_dec v (obj_values (State_views st))
                 then rebind (a_name au) <$> view_store w !! v
                 else view_store w !! v).
    { intros v. unfold w1, Automata_addState. rewrite Ha, Hs, Hm.
      cbn [found]. cbv zeta. cbn [view_store with_states].
      rewrite (State_views_bound st (a_name au)), bind_views_lookup.
      reflexivity. }
    split; intros v Hv; rewrite V;
      destruct (in_dec Nat.eq_dec v (obj_values (State_views st)));
      try reflexivity; contradiction.
Qed.

Lemma addState_binds_views_witness :
  v_automata <$> view_store with_menu !! 0 = Some (Some "B") /\
  v_automata <$> view_store (Automata_addState 0 1 with_menu) !! 0 = Some (Some "A").
Proof.
  split; [vm_compute; reflexivity|].
  destruct (addState_binds_views with_menu 0 1
              (mkAutomata "A" [] [] None None)
              (mkState "lobby" (VObj []) [("menu", 0)] None [])
              ltac:(vm_compute; reflexivity) ltac:(vm_compute; reflexivity)
              ltac:(vm_compute; reflexivity))
    as (_ & B & _).
  rewrite (B 0) by (vm_compute; auto).
  vm_compute. reflexivity.
Defined.

(** ** Attaching views *)

Lemma names_add_has x s : existsb (String.eqb x) (names_add x s) = true.
Proof.
  unfold names_add. destruct (existsb (String.eqb x) s) eqn:E; [exact E|].
  rewrite existsb_app. simpl. rewrite String.eqb_refl. now rewrite orb_true_r.
Qed.

Lemma names_add_idem x s : names_add x (names_add x s) = names_add x s.
Proof. unfold names_add at 1. now rewrite names_add_has. Qed.

Lemma names_add_In x s : In x (names_add x s).
Proof.
  pose proof (names_add_has x s) as H. apply existsb_exists in H.
  destruct H as (y & Hy & E). apply String.eqb_eq in E. now subst.
Qed.

Lemma values_add_In x s : In (VStr x) (values_add x s).
Proof.
  unfold values_add.
  destruct (existsb _ s) eqn:E.
  - apply existsb_exists in E. destruct E as (y & Hy & E).
    destruct y; try discriminate. apply String.eqb_eq in E. now subst.
  - apply in_or_app. right. now left.
Qed.

Lemma Missing_not_proto {A : Type} (o : JSObj A) (k : string) :
  obj_get o k = Missing -> k <> "__proto__".
Proof.
  unfold obj_get. intros H ->. destruct (own o "__proto__"); discriminate.
Qed.

(** X16.  [addView(view, state)] with the name of a registered state that
    has no view of that name yet: the view is filed in the state's [views]
    under its own name, the state's name joins [view.states] and the
    automaton's name joins [view.automatas], the view's [automata] stays as
    it was, and calling [addView] again with the same arguments changes
    nothing. *)
Theorem addView_attaches_once (w : World) (a v l : nat) (state : string)
    (au : Automata) (st : State) (vw : View) :
  automata_store w !! a = Some au ->
  state <> "" ->
  obj_get (states w) state = Own l ->
  state_store w !! l = Some st ->
  plain st = true ->
  view_store w !! v = Some vw ->
  obj_get (st_views st) (v_name vw) = Missing ->
  exists w' st' vw',
    Automata_addView a v state w = Some (Normal tt, w') /\
    state_store w' !! l = Some st' /\
    obj_get (st_views st') (v_name vw) = Own v /\
    view_store w' !! v = Some vw' /\
    In (VStr (st_name st)) (v_states vw') /\
    In (a_name au) (v_automatas vw') /\
    v_automata vw' = v_automata vw /\
    Automata_addView a v state w' = Some (Normal tt, w').
Proof.
  intros Ha Hne Hr Hs Hp Hv Hm.
  assert (Hlv : v < length (view_store w)) by (eapply lookup_lt_Some; exact Hv).
  assert (Hls : l < length (state_store w)) by (eapply lookup_lt_Some; exact Hs).
  apply String.eqb_neq in Hne.
  set (vw1 := mkView (v_name vw) (v_states vw)
                     (names_add (a_name au) (v_automatas vw))
                     (v_automata vw) (v_render vw)).
  set (vw2 := mkView (v_name vw) (values_add (st_name st) (v_states vw))
                     (names_add (a_name au) (v_automatas vw))
                     (v_automata vw) (v_render vw)).
  set (st2 := mkState (st_name st) (st_local st)
                      (obj_set (v_name vw) v (st_views st))
                      (st_automata st) (st_actions st)).
  set (w2 := set_state l st2
               (with_view_store
                  (<[v := vw2]> (<[v := vw1]> (view_store w)))
                  (with_view_store (<[v := vw1]> (view_store w)) w))).
  assert (Hown : obj_get (st_views st2) (v_name vw) = Own v).
  { apply obj_get_own, own_obj_set_eq. eapply Missing_not_proto. exact Hm. }
  assert (Hs2 : state_store w2 !! l = Some st2).
  { simpl. now apply list_lookup_insert_eq. }
  assert (Hv2 : view_store w2 !! v = Some vw2).
  { simpl. apply list_lookup_insert_eq. now rewrite length_insert. }
  assert (First : Automata_addView a v state w = Some (Normal tt, w2)).
  { unfold Automata_addView. rewrite Ha, Hne. cbn [List.filter].
    rewrite Hr. cbn [found attach]. rewrite Hv. cbv zeta. cbn [states with_view_store].
    rewrite Hr. unfold State_addView. cbn [state_store view_store with_view_store].
    rewrite Hs, list_lookup_insert_eq by exact Hlv.
    rewrite Hp. cbn [v_name]. rewrite Hm. reflexivity. }
  exists w2, st2, vw2. repeat split; try assumption.
  - apply values_add_In.
  - apply names_add_In.
  - unfold Automata_addView. simpl automata_store. rewrite Ha, Hne.
    cbn [List.filter]. change (states w2) with (states w).
    rewrite Hr. cbn [found attach]. rewrite Hv2. cbv zeta.
    cbn [v_name v_states v_automatas v_automata v_render vw2].
    rewrite names_add_idem. fold vw2.
    cbn [states with_view_store]. change (states w2) with (states w). rewrite Hr.
    unfold State_addView. cbn [state_store view_store with_view_store].
    rewrite Hs2.
    rewrite list_lookup_insert_eq by (eapply lookup_lt_Some; exact Hv2).
    change (plain st2) with (plain st). rewrite Hp.
    change (v_name vw2) with (v_name vw). rewrite Hown.
    do 2 f_equal. unfold w2, set_state. simpl.
    now rewrite list_insert_insert_eq.
Qed.

Lemma addView_attaches_once_witness :
  exists w' st' vw',
    Automata_addView 0 0 "lobby" lobby_and_menu = Some (Normal tt, w') /\
    state_store w' !! 1 = Some st' /\
    obj_get (st_views st') "menu" = Own 0 /\
    view_store w' !! 0 = Some vw' /\
    In (VStr "lobby") (v_states vw') /\
    In "A" (v_automatas vw') /\
    v_automata vw' = None /\
    Automata_addView 0 0 "lobby" w' = Some (Normal tt, w').
Proof.
  apply (addView_attaches_once lobby_and_menu 0 0 1 "lobby"
           (mkAutomata "A" [] [] None None)
           (mkState "lobby" (VObj []) [] (Some "A") [("enter", goes_to "lobby")])
           (mkView "menu" [] [] None VWrapper)).
  - vm_compute. reflexivity.
  - discriminate.
  - vm_compute. reflexivity.
  - vm_compute. reflexivity.
  - vm_compute. reflexivity.
  - vm_compute. reflexivity.
  - vm_compute. reflexivity.
Defined.

Lemma own_In_keys {A : Type} (o : JSObj A) (k : string) (x : A) :
  own o k = Some x -> In k (obj_keys o).
Proof.
  induction o as [|[k' a'] r IH]; simpl; [discriminate|].
  destruct (k' =? k) eqn:E.
  - intros _. left. now apply String.eqb_eq.
  - intros H. right. now apply IH.
Qed.

Lemma In_keys_own {A : Type} (o : JSObj A) (k : string) :
  In k (obj_keys o) -> exists x, own o k = Some x.
Proof.
  induction o as [|[k' a'] r IH]; simpl; [contradiction|].
  destruct (k' =? k) eqn:E; [eauto|].
  intros [H|H]; [apply String.eqb_neq in E; contradiction | now apply IH].
Qed.

Lemma keeps_views_refl n w : keeps_views n w w.
Proof. split; [reflexivity|]. intros l st H. exists st. auto. Qed.

Lemma keeps_views_trans n w1 w2 w3 :
  keeps_views n w1 w2 -> keeps_views n w2 w3 -> keeps_views n w1 w3.
Proof.
  intros (S1 & K1) (S2 & K2). split; [congruence|].
  intros l st H. destruct (K1 l st H) as (st' & H' & A' & F').
  destruct (K2 l st' H') as (st'' & H'' & A'' & F'').
  exists st''. split; [exact H''|]. split; [congruence | auto].
Qed.

Lemma plain_actions st st' : st_actions st' = st_actions st -> plain st' = plain st.
Proof. unfold plain. now intros ->. Qed.

Lemma State_addView_plain l v w st vw :
  state_store w !! l = Some st ->
  plain st = true ->
  view_store w !! v = Some vw ->
  exists w2,
    State_addView l v w = Some (Normal w2) /\
    keeps_views (v_name vw) w w2 /\
    automata_store w2 = automata_store w /\
    (exists vw2, view_store w2 !! v = Some vw2 /\ v_name vw2 = v_name vw) /\
    has_view w2 l (v_name vw).
Proof.
  intros Hs Hp Hv. unfold State_addView. rewrite Hs, Hv, Hp.
  destruct (obj_get (st_views st) (v_name vw)) as [x|k|] eqn:G.
  - exists w. split; [reflexivity|]. split; [apply keeps_views_refl|].
    split; [reflexivity|]. split; [eauto|]. exists st. now rewrite G.
  - exists w. split; [reflexivity|]. split; [apply keeps_views_refl|].
    split; [reflexivity|]. split; [eauto|]. exists st. now rewrite G.
  - eexists. split; [reflexivity|].
    assert (Hl : l < length (state_store w)) by (eapply lookup_lt_Some; exact Hs).
    assert (Hlv : v < length (view_store w)) by (eapply lookup_lt_Some; exact Hv).
    assert (N : v_name vw <> "__proto__") by (eapply Missing_not_proto; exact G).
    split; [|split; [reflexivity|split]].
    + split; [reflexivity|]. intros l' st' H'. simpl.
      destruct (decide (l' = l)) as [->|Hne].
      * rewrite list_lookup_insert_eq by exact Hl. eexists. split; [reflexivity|].
        assert (st' = st) by congruence. subst st'. simpl.
        split; [reflexivity|]. intros F. rewrite G in F. discriminate.
      * rewrite list_lookup_insert_ne by congruence. exists st'. auto.
    + simpl. rewrite list_lookup_insert_eq by exact Hlv. eexists.
      split; reflexivity.
    + eexists. simpl. rewrite list_lookup_insert_eq by exact Hl.
      split; [reflexivity|]. simpl.
      now rewrite (obj_get_own _ _ _ (own_obj_set_eq (st_views st) (v_name vw) v N)).
Qed.

Lemma attach_all name v n : forall keys w,
  attachable w v n ->
  (forall k, In k keys -> exists l, own (states w) k = Some l) ->
  exists w',
    attach name v keys w = Some (Normal tt, w') /\
    keeps_views n w w' /\
    automata_store w' = automata_store w /\
    (forall k l, In k keys -> own (states w) k = Some l -> has_view w' l n).
Proof.
  induction keys as [|k r IH]; intros w ((vw & Hv & Hn) & Hall) Hkeys.
  - exists w. split; [reflexivity|]. split; [apply keeps_views_refl|].
    split; [reflexivity|]. intros k l [].
  - destruct (Hkeys k (or_introl eq_refl)) as (l & Hk).
    destruct (Hall k l Hk) as (st & Hs & Hp).
    assert (Hlv : v < length (view_store w)) by (eapply lookup_lt_Some; exact Hv).
    cbn [attach]. rewrite Hv. cbv zeta.
    set (vw1 := mkView (v_name vw) (v_states vw)
                       (names_add name (v_automatas vw))
                       (v_automata vw) (v_render vw)).
    set (w1 := with_view_store (<[v := vw1]> (view_store w)) w).
    change (states w1) with (states w). rewrite (obj_get_own _ _ _ Hk).
    assert (Hv1 : view_store w1 !! v = Some vw1)
      by (simpl; now apply list_lookup_insert_eq).
    destruct (State_addView_plain l v w1 st vw1 Hs Hp Hv1)
      as (w2 & E & K & A & (vw2 & Hv2 & Hn2) & Has).
    rewrite E. change (v_name vw1) with (v_name vw) in *. rewrite Hn in *.
    destruct K as (S2 & K2).
    destruct (IH w2) as (w' & E' & K' & A' & Has').
    + split; [exists vw2; split; [exact Hv2 | exact Hn2]|].
      intros k0 l0 H0. rewrite S2 in H0. destruct (Hall k0 l0 H0) as (st0 & Hs0 & Hp0).
      destruct (K2 l0 st0 Hs0) as (st0' & Hs0' & Ha0 & _).
      exists st0'. split; [exact Hs0'|]. now rewrite (plain_actions _ _ Ha0).
    + intros k0 Hin. rewrite S2. apply Hkeys. now right.
    + exists w'. split; [exact E'|].
      assert (K02 : keeps_views n w w2) by (split; [exact S2 | exact K2]).
      split; [eapply keeps_views_trans; [exact K02 | exact K']|].
      split; [now rewrite A', A|].
      intros k0 l0 [<-|Hin] H0.
      * assert (l0 = l) by congruence. subst l0.
        destruct Has as (st2 & Hst2 & F2).
        destruct K' as (_ & K3). destruct (K3 l st2 Hst2) as (st3 & Hst3 & _ & F3).
        exists st3. split; [exact Hst3 | now apply F3].
      * apply (Has' k0 l0 Hin). now rewrite S2.
Qed.

(** X17.  [addView(view)] without a state name, in a world where every
    entry of [states] is a plain State object: the call returns, and
    afterwards every State object filed in the table -- the states added
    through any automaton and the shared failed state alike -- has a view
    under the view's name; no entry of the table and no automaton is
    changed. *)
Theorem addView_reaches_every_state (w : World) (a v : nat) (au : Automata)
    (vw : View) :
  automata_store w !! a = Some au ->
  view_store w !! v = Some vw ->
  (forall k l, own (states w) k = Some l ->
               exists st, state_store w !! l = Some st /\ plain st = true) ->
  exists w',
    Automata_addView a v "" w = Some (Normal tt, w') /\
    states w' = states w /\
    automata_store w' = automata_store w /\
    forall k l, own (states w) k = Some l -> has_view w' l (v_name vw).
Proof.
  intros Ha Hv Hall. unfold Automata_addView. rewrite Ha. cbn [String.eqb].
  set (keys := List.filter (fun s => found (obj_get (states w) s))
                           (obj_keys (states w))).
  destruct (attach_all (a_name au) v (v_name vw) keys w) as (w' & E & K & A & Has).
  - split; [exists vw; auto | exact Hall].
  - intros k Hin. apply filter_In in Hin. destruct Hin as (Hin & _).
    now apply In_keys_own.
  - exists w'. split; [exact E|]. split; [exact (proj1 K)|]. split; [exact A|].
    intros k l Hk. apply (Has k l); [|exact Hk].
    apply filter_In. split; [eapply own_In_keys; exact Hk|].
    now rewrite (obj_get_own _ _ _ Hk).
Qed.

Lemma addView_reaches_every_state_witness :
  exists w',
    Automata_addView 0 0 "" lobby_and_menu = Some (Normal tt, w') /\
    has_view w' 0 "menu" /\ has_view w' 1 "menu".
Proof.
  destruct (addView_reaches_every_state lobby_and_menu 0 0
              (mkAutomata "A" [] [] None None)
              (mkView "menu" [] [] None VWrapper)
              ltac:(vm_compute; reflexivity) ltac:(vm_compute; reflexivity))
    as (w' & E & _ & _ & Has).
  - intros k l H.
    assert (S : states lobby_and_menu = [("failed", 0); ("lobby", 1)])
      by (vm_compute; reflexivity).
    rewrite S in H. cbn [own] in H.
    destruct (String.eqb "failed" k).
    + injection H as <-. eexists. split; [vm_compute; reflexivity|].
      vm_compute. reflexivity.
    + destruct (String.eqb "lobby" k); [|discriminate].
      injection H as <-. eexists. split; [vm_compute; reflexivity|].
      vm_compute. reflexivity.
  - exists w'. split; [exact E|]. split.
    + apply (Has "failed" 0). vm_compute. reflexivity.
    + apply (Has "lobby" 1). vm_compute. reflexivity.
Defined.

(** ** State paths *)

Lemma path_entry_own s m :
  in_names (fst (entry_of m)) Object_prototype = false ->
  exists s',
    path_entry s m = Normal s' /\
    forall k, own s' k
              = if fst (entry_of m) =? k
                then Some (match own s k with Some l => l | None => [] end
                           ++ [snd (entry_of m)])
                else own s k.
Proof.
  intros Hn. unfold path_entry. destruct (entry_of m) as [automata action].
  cbn [fst snd] in *.
  assert (Hp : automata <> "__proto__").
  { intros ->. vm_compute in Hn. discriminate. }
  unfold obj_get. rewrite Hn.
  destruct (own s automata) as [l|] eqn:O; eexists; (split; [reflexivity|]);
    intros k; destruct (automata =? k) eqn:E.
  - apply String.eqb_eq in E. subst k.
    rewrite own_obj_set_eq by exact Hp. now rewrite O.
  - apply String.eqb_neq in E. now rewrite own_obj_set_ne.
  - apply String.eqb_eq in E. subst k.
    rewrite own_obj_set_eq by exact Hp. now rewrite O.
  - apply String.eqb_neq in E. now rewrite own_obj_set_ne.
Qed.

Lemma path_entries_own : forall ms s,
  (forall m, In m ms -> in_names (fst (entry_of m)) Object_prototype = false) ->
  exists s',
    path_entries s ms = Normal s' /\
    forall k, own s' k
              = match own s k, actions_of k (map entry_of ms) with
                | None, [] => None
                | None, l => Some l
                | Some l0, l => Some (l0 ++ l)
                end.
Proof.
  induction ms as [|m r IH]; intros s Hall.
  - exists s. split; [reflexivity|]. intros k. unfold actions_of. simpl.
    destruct (own s k); [now rewrite app_nil_r | reflexivity].
  - destruct (path_entry_own s m (Hall m (or_introl eq_refl))) as (s1 & E1 & O1).
    destruct (IH s1 (fun m' H => Hall m' (or_intror H))) as (s' & E' & O').
    exists s'. split; [simpl; now rewrite E1|].
    intros k. rewrite O', O1. unfold actions_of. cbn [map List.filter].
    destruct (fst (entry_of m) =? k); destruct (own s k) as [l0|];
      cbn [map app]; try reflexivity.
    now rewrite <- app_assoc.
Qed.

(** X18.  [_extractStatePath] groups the actions by automaton: when no
    piece of the comma-separated string names an automaton by a name every
    object inherits, the call returns an object whose own entries are
    exactly the automaton names that occur, each with the list of the
    actions given for it, in the order of the string; a piece without a dot
    contributes [undefined] as its action. *)
Theorem extractStatePath_groups (stateMapString : string) :
  (forall m, In m (split_on "," stateMapString) ->
             in_names (fst (entry_of m)) Object_prototype = false) ->
  exists s,
    App__extractStatePath stateMapString = Normal s /\
    forall k, own s k
              = match actions_of k (map entry_of (split_on "," stateMapString)) with
                | [] => None
                | l => Some l
                end.
Proof.
  intros Hall. destruct (path_entries_own _ [] Hall) as (s & E & O).
  exists s. split; [exact E|]. intros k. now rewrite O.
Qed.

Lemma extractStatePath_groups_witness :
  exists s,
    App__extractStatePath "login.submit,cart.add,login.logout,menu" = Normal s /\
    own s "login" = Some [Some "submit"; Some "logout"] /\
    own s "menu" = Some [None] /\
    own s "other" = None.
Proof.
  destruct (extractStatePath_groups "login.submit,cart.add,login.logout,menu")
    as (s & E & O).
  - intros m H. vm_compute in H.
    destruct H as [<-|[<-|[<-|[<-|[]]]]]; vm_compute; reflexivity.
  - exists s. split; [exact E|]. rewrite !O. vm_compute. auto.
Defined.

Lemma path_entries_inherited : forall ms s,
  no_inherited_key s ->
  (exists m, In m ms /\ in_names (fst (entry_of m)) Object_prototype = true) ->
  path_entries s ms = Thrown TypeError.
Proof.
  induction ms as [|m r IH]; intros s Hs (m0 & Hin & Hbad); [destruct Hin|].
  simpl. destruct (in_names (fst (entry_of m)) Object_prototype) eqn:Hm.
  - unfold path_entry. destruct (entry_of m) as [automata action].
    cbn [fst] in Hm.
    unfold obj_get. now rewrite (Hs automata Hm), Hm.
  - destruct (path_entry_own s m Hm) as (s1 & E1 & O1). rewrite E1.
    apply IH.
    + intros k Hk. rewrite O1.
      destruct (fst (entry_of m) =? k) eqn:E; [|now apply Hs].
      apply String.eqb_eq in E. congruence.
    + destruct Hin as [->|Hin]; [congruence|]. exists m0. auto.
Qed.

(** X19.  [_extractStatePath] throws a [TypeError] as soon as one piece of
    the string names an automaton "toString", "constructor", "__proto__" or
    another name every object inherits: the value found under that name is
    not an array. *)
Theorem extractStatePath_inherited_name (stateMapString m : string) :
  In m (split_on "," stateMapString) ->
  in_names (fst (entry_of m)) Object_prototype = true ->
  App__extractStatePath stateMapString = Thrown TypeError.
Proof.
  intros Hin Hbad. apply path_entries_inherited.
  - intros k _. reflexivity.
  - exists m. auto.
Qed.

Lemma extractStatePath_inherited_name_witness :
  App__extractStatePath "login.submit,constructor.reset" = Thrown TypeError.
Proof.
  apply (extractStatePath_inherited_name _ "constructor.reset").
  - vm_compute. auto.
  - vm_compute. reflexivity.
Defined.

(** X20.  [addLayout] and [addComponent] keep the state path of the last
    map string only: with map strings that all parse, the entry filed under
    the component's name holds the object [_extractStatePath] returns for
    the last string of the list, whatever the strings before it were; with
    an empty list it holds the empty array. *)
Theorem addLayout_keeps_last_map {C : Type} (name : string) (layout : C)
    (maps : list string) (m : string) (s : paths)
    (layouts : JSObj (C * statePath)) :
  (forall m', In m' maps -> exists s', App__extractStatePath m' = Normal s') ->
  App__extractStatePath m = Normal s ->
  App_addLayout name layout (maps ++ [m]) layouts
  = Normal (obj_set name (layout, Paths s) layouts) /\
  App_addComponent name layout (maps ++ [m]) layouts
  = Normal (obj_set name (layout, Paths s) layouts) /\
  App_addLayout name layout [] layouts
  = Normal (obj_set name (layout, EmptyArray) layouts).
Proof.
  intros Hall Hm.
  assert (L : forall s0, last_path (maps ++ [m]) s0 = Normal (Paths s)).
  { induction maps as [|m0 r IH]; intros s0; simpl.
    - now rewrite Hm.
    - destruct (Hall m0 (or_introl eq_refl)) as (s' & ->).
      apply IH. intros m' H. apply Hall. now right. }
  unfold App_addLayout, App_addComponent. rewrite L. repeat split.
Qed.

Lemma addLayout_keeps_last_map_witness :
  App_addLayout "header" tt (["login.submit"] ++ ["cart.add"]) []
  = Normal [("header", (tt, Paths [("cart", [Some "add"])]))].
Proof.
  refine (proj1 (addLayout_keeps_last_map "header" tt ["login.submit"] "cart.add"
                   [("cart", [Some "add"])] [] _ _)).
  - intros m' [<-|[]]. eexists. vm_compute. reflexivity.
  - vm_compute. reflexivity.
Defined.

(** ** createState *)

Lemma define_all_own : forall acts st,
  own (st_actions st) "defineAction" = None ->
  own acts "defineAction" = None ->
  List.NoDup (obj_keys acts) ->
  (forall k, In k (obj_keys acts) -> k <> "__proto__") ->
  exists st',
    define_all acts st = Normal st' /\
    st_name st' = st_name st /\ st_local st' = st_local st /\
    st_views st' = st_views st /\ st_automata st' = st_automata st /\
    forall k, own (st_actions st') k
              = match own acts k with
                | Some h => Some h
                | None => own (st_actions st) k
                end.
Proof.
  induction acts as [|[n f] r IH]; intros st Hd Ha Hnd Hp.
  - exists st. repeat split.
  - cbn [define_all]. rewrite Hd.
    cbn [own] in Ha. destruct (n =? "defineAction") eqn:En; [discriminate|].
    apply String.eqb_neq in En.
    cbn [obj_keys map fst] in Hnd. apply List.NoDup_cons_iff in Hnd.
    destruct Hnd as (Hn & Hnd).
    assert (Hnp : n <> "__proto__") by (apply Hp; now left).
    destruct (IH (State_defineAction n f st)) as (st' & E & N & L & V & A & O).
    + simpl. now rewrite own_obj_set_ne.
    + exact Ha.
    + exact Hnd.
    + intros k Hk. apply Hp. now right.
    + exists st'. split; [exact E|]. repeat split; try assumption.
      intros k. rewrite O. cbn [own].
      destruct (n =? k) eqn:Ek.
      * apply String.eqb_eq in Ek. subst k.
        destruct (own r n) as [h|] eqn:R.
        -- exfalso. apply Hn. eapply own_In_keys. exact R.
        -- simpl. now apply own_obj_set_eq.
      * apply String.eqb_neq in Ek.
        destruct (own r k); [reflexivity|]. simpl. now apply own_obj_set_ne.
Qed.

(** X21.  [createState] builds the State object and files it nowhere: for
    an [actions] object with no action named "defineAction", the call adds
    one object to the store and returns it, and what that object answers
    under a name is the action of that name if [actions] has one, and
    otherwise what a State with the given name and local data, no view and
    no automaton answers; the table [states], the automata and everything
    else in the world are as before. *)
Theorem createState_defines_actions (w : World) (name : string) (local : value)
    (actions : JSObj handler) :
  own actions "defineAction" = None ->
  List.NoDup (obj_keys actions) ->
  (forall k, In k (obj_keys actions) -> k <> "__proto__") ->
  exists st,
    Appomata_createState name local actions w
    = (Normal (length (state_store w)),
       with_state_store (state_store w ++ [st]) w) /\
    forall k, State_get st k
              = match own actions k with
                | Some h => MAction h
                | None => State_get (mkState name local [] None []) k
                end.
Proof.
  intros Hd Hnd Hp.
  destruct (define_all_own actions (mkState name local [] None [])
              eq_refl Hd Hnd Hp) as (st & E & N & L & V & A & O).
  exists st. unfold Appomata_createState, State_new. rewrite E.
  split; [reflexivity|].
  intros k. unfold State_get. rewrite O, N, L, V, A. cbn [st_actions own].
  now destruct (own actions k).
Qed.

Lemma createState_defines_actions_witness :
  exists st,
    Appomata_createState "idle" (VObj []) [("submit", goes_to "busy")] World_new
    = (Normal 0, with_state_store [st] World_new) /\
    State_get st "submit" = MAction (goes_to "busy") /\
    State_get st "name" = MData (VStr "idle").
Proof.
  destruct (createState_defines_actions World_new "idle" (VObj [])
              [("submit", goes_to "busy")]) as (st & E & O).
  - reflexivity.
  - repeat constructor. simpl. tauto.
  - intros k [<-|[]]. discriminate.
  - exists st. split; [exact E|]. split; rewrite O; reflexivity.
Defined.
